(** * webgpu-utils: a shallow embedding of the pass-assembly core

    The development follows the JavaScript sources module by module:
    [Layout] is src/struct.js, [Core] is the Buffer class of src/core.js,
    [Scanner] and [Assembler] are src/wgsl.js, [Passes] is the file that
    holds ComputePass, RenderPass and runPasses.

    JavaScript values are dynamically typed, calls may throw, and a few
    loops need an argument to terminate.  Every embedded function therefore
    returns an [outcome]: it returns a value, throws an Error with the
    message of the source, or runs out of the fuel given to a loop. *)

From Stdlib Require Import Ascii String List ZArith Lia Bool Arith DecimalString ZifyNat.
From stdpp Require Import gmap strings.

Set Warnings "-register-all".
Set Warnings "-abstract-large-number".
Set Warnings "-notation-for-abbreviation".
Import ListNotations.

Local Open Scope string_scope.
Local Open Scope list_scope.
Local Open Scope nat_scope.

(** ** Outcomes of a JavaScript call *)

Module Js.

Inductive outcome (A : Type) : Type :=
| Returns (a : A)
| Throws (message : string)
| Diverges.

Arguments Returns {A} a.
Arguments Throws {A} message.
Arguments Diverges {A}.

Definition bind {A B : Type} (m : outcome A) (k : A -> outcome B) : outcome B :=
  match m with
  | Returns a => k a
  | Throws e => Throws e
  | Diverges => Diverges
  end.

(** [try { m } catch (error) { h error.message }] *)
Definition try_catch {A : Type} (m : outcome A) (h : string -> outcome A) : outcome A :=
  match m with
  | Returns a => Returns a
  | Throws e => h e
  | Diverges => Diverges
  end.

(** Template literals print numbers in decimal. *)
Definition show_nat (n : nat) : string := NilEmpty.string_of_uint (Nat.to_uint n).

End Js.

Export Js.

Declare Scope js_scope.
Delimit Scope js_scope with js.
Notation "x <- m ;; k" := (Js.bind m (fun x => k))
  (at level 62, m at level 61, right associativity) : js_scope.
Local Open Scope js_scope.

(** ** Characters and text *)

Module Text.

(** Source text is a sequence of code units; the model keeps the units
    below 256. *)
Definition text : Type := list ascii.

Definition t (s : string) : text := list_ascii_of_string s.

(** The class [\s] of a JavaScript regular expression, which is also what
    [String.prototype.trim] removes: TAB, LF, VT, FF, CR, SPACE, NBSP. *)
Definition is_space (c : ascii) : bool :=
  match N_of_ascii c with
  | 9 | 10 | 11 | 12 | 13 | 32 | 160 => true
  | _ => false
  end%N.

(** The class [[a-zA-Z0-9_]], that is [\w]. *)
Definition is_word (c : ascii) : bool :=
  let n := N_of_ascii c in
  ((48 <=? n) && (n <=? 57) || (65 <=? n) && (n <=? 90)
   || (97 <=? n) && (n <=? 122) || (n =? 95))%N.

Definition newline : ascii := "010"%char.

Fixpoint trim_start (s : text) : text :=
  match s with
  | c :: r => if is_space c then trim_start r else s
  | [] => []
  end.

Definition trim_end (s : text) : text := rev (trim_start (rev s)).

Definition trim (s : text) : text := trim_end (trim_start s).

Definition is_empty (s : text) : bool :=
  match s with [] => true | _ => false end.

(** [s.startsWith(p)] *)
Fixpoint starts_with (p s : text) : bool :=
  match p, s with
  | [], _ => true
  | a :: p', b :: s' => Ascii.eqb a b && starts_with p' s'
  | _ :: _, [] => false
  end.

(** [s.split('\n')]: never empty, the separators are dropped. *)
Fixpoint split_lines_from (cur : text) (s : text) : list text :=
  match s with
  | [] => [rev cur]
  | c :: r =>
      if Ascii.eqb c newline then rev cur :: split_lines_from [] r
      else split_lines_from (c :: cur) r
  end.

Definition split_lines (s : text) : list text := split_lines_from [] s.

(** [parts.join(sep)] *)
Fixpoint join (sep : text) (parts : list text) : text :=
  match parts with
  | [] => []
  | [p] => p
  | p :: rest => p ++ sep ++ join sep rest
  end.

(** [(line.match(/c/g) || []).length] for a one-character pattern. *)
Definition count_char (c : ascii) (s : text) : nat :=
  length (List.filter (Ascii.eqb c) s).

End Text.

Export Text.

(** ** Numbers

    A JavaScript number is a binary64 value and a [Float32Array] stores
    its binary32 rounding.  The layout code never computes with numbers: it
    only stores them, reads them back, and writes the constants 0 and 1.
    The embedding is therefore parametric in the number type. *)

Class Numbers : Type := {
  num : Type;
  zero : num;                (* the literal 0, also the fill of a fresh Float32Array *)
  one : num;                 (* the literal 1 *)
  nan : num;                 (* NaN, what ToNumber gives for a non-number *)
  fround : num -> num;       (* the conversion done by a store into a Float32Array *)
  is_falsy_num : num -> bool (* 0, -0 and NaN are falsy *)
}.

(** The integers that fit a binary32 significand are their own rounding;
    this instance serves the closed examples. *)
Definition fround_int (z : Z) : Z :=
  if (Z.abs z <? 2 ^ 24)%Z then z
  else
    let e := (Z.log2 (Z.abs z) - 23)%Z in
    let q := (z / 2 ^ e)%Z in
    let r := (z mod 2 ^ e)%Z in
    let half := (2 ^ (e - 1))%Z in
    let up := ((half <? r) || ((r =? half) && Z.odd q))%Z in
    ((if up then q + 1 else q) * 2 ^ e)%Z.

(** Whole numbers, with [None] for NaN. *)
Definition IntNumbers : Numbers := {|
  num := option Z;
  zero := Some 0%Z;
  one := Some 1%Z;
  nan := None;
  fround := option_map fround_int;
  is_falsy_num := fun n => match n with Some z => (z =? 0)%Z | None => true end
|}.

(** ** src/struct.js: the layout type registry and the struct descriptor *)

Module Layout.

Section WithNumbers.

Context {N : Numbers}.

(** The values the layout code tells apart: [undefined], [null], numbers
    and plain objects (property lists in insertion order). *)
Inductive value : Type :=
| VUndefined
| VNull
| VNumber (n : num)
| VObject (props : list (string * value)).

Definition props : Type := list (string * value).

(** [name in o] *)
Definition has_prop (name : string) (o : props) : bool :=
  existsb (fun kv => String.eqb (fst kv) name) o.

(** [o[name]] *)
Fixpoint get_prop (name : string) (o : props) : value :=
  match o with
  | [] => VUndefined
  | (k, v) :: r => if String.eqb k name then v else get_prop name r
  end.

(** [o[name] = v]: an existing key keeps its place, a new key goes last. *)
Fixpoint set_prop (name : string) (v : value) (o : props) : props :=
  match o with
  | [] => [(name, v)]
  | (k, w) :: r =>
      if String.eqb k name then (k, v) :: r else (k, w) :: set_prop name v r
  end.

(** ToNumber, applied when a value is stored into a Float32Array. *)
Definition to_number (v : value) : num :=
  match v with
  | VNumber n => n
  | VNull => zero
  | VUndefined | VObject _ => nan
  end.

(** [!v] *)
Definition is_falsy (v : value) : bool :=
  match v with
  | VUndefined | VNull => true
  | VNumber n => is_falsy_num n
  | VObject _ => false
  end.

(** [arr[i]] on a Float32Array *)
Definition ta_get (arr : list num) (i : nat) : value :=
  match nth_error arr i with
  | Some n => VNumber n
  | None => VUndefined
  end.

(** [new Float32Array([v0, v1, ...])] *)
Definition Float32Array_of (vs : list value) : list num :=
  map (fun v => fround (to_number v)) vs.

(** [arr.set(src, offset)], a RangeError when [src] does not fit. *)
Definition ta_set (arr src : list num) (offset : nat) : outcome (list num) :=
  if offset + length src <=? length arr
  then Returns (firstn offset arr ++ src ++ skipn (offset + length src) arr)
  else Throws "offset is out of bounds".

(** [arr.slice(from, to)] *)
Definition ta_slice (arr : list num) (from to : nat) : list num :=
  firstn (to - from) (skipn from arr).

(** *** The five value types *)

Inductive ValueType : Type :=
| type_f32 | type_vec2 | type_vec3 | type_vec4 | type_color.

Definition size (ty : ValueType) : nat :=
  match ty with
  | type_f32 => 4
  | type_vec2 => 8
  | type_vec3 => 12
  | type_vec4 => 16
  | type_color => 16
  end.

(** The property names a type reads and writes, in the order of the
    source. *)
Definition components (ty : ValueType) : list string :=
  match ty with
  | type_f32 => []
  | type_vec2 => ["x"; "y"]
  | type_vec3 => ["x"; "y"; "z"]
  | type_vec4 => ["x"; "y"; "z"; "w"]
  | type_color => ["r"; "g"; "b"; "a"]
  end.

Definition type_name (ty : ValueType) : string :=
  match ty with
  | type_f32 => "type_f32"
  | type_vec2 => "type_vec2"
  | type_vec3 => "type_vec3"
  | type_vec4 => "type_vec4"
  | type_color => "type_color"
  end.

Definition expected (ty : ValueType) : string :=
  match ty with
  | type_f32 => "Expected a number"
  | type_vec2 => "Expected an object with x and y properties"
  | type_vec3 => "Expected an object with x, y, and z properties"
  | type_vec4 => "Expected an object with x, y, z, and w properties"
  | type_color => "Expected an object with r, g, b, and a properties"
  end.

(** [type.toFloat32Array(val)] *)
Definition type_toFloat32Array (ty : ValueType) (val : value) : outcome (list num) :=
  let fail := Throws (type_name ty +:+ ".toFloat32Array: " +:+ expected ty) in
  match ty with
  | type_f32 =>
      match val with
      | VNumber n => Returns (Float32Array_of [val])
      | _ => fail
      end
  | _ =>
      match val with
      | VObject o =>
          if forallb (fun k => has_prop k o) (components ty)
          then Returns (Float32Array_of (map (fun k => get_prop k o) (components ty)))
          else fail
      | _ => fail
      end
  end.

(** [type.fromFloat32Array(arr)] *)
Definition type_fromFloat32Array (ty : ValueType) (arr : list num) : value :=
  match ty with
  | type_f32 => ta_get arr 0
  | _ => VObject (combine (components ty) (map (ta_get arr) (seq 0 (length (components ty)))))
  end.

(** [type.code(name)] *)
Definition type_code (ty : ValueType) (name : string) : string :=
  name +:+ ": " +:+
  match ty with
  | type_f32 => "f32"
  | type_vec2 => "vec2<f32>"
  | type_vec3 => "vec3<f32>"
  | type_vec4 | type_color => "vec4<f32>"
  end.

(** [type.object()] *)
Definition type_object (ty : ValueType) : value :=
  match ty with
  | type_f32 => VNumber zero
  | type_color =>
      VObject [("r", VNumber zero); ("g", VNumber zero); ("b", VNumber zero); ("a", VNumber one)]
  | _ => VObject (map (fun k => (k, VNumber zero)) (components ty))
  end.

(** *** class Struct *)

Record field : Type := { fname : string; ftype : ValueType }.

Record Struct : Type := { name : string; data : list field }.

(** [get byteSize()] *)
Definition byteSize (s : Struct) : nat :=
  fold_left (fun acc cur => acc + size (ftype cur)) (data s) 0.

(** [get floatSize()].  The source divides as a real number; every size of
    the registry is a multiple of four, so the quotient is whole (lemma
    [byteSize_floatSize]). *)
Definition floatSize (s : Struct) : nat := byteSize s / 4.

Definition blank (s : string) : bool := is_empty (trim (t s)).

Definition filler (i : nat) : field :=
  {| fname := "FILLER___" +:+ show_nat i; ftype := type_f32 |}.

(** [new Struct(name, data)].  The fillers are pushed onto the array that
    the caller passed. *)
Definition new_Struct (name : string) (data : list field) : outcome Struct :=
  if blank name then Throws "Struct: Name must be a non-empty string"
  else
    let this := {| name := name; data := data |} in
    if negb (floatSize this mod 4 =? 0) then
      let fillerCount := 4 - floatSize this mod 4 in
      Returns {| name := name; data := data ++ map filler (seq 0 fillerCount) |}
    else Returns this.

(** [struct.add(name, type)] *)
Definition add (s : Struct) (field_name : string) (ty : ValueType) : outcome Struct :=
  if blank field_name then Throws "Struct.add: Field name must be a non-empty string"
  else Returns {| name := name s; data := data s ++ [{| fname := field_name; ftype := ty |}] |}.

(** [get code()] *)
Definition code (s : Struct) : string :=
  let str := fold_left (fun str f => str +:+ type_code (ftype f) (fname f) +:+ "," +:+ String newline "")
                       (data s) ("struct " +:+ name s +:+ " {" +:+ String newline "") in
  String.substring 0 (String.length str - 2) str +:+ String newline "};".

(** [struct.object()] *)
Definition object (s : Struct) : value :=
  VObject (fold_left (fun obj f => set_prop (fname f) (type_object (ftype f)) obj) (data s) []).

(** An argument that is one value or an Array of values. *)
Inductive arg : Type :=
| Single (v : value)
| Many (vs : list value).

(** The inner [this.data.forEach] of [toFloat32Array], for the record
    [val] at index [i]; the state is the array and the running offset. *)
Fixpoint pack_fields (fields : list field) (val : props) (i : nat)
    (arr : list num) (offset : nat) : outcome (list num * nat) :=
  match fields with
  | [] => Returns (arr, offset)
  | f :: rest =>
      match get_prop (fname f) val with
      | VUndefined =>
          Throws ("Struct.toFloat32Array: Missing field " +:+ fname f
                  +:+ " at index " +:+ show_nat i)
      | v =>
          packed <- type_toFloat32Array (ftype f) v ;;
          arr' <- ta_set arr packed offset ;;
          pack_fields rest val i arr' (offset + size (ftype f) / 4)
      end
  end.

(** The outer [vals.forEach((val, i) => ...)]. *)
Fixpoint pack_vals (fields : list field) (vals : list value) (i : nat)
    (arr : list num) (offset : nat) : outcome (list num) :=
  match vals with
  | [] => Returns arr
  | val :: rest =>
      match val with
      | VObject o =>
          st <- pack_fields fields o i arr offset ;;
          pack_vals fields rest (S i) (fst st) (snd st)
      | _ => Throws ("Struct.toFloat32Array: Invalid value at index " +:+ show_nat i)
      end
  end.

(** [struct.toFloat32Array(vals)] *)
Definition toFloat32Array (s : Struct) (vals : arg) : outcome (list num) :=
  match vals with
  | Single v =>
      if is_falsy v then Throws "Struct.toFloat32Array: Input values are required"
      else pack_vals (data s) [v] 0 (repeat zero (floatSize s * 1)) 0
  | Many vs =>
      pack_vals (data s) vs 0 (repeat zero (floatSize s * length vs)) 0
  end.

(** The inner [this.data.forEach] of [fromFloat32Array]. *)
Fixpoint unpack_fields (fields : list field) (arr : list num)
    (val : props) (offset : nat) : outcome (props * nat) :=
  match fields with
  | [] => Returns (val, offset)
  | f :: rest =>
      let n := size (ftype f) / 4 in
      if length arr <? offset + n
      then Throws "Struct.fromFloat32Array: Array too short for struct layout"
      else
        unpack_fields rest arr
          (set_prop (fname f)
             (type_fromFloat32Array (ftype f) (ta_slice arr offset (offset + n))) val)
          (offset + n)
  end.

(** [while (offset < arr.length) { ... }] *)
Fixpoint unpack_loop (fuel : nat) (fields : list field) (arr : list num)
    (offset : nat) (vals : list value) : outcome (list value) :=
  match fuel with
  | O => Diverges
  | S fuel' =>
      if offset <? length arr then
        st <- unpack_fields fields arr [] offset ;;
        unpack_loop fuel' fields arr (snd st) (vals ++ [VObject (fst st)])
      else Returns vals
  end.

(** [struct.fromFloat32Array(arr)].  A round of the loop that reads at
    least one float moves the offset forward, so [length arr] rounds and a
    last test are all the loop can take; a struct without fields never
    moves, and on a non-empty array the source loops for ever. *)
Definition fromFloat32Array (s : Struct) (arr : list num) : outcome (list value) :=
  unpack_loop (S (length arr)) (data s) arr 0 [].

(** *** Vocabulary for the layout properties *)

(** Floats taken by one field, and by a field list. *)
Definition field_floats (f : field) : nat := size (ftype f) / 4.

Definition layout_floats (fields : list field) : nat :=
  list_sum (map field_floats fields).

(** How many fillers the constructor pushes for a field list. *)
Definition fillerCount (fields : list field) : nat :=
  if layout_floats fields mod 4 =? 0 then 0 else 4 - layout_floats fields mod 4.

(** The floats that a type writes for a value it accepts. *)
Definition stored (ty : ValueType) (v : value) : list num :=
  match ty with
  | type_f32 => Float32Array_of [v]
  | _ =>
      match v with
      | VObject o => Float32Array_of (map (fun k => get_prop k o) (components ty))
      | _ => []
      end
  end.

(** The values on which [type.toFloat32Array] does not throw. *)
Definition accepted (ty : ValueType) (v : value) : Prop :=
  match ty with
  | type_f32 => exists n, v = VNumber n
  | _ => exists o, v = VObject o /\ forallb (fun k => has_prop k o) (components ty) = true
  end.

(** A number that a Float32Array holds without rounding. *)
Definition representable (v : value) : Prop :=
  exists n, v = VNumber n /\ fround n = n.

(** A value of the type whose numbers are all representable. *)
Definition float32_valued (ty : ValueType) (v : value) : Prop :=
  match ty with
  | type_f32 => representable v
  | _ => exists o, v = VObject o
                   /\ Forall (fun k => representable (get_prop k o)) (components ty)
  end.

(** [u] carries the value [v] of a field of type [ty]: the same number,
    or an object with exactly the components of the type and the same
    value under each. *)
Definition reproduces (ty : ValueType) (v u : value) : Prop :=
  match ty with
  | type_f32 => u = v
  | _ => exists ov ou, v = VObject ov /\ u = VObject ou
                       /\ map fst ou = components ty
                       /\ Forall (fun k => get_prop k ou = get_prop k ov) (components ty)
  end.

(** The floats of one record, field after field. *)
Definition record_floats (fields : list field) (v : value) : list num :=
  match v with
  | VObject o => concat (map (fun f => stored (ftype f) (get_prop (fname f) o)) fields)
  | _ => []
  end.

(** A record that has an accepted value under every field of the list. *)
Definition record_accepted (fields : list field) (v : value) : Prop :=
  exists o, v = VObject o
            /\ Forall (fun f => accepted (ftype f) (get_prop (fname f) o)) fields.

End WithNumbers.

End Layout.

(** ** src/core.js: the device and the Buffer class *)

Module Core.

Import Layout.

Section WithNumbers.

Context {N : Numbers}.

(** What a bind group entry can hold on the device. *)
Inductive resource : Type :=
| GPUBufferBinding (id : nat)
| GPUTextureView (id : nat)
| GPUSampler.

(** What a command encoder records for one invocation of a pass. *)
Inductive command : Type :=
| Dispatch (code entryPoint : string) (bindGroup : list resource)
    (workgroups : list (option nat))
| Draw (code : string) (bindGroup : list resource) (vertexCount : nat).

(** A device-side buffer: its byte size and its contents. *)
Record GPUBuffer : Type := { gpu_size : nat; gpu_contents : list num }.

(** The device: its buffers and textures by identifier, and the units of
    work submitted to its queue, oldest first. *)
Record Device : Type := {
  gpu_buffers : list GPUBuffer;
  gpu_textures : list (nat * nat * string);
  submitted : list (list command)
}.

Definition not_initialized (who : string) : string :=
  who +:+ ": WebGPU device not initialized. Call initCanvas() first.".

(** A device right after [initCanvas]. *)
Definition fresh_device : Device :=
  {| gpu_buffers := []; gpu_textures := []; submitted := [] |}.

(** The [data] argument of the Buffer methods. *)
Inductive buffer_data : Type :=
| JsArray (vs : list value)
| Float32 (arr : list num)
| NotArrayLike (v : value).

Record Buffer : Type := {
  name : string;
  data : list num;
  size : nat;
  buffer : nat;
  struct : option Struct;
  isArray : bool;
  count : option nat
}.

(** [new Buffer(name, data)] *)
Definition new_Buffer (name : string) (data : buffer_data) (device : option Device)
    : outcome (Buffer * Device) :=
  match device with
  | None => Throws (not_initialized "Buffer")
  | Some d =>
      try_catch
        (arr <- match data with
                | JsArray vs => Returns (Float32Array_of vs)
                | Float32 arr => Returns arr
                | NotArrayLike _ => Throws "Buffer: Data must be an Array or Float32Array"
                end ;;
         let size := 4 * length arr in
         Returns ({| name := name; data := arr; size := size;
                     buffer := length (gpu_buffers d);
                     struct := None; isArray := false; count := None |},
                  {| gpu_buffers := gpu_buffers d ++ [{| gpu_size := size; gpu_contents := arr |}];
                     gpu_textures := gpu_textures d;
                     submitted := submitted d |}))
        (fun message => Throws ("Failed to create Buffer: " +:+ message))
  end.

(** [data] is an Array or a Float32Array, and [arr] is what it holds as a
    Float32Array. *)
Definition array_like (data : buffer_data) (arr : list num) : Prop :=
  match data with
  | JsArray vs => arr = Float32Array_of vs
  | Float32 a => arr = a
  | NotArrayLike _ => False
  end.

(** The handle after [this.data = arr]. *)
Definition with_data (this : Buffer) (arr : list num) : Buffer :=
  {| name := name this; data := arr; size := size this;
     buffer := buffer this; struct := struct this;
     isArray := isArray this; count := count this |}.

Section Update.

(** [device.queue.writeBuffer(buffer, offset, data)] belongs to the
    device; the Buffer class only calls it. *)
Variable queue_writeBuffer : Device -> nat -> nat -> list num -> outcome Device.

(** [buffer.update(data)] *)
Definition update (this : Buffer) (data : buffer_data) (device : option Device)
    : outcome (Buffer * Device) :=
  match data with
  | NotArrayLike _ => Throws "Buffer.update: Data must be an Array or Float32Array"
  | _ =>
      try_catch
        (let arr := match data with
                    | JsArray vs => Float32Array_of vs
                    | Float32 arr => arr
                    | NotArrayLike _ => []
                    end in
         d <- match device with
              | None => Throws "Cannot read properties of null (reading 'queue')"
              | Some d => queue_writeBuffer d (buffer this) 0 arr
              end ;;
         Returns (with_data this arr, d))
        (fun message => Throws ("Failed to update Buffer: " +:+ message))
  end.

End Update.

(** The write of the WebGPU queue: a write that fits replaces the floats
    from the offset on and leaves the rest of the buffer alone; a write
    that does not fit is dropped and reported on the device's error
    channel, the call itself returns. *)
Definition webgpu_writeBuffer (d : Device) (id offset : nat) (arr : list num)
    : outcome Device :=
  match gpu_buffers d !! id with
  | Some b =>
      if 4 * (offset + length arr) <=? gpu_size b then
        Returns {| gpu_buffers :=
                     <[id := {| gpu_size := gpu_size b;
                                gpu_contents := firstn offset (gpu_contents b) ++ arr
                                  ++ skipn (offset + length arr) (gpu_contents b) |}]>
                       (gpu_buffers d);
                   gpu_textures := gpu_textures d;
                   submitted := submitted d |}
      else Returns d
  | None => Returns d
  end.

(** [buffer.getBindingCode(index)] *)
Definition getBindingCode (this : Buffer) (index : nat) : string :=
  let bufferType :=
    match struct this with
    | Some s => Layout.name s
    | None =>
        if size this =? 4 then "f32"
        else if size this =? 8 then "vec2f"
        else if size this =? 12 then "vec3f"
        else if size this =? 16 then "vec4f"
        else "f32"
    end in
  let bufferType := if isArray this then "array<" +:+ bufferType +:+ ">" else bufferType in
  "@group(0) @binding(" +:+ show_nat index +:+ ") var<storage, read_write> "
    +:+ name this +:+ ": " +:+ bufferType +:+ ";".

(** *** class Texture and its binding views *)

Record Texture : Type := {
  tname : string;
  width : nat;
  height : nat;
  format : string;
  view : nat
}.

(** [new Texture(name, width, height, format)] *)
Definition new_Texture (name : string) (width height : nat) (format : string)
    (device : option Device) : outcome (Texture * Device) :=
  match device with
  | None => Throws (not_initialized "Texture")
  | Some d =>
      Returns ({| tname := name; width := width; height := height; format := format;
                  view := length (gpu_textures d) |},
               {| gpu_buffers := gpu_buffers d;
                  gpu_textures := gpu_textures d ++ [(width, height, format)];
                  submitted := submitted d |})
  end.

Inductive access : Type := read | write.

Definition access_name (a : access) : string :=
  match a with read => "read" | write => "write" end.

(** [function TextureBindingHelper(texture, readOrWrite)] *)
Record TextureBindingHelper : Type := { texture : Texture; readOrWrite : access }.

Definition helper_getBindingCode (this : TextureBindingHelper) (bindingIndex : nat) : string :=
  match readOrWrite this with
  | read =>
      if String.eqb (format (texture this)) "rgba8unorm" then
        "@group(0) @binding(" +:+ show_nat bindingIndex +:+ ") var "
          +:+ tname (texture this) +:+ ": texture_2d<f32>;"
      else
        "@group(0) @binding(" +:+ show_nat bindingIndex +:+ ") var "
          +:+ tname (texture this) +:+ ": texture_storage_2d<" +:+ format (texture this)
          +:+ ", read>;"
  | write =>
      "@group(0) @binding(" +:+ show_nat bindingIndex +:+ ") var "
        +:+ tname (texture this) +:+ ": texture_storage_2d<" +:+ format (texture this)
        +:+ ", write>;"
  end.

End WithNumbers.

End Core.

(** ** src/struct.js: Struct.createBuffer *)

Module StructBuffer.

Import Layout Core.

Section WithNumbers.

Context {N : Numbers}.

(** What [createBuffer] hands back: a Buffer, or an Array of Buffers. *)
Inductive created : Type :=
| OneBuffer (b : Buffer)
| BufferArray (bs : list Buffer).

Definition with_struct (b : Buffer) (s : Struct) (isArray : bool) (count : option nat)
    : Buffer :=
  {| Core.name := Core.name b; Core.data := Core.data b; size := size b;
     buffer := buffer b; struct := Some s; isArray := isArray; count := count |}.

(** The loop [for (let i = 0; i < vals.length; i += limit)] that splits
    the records into buffers. *)
Fixpoint chunk_loop (fuel limit : nat) (this : Struct) (name : string)
    (vals : list value) (i : nat) (buffers : list Buffer) (device : option Device)
    : outcome (list Buffer * option Device) :=
  match fuel with
  | O => Diverges
  | S fuel' =>
      if i <? length vals then
        let nextData := firstn limit (skipn i vals) in
        r <- try_catch
               (arr <- toFloat32Array this (Many nextData) ;;
                r <- new_Buffer name (Float32 arr) device ;;
                Returns (with_struct (fst r) this true (Some (length nextData)), snd r))
               (fun message =>
                  Throws ("Struct.createBuffer: Failed to create buffer chunk "
                          +:+ show_nat i +:+ ": " +:+ message)) ;;
        chunk_loop fuel' limit this name vals (i + limit) (buffers ++ [fst r]) (Some (snd r))
      else Returns (buffers, device)
  end.

(** [struct.createBuffer(name, vals)], with the per-buffer ceiling as a
    parameter. *)
Definition createBuffer_upto (limit : nat) (this : Struct) (name : string) (vals : arg)
    (device : option Device) : outcome (created * option Device) :=
  match vals with
  | Single v =>
      if is_falsy v then Throws "Struct.createBuffer: Values are required"
      else
        arr <- toFloat32Array this (Many [v]) ;;
        r <- new_Buffer name (Float32 arr) device ;;
        Returns (OneBuffer (with_struct (fst r) this false None), Some (snd r))
  | Many vs =>
      if length vs <? 1 then Throws "Struct.createBuffer: Empty values array"
      else if length vs <? limit then
        try_catch
          (arr <- toFloat32Array this (Many vs) ;;
           r <- new_Buffer name (Float32 arr) device ;;
           Returns (OneBuffer (with_struct (fst r) this true None), Some (snd r)))
          (fun message =>
             Throws ("Struct.createBuffer: Failed to create buffer: " +:+ message))
      else
        r <- chunk_loop (S (length vs)) limit this name vs 0 [] device ;;
        Returns (BufferArray (fst r), snd r)
  end.

(** The ceiling of the source is 65000 records. *)
Definition createBuffer : Struct -> string -> arg -> option Device
    -> outcome (created * option Device) :=
  createBuffer_upto 65000.

(** The slices [vals.slice(i, i + limit)] that the loop takes. *)
Fixpoint chunks (fuel limit : nat) (vals : list value) (i : nat) : list (list value) :=
  match fuel with
  | O => []
  | S fuel' =>
      if i <? length vals
      then firstn limit (skipn i vals) :: chunks fuel' limit vals (i + limit)
      else []
  end.

(** The buffer [b] was made for the chunk [ch] of records of [s]. *)
Definition holds_chunk (s : Struct) (name : string) (b : Buffer) (ch : list value) : Prop :=
  count b = Some (length ch)
  /\ Core.data b = concat (map (record_floats (Layout.data s)) ch)
  /\ size b = 4 * length (Core.data b)
  /\ isArray b = true
  /\ struct b = Some s
  /\ Core.name b = name.

(** The byte sizes of a list of handles, added up. *)
Definition bytes_of (bs : list Buffer) : nat := list_sum (map size bs).

End WithNumbers.

End StructBuffer.

(** ** The regular expressions of the sources

    The sources test and rewrite shader text with regular expression
    literals.  The literals are transcribed as terms of [regex]; the matcher
    is a backtracking matcher in continuation-passing style that carries
    the character before the cursor, which [\b] needs. *)

Module Regex.

Inductive regex : Type :=
| Chr (c : ascii)                 (* one literal character *)
| Seq (r1 r2 : regex)             (* r1 r2 *)
| Alt (r1 r2 : regex)             (* r1 | r2 *)
| Opt (r : regex)                 (* ( r )? *)
| Star (p : ascii -> bool)        (* a class, starred: \s* *)
| Plus (p : ascii -> bool)        (* a class, one or more: \s+ *)
| WordBoundary                    (* \b *)
| Eps.

(** A literal run of characters. *)
Fixpoint lit (w : text) : regex :=
  match w with
  | [] => Eps
  | c :: r => Seq (Chr c) (lit r)
  end.

Definition is_word_before (prev : option ascii) : bool :=
  match prev with Some c => is_word c | None => false end.

Definition is_word_after (s : text) : bool :=
  match s with c :: _ => is_word c | [] => false end.

(** [\b] holds between a word character and a non-word character or an
    end of the text. *)
Definition at_boundary (prev : option ascii) (s : text) : bool :=
  xorb (is_word_before prev) (is_word_after s).

Definition continuation : Type := option ascii -> text -> bool.

Fixpoint star (p : ascii -> bool) (k : continuation) (prev : option ascii) (s : text) : bool :=
  k prev s
  || match s with
     | c :: r => p c && star p k (Some c) r
     | [] => false
     end.

(** [matches r prev s k]: some match of [r] at the head of [s], with
    [prev] before it, leaves a rest that [k] accepts. *)
Fixpoint matches (r : regex) (prev : option ascii) (s : text) (k : continuation) : bool :=
  match r with
  | Chr c =>
      match s with
      | c' :: rest => Ascii.eqb c c' && k (Some c') rest
      | [] => false
      end
  | Seq r1 r2 => matches r1 prev s (fun prev' s' => matches r2 prev' s' k)
  | Alt r1 r2 => matches r1 prev s k || matches r2 prev s k
  | Opt r1 => matches r1 prev s k || k prev s
  | Star p => star p k prev s
  | Plus p =>
      match s with
      | c :: rest => p c && star p k (Some c) rest
      | [] => false
      end
  | WordBoundary => at_boundary prev s && k prev s
  | Eps => k prev s
  end.

Definition accept : continuation := fun _ _ => true.

(** A match somewhere at or after the cursor. *)
Fixpoint search (r : regex) (prev : option ascii) (s : text) : bool :=
  matches r prev s accept
  || match s with
     | c :: rest => search r (Some c) rest
     | [] => false
     end.

(** [regex.test(s)], also the truth of [s.match(regex)]. *)
Definition test (r : regex) (s : text) : bool := search r None s.

(** [/\bw\b/] *)
Definition whole_word (w : text) : regex :=
  Seq WordBoundary (Seq (lit w) WordBoundary).

(** [/\bw\s*\(/] *)
Definition call_of (w : text) : regex :=
  Seq WordBoundary (Seq (lit w) (Seq (Star is_space) (Chr "("))).

(** [/fn\s+w\s*\(/] *)
Definition definition_of (w : text) : regex :=
  Seq (lit (t "fn")) (Seq (Plus is_space) (Seq (lit w) (Seq (Star is_space) (Chr "(")))).

(** [/\bnoise\s*\(|\bnoise2\s*\(|\bnoise3\s*\(/] *)
Definition noise_call : regex :=
  Alt (call_of (t "noise")) (Alt (call_of (t "noise2")) (call_of (t "noise3"))).

(** *** [s.replace(/\bw\b/g, replacement)]

    The pattern has a fixed length, so the scan either copies one character
    or, where [/\bw\b/] matches at the cursor, writes the replacement and
    skips the word.  [skip] counts the characters of a matched word that
    are still to be passed over. *)
Fixpoint replace_from (w replacement : text) (skip : nat) (prev : option ascii) (s : text)
    : text :=
  match s with
  | [] => []
  | c :: rest =>
      match skip with
      | S k => replace_from w replacement k (Some c) rest
      | O =>
          if matches (whole_word w) prev s accept
          then replacement ++ replace_from w replacement (length w - 1) (Some c) rest
          else c :: replace_from w replacement 0 (Some c) rest
      end
  end.

Definition replace_whole_word (w replacement : text) (s : text) : text :=
  replace_from w replacement 0 None s.

(** *** Vocabulary for the matching properties *)

(** The character before the cursor once [pre] has been read. *)
Fixpoint last_of (prev : option ascii) (pre : text) : option ascii :=
  match pre with
  | [] => prev
  | c :: rest => last_of (Some c) rest
  end.

(** [s] without its prefix [w], when it has it. *)
Fixpoint strip_prefix (w s : text) : option text :=
  match w, s with
  | [], _ => Some s
  | a :: w', b :: s' => if Ascii.eqb a b then strip_prefix w' s' else None
  | _ :: _, [] => None
  end.

(** [w] occurs in [s] with no word character right before or right
    after it. *)
Definition occurs_as_word (w s : text) : Prop :=
  exists pre post,
    s = pre ++ w ++ post
    /\ is_word_before (last_of None pre) = false
    /\ is_word_after post = false.

(** [w] occurs in [s]. *)
Definition occurs (w s : text) : Prop :=
  exists pre post, s = pre ++ w ++ post.

End Regex.

(** ** ComputePass, RenderPass and runPasses *)

Module Passes.

Import Layout Core Regex.

Section WithNumbers.

Context {N : Numbers}.

(** What a binding list holds: a Buffer or a view of a texture. *)
Inductive handle : Type :=
| BufferHandle (b : Buffer)
| ViewHandle (v : TextureBindingHelper).

(** An entry of a binding list: one handle, or an Array of handles. *)
Inductive entry : Type :=
| One (h : handle)
| Chunks (hs : list handle).

(** [h.name] *)
Definition handle_name (h : handle) : string :=
  match h with
  | BufferHandle b => Core.name b
  | ViewHandle v => tname (texture v)
  end.

(** [b.name] for an entry; an Array has no such property. *)
Definition entry_name (e : entry) : option string :=
  match e with
  | One h => Some (handle_name h)
  | Chunks _ => None
  end.

(** [h.count] *)
Definition handle_count (h : handle) : option nat :=
  match h with
  | BufferHandle b => count b
  | ViewHandle _ => None
  end.

(** [h.struct] *)
Definition handle_struct (h : handle) : option Struct :=
  match h with
  | BufferHandle b => struct b
  | ViewHandle _ => None
  end.

(** [h.resource] *)
Definition handle_resource (h : handle) : resource :=
  match h with
  | BufferHandle b => GPUBufferBinding (buffer b)
  | ViewHandle v => GPUTextureView (view (texture v))
  end.

(** [h.getBindingCode(i)] *)
Definition handle_getBindingCode (h : handle) (i : nat) : string :=
  match h with
  | BufferHandle b => getBindingCode b i
  | ViewHandle v => helper_getBindingCode v i
  end.

(** [Array.isArray(b)] *)
Definition is_chunks (e : entry) : bool :=
  match e with Chunks _ => true | One _ => false end.

(** The module-level variables that the passes import: the device and the
    canvas size of canvas.js ([device], [width] and [height], which
    [initCanvas] assigns in this order), the buffers of utilities.js and
    noise.js, the textures of render_passes.js.  Each is [undefined] until
    its creator ran. *)
Record Globals : Type := {
  device : option Device;
  canvas_width : option nat;
  canvas_height : option nat;
  mouseBuffer : option Buffer;
  timeBuffer : option Buffer;
  renderTxtr : option Texture;
  feedbackTxtr : option Texture;
  noiseBuffer : option Buffer
}.

(** The Arrays that callers hold and pass around, by reference. *)
Notation Heap := (list (list entry)).

(** *** The table of auto bindings *)

Inductive well_known : Type := Mouse | Time | RenderTxtr | FeedbackTxtr.

Definition Auto_Bindings : list well_known := [Mouse; Time; RenderTxtr; FeedbackTxtr].

(** [/\bmouse(\.(pos|button))?\b/], [/\btime\b/], [/\brenderTxtr\b/],
    [/\bfeedbackTxtr\b/] *)
Definition auto_regex (w : well_known) : regex :=
  match w with
  | Mouse =>
      Seq WordBoundary
        (Seq (lit (t "mouse"))
           (Seq (Opt (Seq (Chr ".") (Alt (lit (t "pos")) (lit (t "button")))))
              WordBoundary))
  | Time => whole_word (t "time")
  | RenderTxtr => whole_word (t "renderTxtr")
  | FeedbackTxtr => whole_word (t "feedbackTxtr")
  end.

(** [auto.binding.name], when the resource exists. *)
Definition auto_name (g : Globals) (w : well_known) : option string :=
  match w with
  | Mouse => Core.name <$> mouseBuffer g
  | Time => Core.name <$> timeBuffer g
  | RenderTxtr => tname <$> renderTxtr g
  | FeedbackTxtr => tname <$> feedbackTxtr g
  end.

(** [auto.function ? auto.binding[auto.function]() : auto.binding] *)
Definition auto_handle (g : Globals) (w : well_known) : option handle :=
  match w with
  | Mouse => BufferHandle <$> mouseBuffer g
  | Time => BufferHandle <$> timeBuffer g
  | RenderTxtr =>
      (fun tx => ViewHandle {| texture := tx; readOrWrite := write |}) <$> renderTxtr g
  | FeedbackTxtr =>
      (fun tx => ViewHandle {| texture := tx; readOrWrite := read |}) <$> feedbackTxtr g
  end.

(** [bindings.some(b => b.name === name)] *)
Definition named (name : string) (bindings : list entry) : bool :=
  existsb (fun b => bool_decide (entry_name b = Some name)) bindings.

(** One round of [Auto_Bindings.forEach].  A resource that was never
    created is [null] or [undefined]: the source then ends in a TypeError,
    at the read of its name, at the call of its method or, for a pushed
    [null], at the next use of the list. *)
Definition inject_auto (g : Globals) (code : text) (bindings : list entry) (w : well_known)
    : outcome (list entry) :=
  if test (auto_regex w) code then
    match auto_name g w, auto_handle g w with
    | Some name, Some newBinding =>
        if named name bindings
        then Returns bindings
        else Returns (bindings ++ [One newBinding])
    | _, _ => Throws "TypeError: Cannot read properties of null"
    end
  else Returns bindings.

Fixpoint inject_all (g : Globals) (code : text) (bindings : list entry)
    (table : list well_known) : outcome (list entry) :=
  match table with
  | [] => Returns bindings
  | w :: rest =>
      bindings' <- inject_auto g code bindings w ;;
      inject_all g code bindings' rest
  end.

(** The noise buffer goes last, whenever a noise function is called and
    the buffer exists. *)
Definition inject_noise (g : Globals) (code : text) (bindings : list entry) : list entry :=
  if test noise_call code then
    match noiseBuffer g with
    | Some nb => bindings ++ [One (BufferHandle nb)]
    | None => bindings
    end
  else bindings.

(** The binding list once the constructor has pushed what it detects. *)
Definition finalize (g : Globals) (code : text) (bindings : list entry)
    : outcome (list entry) :=
  bindings' <- inject_all g code bindings Auto_Bindings ;;
  Returns (inject_noise g code bindings').

(** *** class ComputePass *)

(** The [dispatchSize] argument: a number (or [undefined]), or an Array
    of such. *)
Inductive dispatch_arg : Type :=
| Scalar (n : option nat)
| Vector (ns : list (option nat)).

(** A constructed pass.  [bindGroup] lists, slot after slot, the handle
    whose [resource] is bound there. *)
Record ComputePass : Type := {
  code : text;
  entryPoint : string;
  bindGroup : list handle;
  dispatchSize : list (option nat)
}.

(** What [new ComputePass(...)] evaluates to: the pass, or the Array that
    the constructor returns in its place. *)
Inductive constructed : Type :=
| OnePass (p : ComputePass)
| PassArray (ps : list constructed).

(** [bindings.find(b => Array.isArray(b))] with its index. *)
Fixpoint find_chunks (bindings : list entry) (i : nat) : option (nat * list handle) :=
  match bindings with
  | [] => None
  | Chunks hs :: _ => Some (i, hs)
  | One _ :: rest => find_chunks rest (S i)
  end.

(** The handles of a list without Array entries. *)
Fixpoint handles (bindings : list entry) : list handle :=
  match bindings with
  | [] => []
  | One h :: rest => h :: handles rest
  | Chunks _ :: rest => handles rest
  end.

(** [bindings.forEach((binding, i) => bindingsCode += binding.getBindingCode(i) + '\n')] *)
Fixpoint bindingsCode (hs : list handle) (i : nat) : string :=
  match hs with
  | [] => ""
  | h :: rest => handle_getBindingCode h i +:+ String newline "" +:+ bindingsCode rest (S i)
  end.

(** [bindings.forEach(binding => if (binding.struct) code = binding.struct.code + '\n' + code)] *)
Fixpoint prepend_structs (hs : list handle) (code : text) : text :=
  match hs with
  | [] => code
  | h :: rest =>
      prepend_structs rest
        match handle_struct h with
        | Some s => t (Layout.code s +:+ String newline "") ++ code
        | None => code
        end
  end.

(** The tail of the constructor, for a list without Array entries. *)
Definition build_pass (g : Globals) (code : text) (bindings : list entry)
    (dispatchSize : dispatch_arg) (entryPoint : string) : outcome ComputePass :=
  let hs := handles bindings in
  let code := prepend_structs hs (t (bindingsCode hs 0) ++ code) in
  match device g with
  | None => Throws "TypeError: Cannot read properties of undefined (reading 'createShaderModule')"
  | Some _ =>
      Returns {| code := code; entryPoint := entryPoint; bindGroup := hs;
                 dispatchSize := match dispatchSize with
                                 | Scalar n => [n]
                                 | Vector ns => ns
                                 end |}
  end.

(** [multipleBuffer.map((buffer, i) => { ... })]: for every chunk a copy
    of the caller's list with the chunk in the place of the Array, and a
    pass constructed on the copy by [construct]. *)
Fixpoint fan_out (construct : nat -> dispatch_arg -> Heap -> outcome (constructed * Heap))
    (bindings multipleBufferIndex : nat) (multipleBuffer : list handle) (heap : Heap)
    : outcome (list constructed * Heap) :=
  match multipleBuffer with
  | [] => Returns ([], heap)
  | buffer :: rest =>
      match heap !! bindings with
      | None => Throws "TypeError: bindings is not an Array"
      | Some current =>
          let newBindings := <[multipleBufferIndex := One buffer]> current in
          r <- construct (length heap) (Scalar (handle_count buffer)) (heap ++ [newBindings]) ;;
          rs <- fan_out construct bindings multipleBufferIndex rest (snd r) ;;
          Returns (fst r :: fst rs, snd rs)
      end
  end.

(** [new ComputePass(code, bindings, dispatchSize, entryPoint)], where
    [bindings] is the address of the caller's Array.  The constructor calls
    itself once per chunk; [fuel] bounds the depth of these calls. *)
Fixpoint new_ComputePass_fuel (fuel : nat) (g : Globals) (code : text) (bindings : nat)
    (dispatchSize : dispatch_arg) (entryPoint : string) (heap : Heap)
    : outcome (constructed * Heap) :=
  match fuel with
  | O => Diverges
  | S fuel' =>
      match heap !! bindings with
      | None => Throws "TypeError: bindings is not an Array"
      | Some explicit =>
          final <- finalize g code explicit ;;
          let heap := <[bindings := final]> heap in
          match find_chunks final 0 with
          | Some (multipleBufferIndex, multipleBuffer) =>
              r <- fan_out
                     (fun newBindings dispatchSize heap =>
                        new_ComputePass_fuel fuel' g code newBindings dispatchSize
                          entryPoint heap)
                     bindings multipleBufferIndex multipleBuffer heap ;;
              Returns (PassArray (fst r), snd r)
          | None =>
              p <- build_pass g code final dispatchSize entryPoint ;;
              Returns (OnePass p, heap)
          end
      end
  end.

(** How many entries of a list are Arrays. *)
Definition chunk_entries (bindings : list entry) : nat :=
  length (List.filter is_chunks bindings).

(** Every nested call replaces one Array entry by a handle, so one call
    per Array entry of the caller's list and one more are all there can
    be. *)
Definition new_ComputePass (g : Globals) (code : text) (bindings : nat)
    (dispatchSize : dispatch_arg) (entryPoint : string) (heap : Heap)
    : outcome (constructed * Heap) :=
  let depth := match heap !! bindings with
               | Some explicit => chunk_entries explicit
               | None => 0
               end in
  new_ComputePass_fuel (S depth) g code bindings dispatchSize entryPoint heap.

(** [ComputePass.texture(code, bindings)] *)
Definition ComputePass_texture (g : Globals) (code : text) (bindings : nat) (heap : Heap)
    : outcome (constructed * Heap) :=
  new_ComputePass g code bindings (Vector [canvas_width g; canvas_height g]) "main" heap.

(** [ComputePass.compute(code, bindings, arr)] *)
Definition ComputePass_compute {A : Type} (g : Globals) (code : text) (bindings : nat)
    (arr : list A) (heap : Heap) : outcome (constructed * Heap) :=
  new_ComputePass g code bindings (Vector [Some (length arr)]) "main" heap.

(** [computePass.run(encoder)]: what the encoder records. *)
Definition ComputePass_run (this : ComputePass) (encoder : list command) : list command :=
  encoder ++ [Dispatch (string_of_list_ascii (code this)) (entryPoint this)
                (map handle_resource (bindGroup this)) (dispatchSize this)].

(** *** class RenderPass *)

Record RenderPass : Type := {
  render_code : text;
  render_bindGroup : list resource
}.

(** [new RenderPass(texture, code)] *)
Definition new_RenderPass (g : Globals) (texture : Texture) (code : text)
    : outcome RenderPass :=
  match device g with
  | None => Throws (not_initialized "RenderPass")
  | Some _ =>
      if is_empty (trim code) then Throws "RenderPass: Shader code must be a non-empty string"
      else Returns {| render_code := code;
                      render_bindGroup := [GPUSampler; GPUTextureView (view texture)] |}
  end.

(** [renderPass.run(encoder)] *)
Definition RenderPass_run (this : RenderPass) (encoder : list command) : list command :=
  encoder ++ [Draw (string_of_list_ascii (render_code this)) (render_bindGroup this) 6].

(** *** runPasses *)

(** An element of a pass list: a pass, or something without a [run]
    method. *)
Inductive pass_object : Type :=
| Compute (p : ComputePass)
| Render (p : RenderPass)
| NotAPass.

Inductive pass_entry : Type :=
| Pass (p : pass_object)
| Passes (ps : list pass_object).

(** The [passes] argument: an Array, or anything else. *)
Inductive passes_arg : Type :=
| PassList (l : list pass_entry)
| Lone (p : pass_object).

(** [p.run(commandEncoder)] behind its guard. *)
Definition run_object (invalid : string) (p : pass_object) (encoder : list command)
    : outcome (list command) :=
  match p with
  | Compute c => Returns (ComputePass_run c encoder)
  | Render r => Returns (RenderPass_run r encoder)
  | NotAPass => Throws invalid
  end.

(** [pass.forEach(p => ...)] *)
Fixpoint run_group (ps : list pass_object) (encoder : list command)
    : outcome (list command) :=
  match ps with
  | [] => Returns encoder
  | p :: rest =>
      encoder' <- run_object "Invalid pass object in array" p encoder ;;
      run_group rest encoder'
  end.

(** [for (const pass of passes) { ... }] *)
Fixpoint run_entries (passes : list pass_entry) (encoder : list command)
    : outcome (list command) :=
  match passes with
  | [] => Returns encoder
  | Passes ps :: rest =>
      encoder' <- run_group ps encoder ;;
      run_entries rest encoder'
  | Pass p :: rest =>
      encoder' <- run_object "Invalid pass object" p encoder ;;
      run_entries rest encoder'
  end.

(** [for (let i = 0; i < repeats; i++) { ... }] *)
Fixpoint run_repeats (repeats : nat) (passes : list pass_entry) (encoder : list command)
    : outcome (list command) :=
  match repeats with
  | O => Returns encoder
  | S n =>
      encoder' <- run_entries passes encoder ;;
      run_repeats n passes encoder'
  end.

(** [runPasses(passes, repeats)]; the result is the device afterwards. *)
Definition runPasses (device : option Device) (passes : passes_arg) (repeats : nat)
    : outcome Device :=
  match device with
  | None => Throws (not_initialized "runPasses")
  | Some d =>
      let passes := match passes with
                    | PassList l => l
                    | Lone p => [Pass p]
                    end in
      try_catch
        (commandEncoder <- run_repeats repeats passes [] ;;
         Returns {| gpu_buffers := gpu_buffers d;
                    gpu_textures := gpu_textures d;
                    submitted := submitted d ++ [commandEncoder] |})
        (fun message => Throws ("Failed to run passes: " +:+ message))
  end.

(** *** Vocabulary for the pass properties *)


(** The invocations of a pass list, nested Arrays flattened. *)
Definition flatten (passes : list pass_entry) : list pass_object :=
  concat (map (fun e => match e with Pass p => [p] | Passes ps => ps end) passes).

(** The invocation that an encoder is to hold for an element of a pass
    list.  For a compute pass it is one dispatch of the pipeline of its
    shader text and entry point, with the resources of its bind group and
    with its dispatch size as the workgroup counts; for a render pass one
    draw of six vertices with its bind group. *)
Definition recorded (p : pass_object) : list command :=
  match p with
  | Compute c =>
      [Dispatch (string_of_list_ascii (code c)) (entryPoint c)
         (map handle_resource (bindGroup c)) (dispatchSize c)]
  | Render r => [Draw (string_of_list_ascii (render_code r)) (render_bindGroup r) 6]
  | NotAPass => []
  end.

Definition is_pass (p : pass_object) : Prop :=
  match p with NotAPass => False | _ => True end.

(** The identifier that the pattern of a well-known resource is built on. *)
Definition identifier (w : well_known) : text :=
  match w with
  | Mouse => t "mouse"
  | Time => t "time"
  | RenderTxtr => t "renderTxtr"
  | FeedbackTxtr => t "feedbackTxtr"
  end.

(** The passes of a construction, in order. *)
Fixpoint passes_of (r : constructed) : list ComputePass :=
  match r with
  | OnePass p => [p]
  | PassArray rs => concat (map passes_of rs)
  end.

(** All the well-known resources exist. *)
Definition initialized (g : Globals) : Prop :=
  is_Some (device g) /\ is_Some (mouseBuffer g) /\ is_Some (timeBuffer g)
  /\ is_Some (renderTxtr g) /\ is_Some (feedbackTxtr g).

(** Everything the constructor can push, in the order in which it would. *)
Definition candidates (g : Globals) : list entry :=
  omap (fun w => One <$> auto_handle g w) Auto_Bindings
  ++ match noiseBuffer g with
     | Some nb => [One (BufferHandle nb)]
     | None => []
     end.

End WithNumbers.

End Passes.

(** ** src/wgsl.js: the shader source scanner

    An instance of [WGSLParser] holds the text and a cursor.  The
    embedding passes the text from the cursor on: [peek()] is the head of
    that rest, [advance()] its tail, [this.position < this.code.length]
    says that it is not empty.  A method that puts the cursor back to its
    start returns [None].  [advance()] moves the cursor even at the end of
    the text; the only calls that do so are in [findMatchingBrace], on
    paths that end in [-1], and the empty rest stands for every cursor at
    or beyond the end. *)

Module Scanner.

Import Regex.

Definition slash : ascii := "/"%char.
Definition asterisk : ascii := "*"%char.
Definition quote : ascii := ascii_of_nat 34.
Definition backslash : ascii := "\"%char.
Definition open_brace : ascii := "{"%char.
Definition close_brace : ascii := "}"%char.
Definition open_paren : ascii := "("%char.
Definition close_paren : ascii := ")"%char.
Definition open_angle : ascii := "<"%char.
Definition close_angle : ascii := ">"%char.
Definition hyphen : ascii := "-"%char.

(** [skipWhitespace()] *)
Fixpoint skipWhitespace (s : text) : text :=
  match s with
  | c :: r => if is_space c then skipWhitespace r else s
  | [] => []
  end.

(** [while (this.position < this.code.length && this.peek() !== '\n') this.advance()] *)
Fixpoint to_line_end (s : text) : text :=
  match s with
  | c :: r => if Ascii.eqb c newline then s else to_line_end r
  | [] => []
  end.

(** The loop of a block comment: it runs while two characters are left,
    and leaves the last character of an unclosed comment unread. *)
Fixpoint to_comment_end (s : text) : text :=
  match s with
  | c1 :: ((c2 :: r) as s') =>
      if Ascii.eqb c1 asterisk && Ascii.eqb c2 slash then r else to_comment_end s'
  | _ => s
  end.

(** [skipComment()]: whether a comment started at the cursor, and the
    rest after it. *)
Definition skipComment (s : text) : bool * text :=
  match s with
  | c1 :: c2 :: r =>
      if Ascii.eqb c1 slash && Ascii.eqb c2 slash then (true, to_line_end s)
      else if Ascii.eqb c1 slash && Ascii.eqb c2 asterisk then (true, to_comment_end r)
      else (false, s)
  | _ => (false, s)
  end.

(** [skipWhitespaceAndComments()]: rounds of [skipWhitespace] and
    [skipComment] until a round leaves the cursor where it was. *)
Fixpoint skipWhitespaceAndComments_fuel (fuel : nat) (s : text) : outcome text :=
  match fuel with
  | O => Diverges
  | S fuel' =>
      let s' := snd (skipComment (skipWhitespace s)) in
      if length s' <? length s then skipWhitespaceAndComments_fuel fuel' s'
      else Returns s'
  end.

Definition skipWhitespaceAndComments (s : text) : outcome text :=
  skipWhitespaceAndComments_fuel (S (length s)) s.

(** [readIdentifier()]: the identifier and the rest. *)
Fixpoint readIdentifier (s : text) : text * text :=
  match s with
  | c :: r =>
      if is_word c then let (result, rest) := readIdentifier r in (c :: result, rest)
      else ([], s)
  | [] => ([], [])
  end.

(** [matchKeyword(keyword)]: the rest after the keyword, or [None] with
    the cursor back at its start. *)
Definition matchKeyword (keyword : text) (s : text) : outcome (option text) :=
  s1 <- skipWhitespaceAndComments s ;;
  Returns match strip_prefix keyword s1 with
          | Some rest => if is_word_after rest then None else Some rest
          | None => None
          end.

(** The loop that skips a string literal, from behind its opening quote
    up to its closing quote. *)
Fixpoint to_closing_quote (s : text) : text :=
  match s with
  | [] => []
  | c :: r =>
      if Ascii.eqb c quote then s
      else if Ascii.eqb c backslash then
        match r with
        | [] => []
        | _ :: r' => to_closing_quote r'
        end
      else to_closing_quote r
  end.

(** The loop of [findMatchingBrace]: the brace count and the rest when
    the loop ends. *)
Fixpoint brace_loop (fuel : nat) (braceCount : nat) (s : text) : outcome (nat * text) :=
  match fuel with
  | O => Diverges
  | S fuel' =>
      match s, braceCount with
      | _ :: _, S count =>
          s1 <- skipWhitespaceAndComments s ;;
          match s1 with
          | [] => brace_loop fuel' braceCount []
          | c :: r =>
              if Ascii.eqb c open_brace then brace_loop fuel' (S braceCount) r
              else if Ascii.eqb c close_brace then brace_loop fuel' count r
              else if Ascii.eqb c quote then
                let s2 := to_closing_quote r in
                brace_loop fuel' braceCount
                  match s2 with
                  | c' :: r' => if Ascii.eqb c' quote then r' else s2
                  | [] => []
                  end
              else brace_loop fuel' braceCount r
          end
      | _, _ => Returns (braceCount, s)
      end
  end.

(** [findMatchingBrace()]: the rest behind the closing brace, or [None]
    for [-1]. *)
Definition findMatchingBrace (s : text) : outcome (option text) :=
  match s with
  | c :: r =>
      if Ascii.eqb c open_brace then
        st <- brace_loop (S (length r)) 1 r ;;
        Returns (if fst st =? 0 then Some (snd st) else None)
      else Returns None
  | [] => Returns None
  end.

(** The loops that run to the end of a group with a counter, from behind
    its opening character. *)
Fixpoint to_group_end (opening closing : ascii) (count : nat) (s : text) : text :=
  match s, count with
  | c :: r, S k =>
      if Ascii.eqb c opening then to_group_end opening closing (S count) r
      else if Ascii.eqb c closing then to_group_end opening closing k r
      else to_group_end opening closing count r
  | _, _ => s
  end.

(** The loop that skips a return type. *)
Fixpoint to_return_type_end (fuel : nat) (s : text) : outcome text :=
  match fuel with
  | O => Diverges
  | S fuel' =>
      match s with
      | c :: r =>
          if Ascii.eqb c open_brace || is_space c then Returns s
          else if Ascii.eqb c open_angle
          then to_return_type_end fuel' (to_group_end open_angle close_angle 1 r)
          else to_return_type_end fuel' r
      | [] => Returns []
      end
  end.

(** [this.code.slice(start, end)], for the rests at the two cursors. *)
Definition slice (start finish : text) : text :=
  firstn (length start - length finish) start.

(** [parseFunction()]: the text of the function and the rest behind it,
    or [None] for [null]. *)
Definition parseFunction (start : text) : outcome (option (text * text)) :=
  m <- matchKeyword (t "fn") start ;;
  match m with
  | None => Returns None
  | Some s1 =>
      s2 <- skipWhitespaceAndComments s1 ;;
      let (name, s3) := readIdentifier s2 in
      if is_empty name then Returns None
      else
        s4 <- skipWhitespaceAndComments s3 ;;
        match s4 with
        | c :: r =>
            if negb (Ascii.eqb c open_paren) then Returns None
            else
              let s5 := to_group_end open_paren close_paren 1 r in
              s6 <- skipWhitespaceAndComments s5 ;;
              s7 <- match s6 with
                    | c1 :: c2 :: r' =>
                        if Ascii.eqb c1 hyphen && Ascii.eqb c2 close_angle then
                          s' <- skipWhitespaceAndComments r' ;;
                          to_return_type_end (S (length s')) s'
                        else Returns s6
                    | _ => Returns s6
                    end ;;
              s8 <- skipWhitespaceAndComments s7 ;;
              bodyEnd <- findMatchingBrace s8 ;;
              match bodyEnd with
              | None => Returns None
              | Some rest => Returns (Some (trim (slice start rest), rest))
              end
        | [] => Returns None
        end
  end.

(** The line from the cursor up to and with the next line feed. *)
Fixpoint read_line (s : text) : text * text :=
  match s with
  | [] => ([], [])
  | c :: r =>
      if Ascii.eqb c newline then ([c], r)
      else let (line, rest) := read_line r in (c :: line, rest)
  end.

(** What [parse] and the fallback return. *)
Record parsed : Type := { functions : list text; body : text }.

(** The loop of [parse()]. *)
Fixpoint parse_loop (fuel : nat) (s : text) (functions body : list text)
    : outcome (list text * list text) :=
  match fuel with
  | O => Diverges
  | S fuel' =>
      match s with
      | [] => Returns (functions, body)
      | _ :: _ =>
          s1 <- skipWhitespaceAndComments s ;;
          match s1 with
          | [] => Returns (functions, body)
          | _ :: _ =>
              fnCode <- parseFunction s1 ;;
              let loose (from : text) :=
                let (line, rest) := read_line from in
                let line := trim line in
                parse_loop fuel' rest functions
                  (if is_empty line then body else body ++ [line]) in
              match fnCode with
              | Some (fnCode, rest) =>
                  if is_empty fnCode then loose rest
                  else parse_loop fuel' rest (functions ++ [fnCode]) body
              | None => loose s1
              end
          end
      end
  end.

(** [new WGSLParser(code).parse()] *)
Definition WGSLParser_parse (code : text) : outcome parsed :=
  r <- parse_loop (S (length code)) code [] [] ;;
  Returns {| functions := fst r; body := join [newline] (snd r) |}.

(** The loop of the fallback in the [catch] block.  The state is
    [inFunction], [braceCount] and [currentFunction]. *)
Fixpoint fallback_loop (lines : list text) (inFunction : bool) (braceCount : Z)
    (currentFunction functions body : list text) : list text * list text :=
  match lines with
  | [] => (functions, body)
  | line :: rest =>
      let balance := (Z.of_nat (count_char open_brace line)
                      - Z.of_nat (count_char close_brace line))%Z in
      if starts_with (t "fn ") line then
        fallback_loop rest true balance [line] functions body
      else if inFunction then
        let currentFunction := currentFunction ++ [line] in
        let braceCount := (braceCount + balance)%Z in
        if (braceCount =? 0)%Z
        then fallback_loop rest false braceCount []
               (functions ++ [join [newline] currentFunction]) body
        else fallback_loop rest true braceCount currentFunction functions body
      else fallback_loop rest false braceCount currentFunction functions (body ++ [line])
  end.

(** The line-based split of the [catch] block. *)
Definition fallback_split (code : text) : parsed :=
  let lines := List.filter (fun line => negb (is_empty line)) (map trim (split_lines code)) in
  let r := fallback_loop lines false 0 [] [] [] in
  {| functions := fst r; body := join [newline] (snd r) |}.

(** [extractFunctionsAndBody(code)] *)
Definition extractFunctionsAndBody (code : text) : outcome parsed :=
  try_catch (WGSLParser_parse code) (fun _ => Returns (fallback_split code)).

(** A text without any closing brace. *)
Definition open_ended (s : text) : Prop := ~ In close_brace s.

(** A line as the scan keeps it for the body: not empty, without white
    space at either end and without a line feed. *)
Definition loose_line (l : text) : Prop :=
  l <> [] /\ trim l = l /\ ~ In newline l.

(** A function as the scan keeps it: a piece of the text, taken as it
    stands, from the keyword to a closing brace. *)
Definition function_text (code f : text) : Prop :=
  (exists inner, f = t "fn" ++ inner ++ [close_brace])
  /\ exists before after, code = before ++ f ++ after.

(** A text with more opening than closing braces. *)
Definition unterminated_brace (code : text) : Prop :=
  count_char close_brace code < count_char open_brace code.

End Scanner.

(** ** src/wgsl.js: the [wgsl] template tag *)

Module Assembler.

Import Layout Core Regex Scanner Passes.

Section WithNumbers.

Context {N : Numbers}.

(** The shader texts [wgslNoise] and [wgslNoise2] of noise.js are
    constants that the assembler inserts as they are, and the noise offsets
    are three random numbers. *)
Variable wgslNoise wgslNoise2 : text.
Variable random_offsets : list value.

(** [String.raw({ raw: strings }, ...values)], the values already as
    text. *)
Fixpoint String_raw (strings values : list text) : text :=
  match strings with
  | [] => []
  | [s] => s
  | s :: rest =>
      match values with
      | v :: vs => s ++ v ++ String_raw rest vs
      | [] => s ++ String_raw rest []
      end
  end.

(** [n.toFixed(2)] for a whole number. *)
Definition toFixed2 (n : nat) : text := t (show_nat n) ++ t ".00".

(** [x.toFixed(2)] for a module variable [x] of canvas.js: a TypeError
    while [x] is [undefined], that is until [initCanvas] has assigned it. *)
Definition toFixed (x : option nat) : outcome text :=
  match x with
  | Some n => Returns (toFixed2 n)
  | None => Throws "TypeError: Cannot read properties of undefined (reading 'toFixed')"
  end.

(** The two [code.replace] calls for [width] and [height]. *)
Definition substitute (g : Globals) (code : text) : outcome text :=
  w <- toFixed (canvas_width g) ;;
  let code := replace_whole_word (t "width") w code in
  h <- toFixed (canvas_height g) ;;
  Returns (replace_whole_word (t "height") h code).

Definition with_noiseBuffer (g : Globals) (b : Buffer) (d : Device) : Globals :=
  {| device := Some d; canvas_width := canvas_width g; canvas_height := canvas_height g;
     mouseBuffer := mouseBuffer g; timeBuffer := timeBuffer g;
     renderTxtr := renderTxtr g; feedbackTxtr := feedbackTxtr g;
     noiseBuffer := Some b |}.

(** [getNoiseCode()] of noise.js: the noise buffer is created on the
    first call. *)
Definition getNoiseCode (g : Globals) : outcome (text * Globals) :=
  g' <- match noiseBuffer g with
        | Some _ => Returns g
        | None =>
            r <- new_Buffer "noiseOffset" (JsArray random_offsets) (device g) ;;
            Returns (with_noiseBuffer g (fst r) (snd r))
        end ;;
  Returns (newline :: t "    " ++ wgslNoise ++ newline :: t "    " ++ wgslNoise2
           ++ newline :: t "    ", g').

(** The test that guards the injection of the noise functions. *)
Definition wants_noise (code : text) : bool :=
  test noise_call code
  && negb (test (definition_of (t "noise")) code)
  && negb (test (definition_of (t "noise2")) code)
  && negb (test (definition_of (t "noise3")) code).

(** The noise step of [wgsl]. *)
Definition with_noise_library (g : Globals) (code : text) : outcome (text * Globals) :=
  if wants_noise code then
    r <- getNoiseCode g ;;
    Returns (fst r ++ [newline; newline] ++ code, snd r)
  else Returns (code, g).

(** The synthesized entry point around the functions and the body that
    the scanner found. *)
Definition wrap (p : parsed) : text :=
  let result :=
    match functions p with
    | [] => []
    | _ => join [newline; newline] (functions p) ++ [newline; newline]
    end in
  let result := result ++ t "@compute @workgroup_size(1)" ++ [newline] in
  let result := result ++ t "fn main(@builtin(global_invocation_id) id: vec3<u32>) {"
                  ++ [newline] in
  let result :=
    if is_empty (body p) then result
    else
      result
      ++ join [newline]
           (map (fun line => if is_empty (trim line) then line else t "  " ++ line)
                (split_lines (body p)))
      ++ [newline] in
  result ++ t "}".

(** [wgsl(strings, ...values)] *)
Definition wgsl (g : Globals) (strings values : list text) : outcome (text * Globals) :=
  let code := String_raw strings values in
  code <- substitute g code ;;
  r <- with_noise_library g code ;;
  let code := trim (fst r) in
  if test (definition_of (t "main")) code then Returns (code, snd r)
  else
    p <- extractFunctionsAndBody code ;;
    Returns (wrap p, snd r).

End WithNumbers.

End Assembler.

(** ** src/wgsl.js: the builder behind [wgsl.compute()] *)

Module Builder.

Import Regex Scanner Assembler.

(** [class WGSLBuilder]: three lists of shader text. *)
Record WGSLBuilder : Type := {
  functions : list text;
  bindings : list text;
  structs : list text
}.

(** [wgsl.compute()], that is [new WGSLBuilder()] *)
Definition compute : WGSLBuilder := {| functions := []; bindings := []; structs := [] |}.

(** [builder.fn(name, params, returnType, body)], the arguments as the
    template literal prints them. *)
Definition fn (this : WGSLBuilder) (name params returnType body : text) : WGSLBuilder :=
  {| functions := functions this
       ++ [t "fn " ++ name ++ t "(" ++ params ++ t ") -> " ++ returnType ++ t " {"
           ++ [newline] ++ body ++ [newline] ++ t "}"];
     bindings := bindings this;
     structs := structs this |}.

(** [builder.binding(group, binding, type, name)] *)
Definition binding (this : WGSLBuilder) (group index type name : text) : WGSLBuilder :=
  {| functions := functions this;
     bindings := bindings this
       ++ [t "@group(" ++ group ++ t ") @binding(" ++ index ++ t ") var " ++ name
           ++ t ": " ++ type ++ t ";"];
     structs := structs this |}.

(** [builder.struct(name, body)] *)
Definition struct (this : WGSLBuilder) (name body : text) : WGSLBuilder :=
  {| functions := functions this;
     bindings := bindings this;
     structs := structs this
       ++ [t "struct " ++ name ++ t " {" ++ [newline] ++ body ++ [newline] ++ t "}"] |}.

(** [if (parts.length > 0) code += parts.join(sep) + '\n\n'] *)
Definition section (sep : text) (parts : list text) : text :=
  match parts with
  | [] => []
  | _ => join sep parts ++ [newline; newline]
  end.

(** The text that the tag of [builder.main] puts together: the
    bindings, the structs, the functions and the template. *)
Definition assemble (this : WGSLBuilder) (strings values : list text) : text :=
  section [newline] (bindings this)
  ++ section [newline; newline] (structs this)
  ++ section [newline; newline] (functions this)
  ++ String_raw strings values.

(** [builder.main(strings, ...values)] *)
Definition main (this : WGSLBuilder) (strings values : list text) : outcome text :=
  let code := assemble this strings values in
  if test (definition_of (t "main")) code then Returns code
  else
    p <- extractFunctionsAndBody code ;;
    Returns (wrap p).

End Builder.

(** ** Sample inputs for the closed examples *)

Module Samples.

Import Layout Core StructBuffer.

#[local] Existing Instance IntNumbers.

Definition point_fields : list field := [{| fname := "x"; ftype := type_f32 |}].

(** What [new Struct('P', [{name: 'x', type: type_f32}])] returns. *)
Definition point_struct : Struct :=
  {| Layout.name := "P";
     Layout.data := [{| fname := "x"; ftype := type_f32 |}; filler 0; filler 1; filler 2] |}.

(** The record [{x: 1, FILLER___0: 0, FILLER___1: 0, FILLER___2: 0}]. *)
Definition point_with_fillers : props :=
  [("x", VNumber (Some 1%Z)); ("FILLER___0", VNumber (Some 0%Z));
   ("FILLER___1", VNumber (Some 0%Z)); ("FILLER___2", VNumber (Some 0%Z))].

(** The record [{x: 1}]. *)
Definition point_declared_only : props := [("x", VNumber (Some 1%Z))].

(** The struct of [createMouseBuffer]: a vec2, an f32 and one filler. *)
Definition mouseStruct : Struct :=
  {| Layout.name := "mouseStruct";
     Layout.data := [{| fname := "pos"; ftype := type_vec2 |};
                     {| fname := "button"; ftype := type_f32 |}; filler 0] |}.

(** The handle that [mouseStruct.createBuffer('mouse', mouseStruct.object())]
    returns on a fresh device. *)
Definition the_mouseBuffer : Buffer :=
  {| Core.name := "mouse";
     Core.data := [Some 0%Z; Some 0%Z; Some 0%Z; Some 0%Z];
     size := 16; buffer := 0; struct := Some mouseStruct;
     isArray := false; count := None |}.

(** Its device buffer: 16 bytes, four zeros. *)
Definition mouse_gpu_buffer : GPUBuffer :=
  {| gpu_size := 16; gpu_contents := [Some 0%Z; Some 0%Z; Some 0%Z; Some 0%Z] |}.

(** The device once the mouse buffer exists. *)
Definition device_with_mouse : Device :=
  {| gpu_buffers := [mouse_gpu_buffer]; gpu_textures := []; submitted := [] |}.

(** The three floats that the mouse handler writes. *)
Definition mouse_event_floats : list num := [Some 10%Z; Some 20%Z; Some 1%Z].

Definition mouse_event_data : buffer_data := Float32 mouse_event_floats.

(** *** A session with every well-known resource *)

Import Passes.

Definition the_timeBuffer : Buffer :=
  {| Core.name := "time"; Core.data := [Some 0%Z]; size := 4; buffer := 1;
     struct := None; isArray := false; count := None |}.

Definition the_noiseBuffer : Buffer :=
  {| Core.name := "noiseOffset"; Core.data := [Some 1%Z; Some 2%Z; Some 3%Z];
     size := 12; buffer := 2; struct := None; isArray := false; count := None |}.

Definition the_renderTxtr : Texture :=
  {| tname := "renderTxtr"; width := 512; height := 512; format := "rgba8unorm"; view := 0 |}.

Definition the_feedbackTxtr : Texture :=
  {| tname := "feedbackTxtr"; width := 512; height := 512; format := "rgba8unorm"; view := 1 |}.

Definition session_device : Device :=
  {| gpu_buffers := [mouse_gpu_buffer;
                     {| gpu_size := 4; gpu_contents := [Some 0%Z] |};
                     {| gpu_size := 12; gpu_contents := [Some 1%Z; Some 2%Z; Some 3%Z] |}];
     gpu_textures := [(512, 512, "rgba8unorm"); (512, 512, "rgba8unorm")];
     submitted := [] |}.

(** After [init({mouse: true, time: true})], before any noise shader. *)
Definition session : Globals :=
  {| device := Some session_device; canvas_width := Some 512; canvas_height := Some 512;
     mouseBuffer := Some the_mouseBuffer; timeBuffer := Some the_timeBuffer;
     renderTxtr := Some the_renderTxtr; feedbackTxtr := Some the_feedbackTxtr;
     noiseBuffer := None |}.

(** The same session once [getNoiseCode] has created the noise buffer. *)
Definition session_with_noise : Globals :=
  {| device := Some session_device; canvas_width := Some 512; canvas_height := Some 512;
     mouseBuffer := Some the_mouseBuffer; timeBuffer := Some the_timeBuffer;
     renderTxtr := Some the_renderTxtr; feedbackTxtr := Some the_feedbackTxtr;
     noiseBuffer := Some the_noiseBuffer |}.

(** The module variables before [initCanvas]: nothing is set. *)
Definition before_initCanvas : Globals :=
  {| device := None; canvas_width := None; canvas_height := None;
     mouseBuffer := None; timeBuffer := None; renderTxtr := None; feedbackTxtr := None;
     noiseBuffer := None |}.

Definition clock_shader : text := t "let s = sin(time);".

Definition pointer_clock_shader : text := t "let r = sin(time * 2.0) + mouse.pos.x;".

Definition noise_shader : text := t "particles[id.x].pos.x += noise2(vec2f(1.0, 2.0));".

Definition move_shader : text := t "particles[id.x].pos.x += 1.0;".

(** Three chunks of one big particle Array, and two ordinary buffers. *)
Definition chunk (id count : nat) : handle :=
  BufferHandle {| Core.name := "particles"; Core.data := []; size := 0; buffer := id;
                  struct := None; isArray := true; count := Some count |}.

Definition settings : handle :=
  BufferHandle {| Core.name := "settings"; Core.data := [Some 1%Z]; size := 4; buffer := 6;
                  struct := None; isArray := false; count := None |}.

Definition bounds : handle :=
  BufferHandle {| Core.name := "bounds"; Core.data := [Some 2%Z]; size := 4; buffer := 7;
                  struct := None; isArray := false; count := None |}.

Definition split_bindings : list entry :=
  [Chunks [chunk 3 65000; chunk 4 65000; chunk 5 20000]; One settings; One bounds].

(** Four passes for the batch runner. *)
Definition pass_of (code : string) (n : nat) : pass_object :=
  Compute {| Passes.code := t code; entryPoint := "main"; bindGroup := [settings];
             dispatchSize := [Some n] |}.

Definition pass_A : pass_object := pass_of "A" 1.
Definition pass_B : pass_object := pass_of "B" 2.
Definition pass_C : pass_object := pass_of "C" 3.
Definition pass_D : pass_object :=
  Render {| render_code := t "D"; render_bindGroup := [GPUSampler; GPUTextureView 0] |}.

(** *** Shader texts for the scanner and the assembler *)

Definition line_feed : string := String newline "".

(** A function whose brace is never closed. *)
Definition unclosed_function : text := t ("fn f() {" +:+ line_feed +:+ "  a;").

(** Two functions, one with nested braces and one with a generic return
    type, and two loose lines. *)
Definition two_functions : text :=
  t ("fn a(x: f32) -> f32 { if (x > 0.0) { { return x; } } return 1.0; }" +:+ line_feed
     +:+ "fn b() -> vec4<f32> { return vec4<f32>(1.0); }" +:+ line_feed
     +:+ "let p = a(1.0);" +:+ line_feed
     +:+ "let q = b();").

(** What the scan finds in it. *)
Definition two_functions_scan : Scanner.parsed :=
  {| Scanner.functions :=
       [t "fn a(x: f32) -> f32 { if (x > 0.0) { { return x; } } return 1.0; }";
        t "fn b() -> vec4<f32> { return vec4<f32>(1.0); }"];
     Scanner.body := t ("let p = a(1.0);" +:+ line_feed +:+ "let q = b();") |}.

(** A template that is a complete program, as a template literal gives
    it: with a line feed and indentation at both ends. *)
Definition complete_program : list text :=
  [t (line_feed +:+ "  @compute @workgroup_size(1)" +:+ line_feed
      +:+ "  fn main(@builtin(global_invocation_id) id: vec3<u32>) {" +:+ line_feed
      +:+ "    let x = f32(id.x) / width;" +:+ line_feed
      +:+ "  }" +:+ line_feed)].

Definition padded_main : list text := [t " fn main() {}"].

(** Short stand-ins for the two shader constants of noise.js. *)
Definition noise1_source : text := t "fn noise1(p: f32) -> f32 { return p + noiseOffset.x; }".

Definition noise2_source : text :=
  t "fn noise2(v: vec2<f32>) -> f32 { return v.x + noiseOffset.y; }".

Definition offsets : list value :=
  [VNumber (Some 1%Z); VNumber (Some 2%Z); VNumber (Some 3%Z)].

(** *** More layouts and arrays *)

(** What [new Struct('E')] returns: no field, no filler. *)
Definition empty_struct : Struct := {| Layout.name := "E"; Layout.data := [] |}.

(** Two fields of one name and of different types. *)
Definition clashing_struct : Struct :=
  {| Layout.name := "C";
     Layout.data := [{| fname := "a"; ftype := type_vec2 |};
                     {| fname := "a"; ftype := type_f32 |}; filler 0] |}.

Definition one_float : list num := [Some 0%Z].

Definition six_floats : list num := repeat (Some 0%Z) 6.

(** *** The bindings of [createMatchPass] *)

(** The two statements of the match pass that name the textures. *)
Definition match_shader : text :=
  t ("let clr = textureLoad(renderTxtr, vec2<i32>(x, y), 0);" +:+ line_feed
     +:+ "textureStore(feedbackTxtr, vec2<i32>(x, y), vec4<f32>(clr.r, clr.g, clr.b, 1.0));").

(** [[renderTxtr.read(), feedbackTxtr.write()]] *)
Definition match_bindings : list entry :=
  [One (ViewHandle {| texture := the_renderTxtr; readOrWrite := read |});
   One (ViewHandle {| texture := the_feedbackTxtr; readOrWrite := write |})].

(** *** Templates for the assembler and the builder *)

Definition loose_statement : list text := [t "textureStore(renderTxtr, pos, color);"].

(** An identifier that holds [width] without being it. *)
Definition scaled_width : text := t "let widthScale = 2.0;".

(** [wgsl.compute().binding(0, 0, 'f32', 'x')] *)
Definition one_binding : Builder.WGSLBuilder :=
  Builder.binding Builder.compute (t "0") (t "0") (t "f32") (t "x").

Definition assignment : list text := [t "x = 1.0;"].

End Samples.

(** * Properties of the embedding *)

Ltac Zify.zify_post_hook ::= Z.div_mod_to_equations.

(** ** The struct descriptor: sizes and padding *)

Section LayoutSizes.

Import Layout.

Lemma size_four (ty : ValueType) : size ty = 4 * (size ty / 4).
Proof. destruct ty; reflexivity. Qed.

Lemma field_floats_pos (f : field) : 0 < field_floats f.
Proof. unfold field_floats. destruct (ftype f); simpl; lia. Qed.

Lemma fold_sizes (fields : list field) (acc : nat) :
  fold_left (fun acc cur => acc + size (ftype cur)) fields acc
  = acc + 4 * layout_floats fields.
Proof.
  revert acc. induction fields as [|f fields IH]; intros acc; simpl.
  - unfold layout_floats. simpl. lia.
  - rewrite IH. unfold layout_floats. simpl. fold (field_floats f).
    pose proof (size_four (ftype f)) as H. unfold field_floats. lia.
Qed.

Lemma byteSize_floats (s : Struct) : byteSize s = 4 * layout_floats (data s).
Proof. unfold byteSize. rewrite fold_sizes. lia. Qed.

(** The division in [floatSize] is exact. *)
Lemma byteSize_floatSize (s : Struct) : byteSize s = 4 * floatSize s.
Proof.
  unfold floatSize. rewrite byteSize_floats.
  rewrite (Nat.mul_comm 4 (layout_floats (data s))), Nat.div_mul by discriminate. lia.
Qed.

Lemma floatSize_floats (s : Struct) : floatSize s = layout_floats (data s).
Proof. pose proof (byteSize_floatSize s). pose proof (byteSize_floats s). lia. Qed.

Lemma layout_floats_cons (f : field) (fields : list field) :
  layout_floats (f :: fields) = field_floats f + layout_floats fields.
Proof. reflexivity. Qed.

Lemma layout_floats_app (a b : list field) :
  layout_floats (a ++ b) = layout_floats a + layout_floats b.
Proof. unfold layout_floats. rewrite map_app, list_sum_app. reflexivity. Qed.

Lemma layout_floats_fillers (k : nat) (start : nat) :
  layout_floats (map filler (seq start k)) = k.
Proof.
  revert start. induction k as [|k IH]; intros start; [reflexivity|].
  simpl. unfold layout_floats in *. simpl. rewrite IH. reflexivity.
Qed.

Lemma new_Struct_data (name : string) (fields : list field) (s : Struct) :
  new_Struct name fields = Returns s ->
  Layout.name s = name /\ data s = fields ++ map filler (seq 0 (fillerCount fields)).
Proof.
  unfold new_Struct, fillerCount. destruct (blank name); [discriminate|].
  rewrite floatSize_floats. cbn [data].
  destruct (layout_floats fields mod 4 =? 0); cbn [negb]; intros H;
    injection H as <-; cbn [Layout.name data seq map].
  - split; [reflexivity|]. rewrite app_nil_r. reflexivity.
  - split; reflexivity.
Qed.

(** C8, as the code has it.  A struct that the constructor returns has a
    byte size divisible by 16; its fields are the caller's fields followed
    by [4 - floatSize % 4] fillers of type f32 when [floatSize % 4] is not
    zero (none otherwise), and the i-th filler is named [FILLER___i].  The
    name is an ordinary identifier: nothing keeps a caller's field from
    having it. *)
Theorem Struct_padding_invariant (name : string) (fields : list field) (s : Struct) :
  new_Struct name fields = Returns s ->
  byteSize s mod 16 = 0
  /\ data s = fields ++ map filler (seq 0 (fillerCount fields))
  /\ fillerCount fields
     = (if floatSize {| Layout.name := name; data := fields |} mod 4 =? 0 then 0
        else 4 - floatSize {| Layout.name := name; data := fields |} mod 4)
  /\ (forall i, i < fillerCount fields ->
        nth_error (data s) (length fields + i)
        = Some {| fname := "FILLER___" +:+ show_nat i; ftype := type_f32 |}).
Proof.
  intros H. destruct (new_Struct_data _ _ _ H) as [_ Hd].
  split; [|split; [exact Hd|split]].
  - rewrite byteSize_floats, Hd, layout_floats_app, layout_floats_fillers.
    unfold fillerCount. destruct (layout_floats fields mod 4 =? 0) eqn:E.
    + apply Nat.eqb_eq in E. lia.
    + apply Nat.eqb_neq in E. lia.
  - unfold fillerCount. rewrite floatSize_floats. reflexivity.
  - intros i Hi. rewrite Hd, nth_error_app2 by lia.
    replace (length fields + i - length fields) with i by lia.
    rewrite nth_error_map, nth_error_seq.
    destruct (Nat.ltb_spec i (fillerCount fields)); [reflexivity|lia].
Qed.

(** A struct with one f32 field gets three fillers. *)
Lemma Struct_padding_invariant_witness :
  new_Struct "P" [{| fname := "x"; ftype := type_f32 |}]
  = Returns {| Layout.name := "P";
               data := [{| fname := "x"; ftype := type_f32 |}; filler 0; filler 1; filler 2] |}
  /\ byteSize {| Layout.name := "P";
                 data := [{| fname := "x"; ftype := type_f32 |}; filler 0; filler 1; filler 2] |}
       mod 16 = 0.
Proof.
  split; [reflexivity|].
  apply (Struct_padding_invariant "P" [{| fname := "x"; ftype := type_f32 |}]).
  reflexivity.
Defined.

(** C8 as it is written asks that a filler never has the name of a field
    of the caller.  A caller's field named [FILLER___0] meets the first
    filler. *)
Lemma Struct_filler_name_collides :
  ~ (forall (name : string) (fields : list field) (s : Struct),
       new_Struct name fields = Returns s ->
       byteSize s mod 16 = 0
       /\ forall f, In f (skipn (length fields) (data s)) ->
            ~ In (fname f) (map fname fields)).
Proof.
  intros H.
  destruct (H "S" [{| fname := "FILLER___0"; ftype := type_f32 |}] _ eq_refl) as [_ Hf].
  apply (Hf (filler 0)); simpl; auto.
Qed.

End LayoutSizes.

(** ** The struct descriptor: packing and unpacking *)

Section LayoutRoundTrip.

Import Layout.

Context {N : Numbers}.

Lemma stored_length (ty : ValueType) (v : value) :
  accepted ty v -> length (stored ty v) = size ty / 4.
Proof.
  destruct ty; simpl; intros H; try (destruct H as [o [-> _]]; reflexivity).
  destruct H as [n ->]. reflexivity.
Qed.

Lemma type_toFloat32Array_accepted (ty : ValueType) (v : value) :
  accepted ty v -> type_toFloat32Array ty v = Returns (stored ty v).
Proof.
  destruct ty; simpl; intros H;
    try (destruct H as [o [-> H]]; simpl in H; rewrite H; reflexivity).
  destruct H as [n ->]. reflexivity.
Qed.

Lemma accepted_defined (ty : ValueType) (v : value) :
  accepted ty v -> v <> VUndefined.
Proof.
  destruct ty; simpl; intros H; try (destruct H as [o [-> _]]; discriminate).
  destruct H as [n ->]. discriminate.
Qed.

Lemma ta_set_middle (pre old new post : list num) :
  length old = length new ->
  ta_set (pre ++ old ++ post) new (length pre) = Returns (pre ++ new ++ post).
Proof.
  intros Hl. unfold ta_set. rewrite !length_app.
  destruct (Nat.leb_spec (length pre + length new) (length pre + (length old + length post)));
    [|lia].
  f_equal. rewrite take_app_length. f_equal. f_equal.
  rewrite <- Hl, <- length_app, app_assoc. apply drop_app_length.
Qed.

Lemma pack_fields_cons (f : field) (rest : list field) (o : props) (i : nat)
    (arr : list num) (offset : nat) :
  get_prop (fname f) o <> VUndefined ->
  pack_fields (f :: rest) o i arr offset
  = (packed <- type_toFloat32Array (ftype f) (get_prop (fname f) o) ;;
     arr' <- ta_set arr packed offset ;;
     pack_fields rest o i arr' (offset + size (ftype f) / 4)).
Proof.
  intros H. cbn [pack_fields]. destruct (get_prop (fname f) o); congruence.
Qed.

(** Packing the fields of one record overwrites, from the offset on, as
    many floats as the layout has. *)
Lemma pack_fields_spec (fields : list field) (o : props) (i : nat) :
  Forall (fun f => accepted (ftype f) (get_prop (fname f) o)) fields ->
  forall (pre old post : list num),
    length old = layout_floats fields ->
    pack_fields fields o i (pre ++ old ++ post) (length pre)
    = Returns (pre ++ record_floats fields (VObject o) ++ post,
               length pre + layout_floats fields).
Proof.
  induction 1 as [|f fields Hf _ IH]; intros pre old post Hl.
  - destruct old; [|discriminate]. simpl. rewrite Nat.add_0_r. reflexivity.
  - rewrite (pack_fields_cons _ _ _ _ _ _ (accepted_defined _ _ Hf)).
    rewrite (type_toFloat32Array_accepted _ _ Hf).
    pose proof (stored_length _ _ Hf) as Hlen.
    assert (Hl' : length old = field_floats f + layout_floats fields) by exact Hl.
    unfold field_floats in Hl'.
    set (seg := stored (ftype f) (get_prop (fname f) o)) in *.
    rewrite <- (take_drop (size (ftype f) / 4) old), <- app_assoc.
    assert (Hremain : length (drop (size (ftype f) / 4) old) = layout_floats fields)
      by (rewrite length_drop; lia).
    assert (Htake : length (take (size (ftype f) / 4) old) = length seg)
      by (rewrite length_take; lia).
    cbn [bind]. rewrite (ta_set_middle _ _ _ _ Htake). cbn [bind].
    replace (length pre + size (ftype f) / 4) with (length (pre ++ seg))
      by (rewrite length_app; lia).
    rewrite (app_assoc pre seg), (IH (pre ++ seg) _ post Hremain).
    rewrite length_app, <- !app_assoc. cbn [record_floats map concat].
    fold seg. rewrite <- !app_assoc.
    replace (length pre + length seg + layout_floats fields)
      with (length pre + layout_floats (f :: fields))
      by (rewrite layout_floats_cons; unfold field_floats; lia).
    reflexivity.
Qed.

(** Packing a list of accepted records writes them one after the other. *)
Lemma pack_vals_spec (fields : list field) (vals : list value) :
  Forall (record_accepted fields) vals ->
  forall (i : nat) (pre old : list num),
    length old = layout_floats fields * length vals ->
    pack_vals fields vals i (pre ++ old) (length pre)
    = Returns (pre ++ concat (map (record_floats fields) vals)).
Proof.
  induction 1 as [|v vals Hv _ IH]; intros i pre old Hl.
  - destruct old; [|simpl in Hl; lia]. reflexivity.
  - destruct Hv as [o [-> Ho]]. cbn [pack_vals].
    rewrite <- (take_drop (layout_floats fields) old).
    assert (Htake : length (take (layout_floats fields) old) = layout_floats fields)
      by (rewrite length_take; cbn [length] in Hl; lia).
    assert (Hdrop : length (drop (layout_floats fields) old)
                    = layout_floats fields * length vals)
      by (rewrite length_drop; cbn [length] in Hl; lia).
    rewrite (pack_fields_spec fields o i Ho pre _ _ Htake). cbn [bind fst snd].
    assert (Hrec : length (record_floats fields (VObject o)) = layout_floats fields).
    { clear -Ho. induction Ho as [|f fs Hf _ IHf]; [reflexivity|].
      cbn [record_floats map concat] in *. rewrite length_app, IHf.
      rewrite (stored_length _ _ Hf). reflexivity. }
    replace (length pre + layout_floats fields)
      with (length (pre ++ record_floats fields (VObject o)))
      by (rewrite length_app; lia).
    rewrite app_assoc, (IH (S i) _ _ Hdrop). cbn [map concat].
    rewrite <- app_assoc. reflexivity.
Qed.

Lemma record_floats_length (fields : list field) (v : value) :
  record_accepted fields v -> length (record_floats fields v) = layout_floats fields.
Proof.
  intros [o [-> Ho]]. induction Ho as [|f fs Hf _ IHf]; [reflexivity|].
  cbn [record_floats map concat] in *. rewrite length_app, IHf.
  rewrite (stored_length _ _ Hf). reflexivity.
Qed.

Lemma records_floats_length (fields : list field) (vals : list value) :
  Forall (record_accepted fields) vals ->
  length (concat (map (record_floats fields) vals)) = length vals * layout_floats fields.
Proof.
  induction 1 as [|v vals Hv _ IH]; [reflexivity|].
  cbn [map concat length]. rewrite length_app, IH, (record_floats_length _ _ Hv). lia.
Qed.

(** [toFloat32Array] on an Array of accepted records. *)
Lemma toFloat32Array_Many (s : Struct) (vals : list value) :
  Forall (record_accepted (data s)) vals ->
  toFloat32Array s (Many vals) = Returns (concat (map (record_floats (data s)) vals)).
Proof.
  intros H. unfold toFloat32Array. rewrite floatSize_floats.
  apply (pack_vals_spec (data s) vals H 0 [] (repeat zero _)).
  apply repeat_length.
Qed.

Lemma set_prop_fresh (name : string) (v : value) (o : props) :
  ~ In name (map fst o) -> set_prop name v o = o ++ [(name, v)].
Proof.
  induction o as [|[k w] o IH]; intros H; [reflexivity|].
  cbn [set_prop]. destruct (String.eqb_spec k name) as [->|Hne].
  - exfalso. apply H. left. reflexivity.
  - rewrite IH; [reflexivity|]. intros Hin. apply H. right. exact Hin.
Qed.

Lemma get_prop_app_fresh (name : string) (o o' : props) :
  ~ In name (map fst o) -> get_prop name (o ++ o') = get_prop name o'.
Proof.
  induction o as [|[k w] o IH]; intros H; [reflexivity|].
  cbn [app get_prop]. destruct (String.eqb_spec k name) as [->|Hne].
  - exfalso. apply H. left. reflexivity.
  - apply IH. intros Hin. apply H. right. exact Hin.
Qed.

(** Looking a field up in a record built field by field. *)
Lemma get_prop_fields (g : field -> value) (fields : list field) (f : field) :
  List.NoDup (map fname fields) -> In f fields ->
  get_prop (fname f) (map (fun f => (fname f, g f)) fields) = g f.
Proof.
  induction fields as [|h fields IH]; intros Hnd Hin; [destruct Hin|].
  inversion Hnd as [|? ? Hh Hnd']; subst. cbn [map get_prop].
  destruct Hin as [->|Hin].
  - rewrite String.eqb_refl. reflexivity.
  - destruct (String.eqb_spec (fname h) (fname f)) as [E|_]; [|apply IH; assumption].
    exfalso. apply Hh. rewrite E. apply in_map. exact Hin.
Qed.

(** Unpacking one record reads the floats back field after field and
    appends one property per field. *)
Lemma unpack_fields_spec (o : props) (fields : list field) :
  Forall (fun f => accepted (ftype f) (get_prop (fname f) o)) fields ->
  forall (val : props) (pre post : list num),
    List.NoDup (map fst val ++ map fname fields) ->
    unpack_fields fields (pre ++ record_floats fields (VObject o) ++ post) val (length pre)
    = Returns (val ++ map (fun f => (fname f,
                                     type_fromFloat32Array (ftype f)
                                       (stored (ftype f) (get_prop (fname f) o)))) fields,
               length pre + layout_floats fields).
Proof.
  induction 1 as [|f fields Hf _ IH]; intros val pre post Hnd.
  - cbn. rewrite app_nil_r, Nat.add_0_r. reflexivity.
  - cbn [unpack_fields record_floats map concat].
    pose proof (stored_length _ _ Hf) as Hlen.
    set (seg := stored (ftype f) (get_prop (fname f) o)) in *.
    set (rest := concat (map (fun f0 => stored (ftype f0) (get_prop (fname f0) o)) fields)).
    destruct (Nat.ltb_spec (length (pre ++ (seg ++ rest) ++ post))
                (length pre + size (ftype f) / 4)) as [Hlt|_].
    { rewrite !length_app in Hlt. lia. }
    assert (Hslice : ta_slice (pre ++ (seg ++ rest) ++ post) (length pre)
                       (length pre + size (ftype f) / 4) = seg).
    { unfold ta_slice. rewrite drop_app_length.
      replace (length pre + size (ftype f) / 4 - length pre) with (length seg) by lia.
      rewrite <- app_assoc. apply take_app_length. }
    rewrite Hslice.
    assert (Hfresh : ~ In (fname f) (map fst val)).
    { intros Hin. apply List.NoDup_remove_2 in Hnd. apply Hnd. apply in_or_app. left. exact Hin. }
    rewrite (set_prop_fresh _ _ _ Hfresh).
    replace (pre ++ (seg ++ rest) ++ post) with ((pre ++ seg) ++ rest ++ post)
      by (rewrite <- !app_assoc; reflexivity).
    replace (length pre + size (ftype f) / 4) with (length (pre ++ seg))
      by (rewrite length_app; lia).
    assert (Hnd' : List.NoDup (map fst (val ++ [(fname f, type_fromFloat32Array (ftype f) seg)])
                          ++ map fname fields)).
    { rewrite map_app, <- app_assoc. exact Hnd. }
    pose proof (IH _ (pre ++ seg) post Hnd') as IH'. cbn [record_floats] in IH'.
    fold rest in IH'. rewrite IH'. rewrite <- app_assoc, length_app, layout_floats_cons.
    unfold field_floats. cbn [app]. f_equal. f_equal. lia.
Qed.

Lemma representable_has_prop (k : string) (o : props) :
  representable (get_prop k o) -> has_prop k o = true.
Proof.
  intros [n [E _]]. induction o as [|[k' w] o IH]; [discriminate|].
  cbn [get_prop] in E. cbn [has_prop existsb fst].
  destruct (String.eqb k' k); [reflexivity|]. apply IH. exact E.
Qed.

Lemma float32_valued_accepted (ty : ValueType) (v : value) :
  float32_valued ty v -> accepted ty v.
Proof.
  destruct ty; cbn [float32_valued accepted].
  - intros [n [-> _]]. eauto.
  - intros [o [-> H]]. exists o. split; [reflexivity|].
    apply forallb_forall. intros k Hk. apply representable_has_prop.
    rewrite List.Forall_forall in H. apply H. exact Hk.
  - intros [o [-> H]]. exists o. split; [reflexivity|].
    apply forallb_forall. intros k Hk. apply representable_has_prop.
    rewrite List.Forall_forall in H. apply H. exact Hk.
  - intros [o [-> H]]. exists o. split; [reflexivity|].
    apply forallb_forall. intros k Hk. apply representable_has_prop.
    rewrite List.Forall_forall in H. apply H. exact Hk.
  - intros [o [-> H]]. exists o. split; [reflexivity|].
    apply forallb_forall. intros k Hk. apply representable_has_prop.
    rewrite List.Forall_forall in H. apply H. exact Hk.
Qed.

Ltac use_representable :=
  repeat match goal with
         | H : Forall _ (_ :: _) |- _ => inversion H; subst; clear H
         | H : Forall _ [] |- _ => clear H
         | H : representable _ |- _ =>
             let n := fresh "n" in
             let E := fresh "E" in
             let R := fresh "R" in
             destruct H as [n [E R]]
         end.

(** What comes back from the floats of a value whose numbers a
    Float32Array holds exactly. *)
Lemma type_roundtrip (ty : ValueType) (v : value) :
  float32_valued ty v ->
  reproduces ty v (type_fromFloat32Array ty (stored ty v)).
Proof.
  destruct ty; cbn [float32_valued reproduces].
  1: { intros [n [-> R]]. cbn. rewrite R. reflexivity. }
  all: intros [o [-> H]]; exists o; eexists;
    split; [reflexivity|]; split; [reflexivity|];
    cbn in H; use_representable;
    split; [reflexivity|];
    repeat constructor; cbn;
    repeat match goal with E : get_prop _ _ = _ |- _ => rewrite E; clear E end;
    cbn;
    repeat match goal with R : fround _ = _ |- _ => rewrite R; clear R end;
    reflexivity.
Qed.

(** C1, as the code has it.  Let the struct have at least one field and
    no two fields of one name, and let the record hold, under every field
    of [data] -- the fillers are fields like the others --, a value of the
    field's type whose numbers a Float32Array holds without rounding.  Then
    packing returns, unpacking the result returns exactly one record, that
    record has one property per field of [data], in order and fillers
    included, and under every field it carries the value of the input. *)
Theorem Struct_roundtrip_with_fillers (s : Struct) (R : props) :
  data s <> [] ->
  List.NoDup (map fname (data s)) ->
  (forall f, In f (data s) -> float32_valued (ftype f) (get_prop (fname f) R)) ->
  exists (packed : list num) (U : props),
    toFloat32Array s (Single (VObject R)) = Returns packed
    /\ fromFloat32Array s packed = Returns [VObject U]
    /\ map fst U = map fname (data s)
    /\ forall f, In f (data s) ->
         reproduces (ftype f) (get_prop (fname f) R) (get_prop (fname f) U).
Proof.
  intros Hne Hnd Hval.
  assert (Hacc : Forall (fun f => accepted (ftype f) (get_prop (fname f) R)) (data s)).
  { apply List.Forall_forall. intros f Hf. apply float32_valued_accepted, Hval, Hf. }
  assert (Hrec : record_accepted (data s) (VObject R)) by (exists R; split; [reflexivity|exact Hacc]).
  set (packed := record_floats (data s) (VObject R)).
  set (U := map (fun f => (fname f, type_fromFloat32Array (ftype f)
                                      (stored (ftype f) (get_prop (fname f) R)))) (data s)).
  exists packed, U.
  assert (Hlen : length packed = layout_floats (data s)) by (apply record_floats_length, Hrec).
  assert (Hpos : 0 < layout_floats (data s)).
  { destruct (data s) as [|f fs]; [congruence|].
    rewrite layout_floats_cons. pose proof (field_floats_pos f). lia. }
  split; [|split; [|split]].
  - unfold toFloat32Array. cbn [is_falsy]. rewrite floatSize_floats.
    assert (Hall : Forall (record_accepted (data s)) [VObject R]) by (constructor; [exact Hrec|constructor]).
    pose proof (pack_vals_spec (data s) [VObject R] Hall 0 [] (repeat zero (layout_floats (data s) * 1))
                  (repeat_length _ _)) as Hp.
    cbn [app length map concat] in Hp. rewrite app_nil_r in Hp. exact Hp.
  - unfold fromFloat32Array. rewrite Hlen.
    destruct (layout_floats (data s)) as [|k] eqn:Ek; [lia|].
    cbn [unpack_loop]. rewrite Hlen.
    destruct (Nat.ltb_spec 0 (S k)) as [_|]; [|lia].
    pose proof (unpack_fields_spec R (data s) Hacc [] [] []) as Hu.
    cbn [app length map] in Hu. rewrite app_nil_r in Hu.
    fold packed in Hu. rewrite Hu by exact Hnd. cbn [bind fst snd].
    cbn [unpack_loop]. rewrite ?Hlen, ?Nat.add_0_l, ?Ek.
    destruct (Nat.ltb_spec (S k) (S k)) as [|_]; [lia|]. reflexivity.
  - unfold U. rewrite map_map. reflexivity.
  - intros f Hf. unfold U.
    rewrite (get_prop_fields (fun f => type_fromFloat32Array (ftype f)
                                         (stored (ftype f) (get_prop (fname f) R)))
               (data s) f Hnd Hf).
    apply type_roundtrip, Hval, Hf.
Qed.

End LayoutRoundTrip.

Section LayoutExamples.

Import Layout Samples.

#[local] Existing Instance IntNumbers.

(** The round trip of a record that carries the three fillers. *)
Lemma Struct_roundtrip_with_fillers_witness :
  exists (packed : list num) (U : props),
    toFloat32Array point_struct (Single (VObject point_with_fillers)) = Returns packed
    /\ fromFloat32Array point_struct packed = Returns [VObject U]
    /\ map fst U = map fname (data point_struct)
    /\ forall f, In f (data point_struct) ->
         reproduces (ftype f) (get_prop (fname f) point_with_fillers) (get_prop (fname f) U).
Proof.
  apply (Struct_roundtrip_with_fillers point_struct point_with_fillers).
  - discriminate.
  - repeat constructor; cbn; intuition discriminate.
  - intros f [<-|[<-|[<-|[<-|[]]]]]; cbn; eexists; split; reflexivity.
Defined.

(** C1 as it is written takes a record with the declared fields only.
    The struct of one f32 field has three fillers, and packing the record
    [{x: 1}] throws on the first of them. *)
Lemma Struct_roundtrip_needs_fillers :
  ~ (forall (name : string) (fields : list field) (s : Struct) (R : props),
       new_Struct name fields = Returns s ->
       map fst R = map fname fields ->
       (forall f, In f fields -> float32_valued (ftype f) (get_prop (fname f) R)) ->
       exists (packed : list num) (U : props),
         toFloat32Array s (Single (VObject R)) = Returns packed
         /\ fromFloat32Array s packed = Returns [VObject U]
         /\ (forall f, In f fields ->
               reproduces (ftype f) (get_prop (fname f) R) (get_prop (fname f) U))
         /\ (forall k, In k (map fst U) -> In k (map fname fields))).
Proof.
  intros H.
  destruct (H "P" point_fields point_struct point_declared_only eq_refl eq_refl)
    as [packed [U [Hpack _]]].
  - intros f [<-|[]]. cbn. eexists. split; reflexivity.
  - vm_compute in Hpack. discriminate.
Qed.

Example point_pack_throws :
  toFloat32Array point_struct (Single (VObject point_declared_only))
  = Throws "Struct.toFloat32Array: Missing field FILLER___0 at index 0".
Proof. reflexivity. Qed.

Example point_roundtrip_keeps_fillers :
  (packed <- toFloat32Array point_struct (Single (VObject point_with_fillers)) ;;
   fromFloat32Array point_struct packed)
  = Returns [VObject point_with_fillers].
Proof. reflexivity. Qed.

(** A struct without fields packs a record into no float at all and
    unpacks that into no record. *)
Example empty_struct_roundtrip :
  (packed <- toFloat32Array {| Layout.name := "E"; data := [] |} (Single (VObject [])) ;;
   fromFloat32Array {| Layout.name := "E"; data := [] |} packed)
  = Returns [].
Proof. reflexivity. Qed.

End LayoutExamples.

(** ** Struct.createBuffer: one buffer, or one buffer per chunk *)

Section CreateBuffer.

Import Layout Core StructBuffer.

Context {N : Numbers}.

Lemma new_Buffer_Float32 (name : string) (arr : list num) (d : Device) :
  exists d',
    new_Buffer name (Float32 arr) (Some d)
    = Returns ({| Core.name := name; Core.data := arr; size := 4 * length arr;
                  buffer := length (gpu_buffers d);
                  struct := None; isArray := false; count := None |}, d').
Proof. eexists. reflexivity. Qed.

Lemma Forall_firstn_skipn {A : Type} (P : A -> Prop) (l : list A) (i n : nat) :
  Forall P l -> Forall P (firstn n (skipn i l)).
Proof.
  intros H. apply Forall_take, Forall_drop, H.
Qed.

(** The loop returns one buffer per slice, in order. *)
Lemma chunk_loop_spec (limit : nat) (s : Struct) (name : string) (vals : list value) :
  Forall (record_accepted (Layout.data s)) vals ->
  forall (fuel i : nat) (buffers : list Buffer) (d : Device),
    length vals - i < fuel ->
    0 < limit ->
    exists (bs : list Buffer) (d' : Device),
      chunk_loop fuel limit s name vals i buffers (Some d) = Returns (buffers ++ bs, Some d')
      /\ Forall2 (holds_chunk s name) bs (chunks fuel limit vals i).
Proof.
  intros Hacc. induction fuel as [|fuel IH]; intros i buffers d Hfuel Hlimit; [lia|].
  cbn [chunk_loop chunks]. destruct (Nat.ltb_spec i (length vals)) as [Hi|Hi].
  - set (nextData := firstn limit (skipn i vals)).
    rewrite (toFloat32Array_Many s nextData (Forall_firstn_skipn _ _ _ _ Hacc)).
    cbn [bind try_catch new_Buffer fst snd].
    match goal with
    | |- context [chunk_loop fuel limit s name vals (i + limit) ?b (Some ?dd)] =>
        destruct (IH (i + limit) b dd) as [bs [d' [Hloop Hall]]]; [lia|exact Hlimit|]
    end.
    eexists (_ :: bs), d'. rewrite Hloop. split.
    + rewrite <- app_assoc. reflexivity.
    + constructor; [|exact Hall]. repeat split.
  - exists [], d. rewrite app_nil_r. split; [reflexivity|constructor].
Qed.

Lemma chunks_concat (limit : nat) (vals : list value) :
  0 < limit ->
  forall (fuel i : nat), length vals - i < fuel ->
    concat (chunks fuel limit vals i) = skipn i vals.
Proof.
  intros Hlimit. induction fuel as [|fuel IH]; intros i Hfuel; [lia|].
  cbn [chunks]. destruct (Nat.ltb_spec i (length vals)) as [Hi|Hi].
  - cbn [concat]. rewrite IH by lia.
    rewrite <- drop_drop. apply take_drop.
  - symmetry. apply drop_ge. lia.
Qed.

Lemma chunks_bounded (limit : nat) (vals : list value) :
  0 < limit ->
  forall (fuel i : nat),
    Forall (fun ch => 0 < length ch <= limit) (chunks fuel limit vals i).
Proof.
  intros Hlimit. induction fuel as [|fuel IH]; intros i; [constructor|].
  cbn [chunks]. destruct (Nat.ltb_spec i (length vals)) as [Hi|Hi]; [|constructor].
  constructor; [|apply IH]. rewrite length_take, length_drop. lia.
Qed.

Lemma ceil_step (x limit : nat) :
  0 < limit -> 0 < x -> (x + limit - 1) / limit = S ((x - limit + limit - 1) / limit).
Proof.
  intros Hl Hx. destruct (Nat.le_gt_cases limit x) as [Hle|Hlt].
  - replace (x + limit - 1) with ((x - limit + limit - 1) + 1 * limit) by lia.
    rewrite Nat.div_add by lia. lia.
  - replace (x - limit + limit - 1) with (limit - 1) by lia.
    rewrite (Nat.div_small (limit - 1)) by lia.
    replace (x + limit - 1) with ((x - 1) + 1 * limit) by lia.
    rewrite Nat.div_add by lia. rewrite Nat.div_small by lia. reflexivity.
Qed.

Lemma chunks_length (limit : nat) (vals : list value) :
  0 < limit ->
  forall (fuel i : nat), length vals - i < fuel ->
    length (chunks fuel limit vals i) = (length vals - i + limit - 1) / limit.
Proof.
  intros Hlimit. induction fuel as [|fuel IH]; intros i Hfuel; [lia|].
  cbn [chunks]. destruct (Nat.ltb_spec i (length vals)) as [Hi|Hi].
  - cbn [length]. rewrite IH by lia.
    rewrite (ceil_step (length vals - i) limit) by lia.
    replace (length vals - (i + limit)) with (length vals - i - limit) by lia.
    reflexivity.
  - replace (length vals - i) with 0 by lia. cbn [length].
    symmetry. apply Nat.div_small. lia.
Qed.

Lemma counts_sum (s : Struct) (name : string) (bs : list Buffer) (chs : list (list value)) :
  Forall2 (holds_chunk s name) bs chs ->
  list_sum (map (fun b => default 0 (count b)) bs) = length (concat chs).
Proof.
  induction 1 as [|b ch bs chs Hb _ IH]; [reflexivity|].
  destruct Hb as [Hc _]. unfold list_sum in *.
  cbn [map fold_right concat]. rewrite length_app, IH, Hc. reflexivity.
Qed.

(** [createBuffer] with any positive ceiling. *)
Lemma createBuffer_upto_spec (limit : nat) (s : Struct) (name : string)
    (vals : list value) (d : Device) :
  0 < limit ->
  vals <> [] ->
  Forall (record_accepted (Layout.data s)) vals ->
  (length vals < limit ->
   exists (b : Buffer) (d' : Device),
     createBuffer_upto limit s name (Many vals) (Some d) = Returns (OneBuffer b, Some d')
     /\ count b = None
     /\ isArray b = true
     /\ struct b = Some s
     /\ Core.data b = concat (map (record_floats (Layout.data s)) vals)
     /\ length (Core.data b) = length vals * floatSize s)
  /\ (limit <= length vals ->
      exists (bs : list Buffer) (d' : Device) (chs : list (list value)),
        createBuffer_upto limit s name (Many vals) (Some d) = Returns (BufferArray bs, Some d')
        /\ length bs = (length vals + limit - 1) / limit
        /\ concat chs = vals
        /\ Forall (fun ch => 0 < length ch <= limit) chs
        /\ Forall2 (holds_chunk s name) bs chs
        /\ list_sum (map (fun b => default 0 (count b)) bs) = length vals).
Proof.
  intros Hlimit Hne Hacc.
  assert (Hlen : 1 <= length vals) by (destruct vals; [congruence|cbn; lia]).
  split; intros Hcmp.
  - unfold createBuffer_upto.
    destruct (Nat.ltb_spec (length vals) 1) as [|_]; [lia|].
    destruct (Nat.ltb_spec (length vals) limit) as [_|]; [|lia].
    rewrite (toFloat32Array_Many s vals Hacc). cbn [bind try_catch new_Buffer fst snd].
    eexists _, _. split; [reflexivity|].
    unfold with_struct. cbn [count isArray struct Core.data].
    repeat split. rewrite (records_floats_length _ _ Hacc), floatSize_floats. reflexivity.
  - unfold createBuffer_upto.
    destruct (Nat.ltb_spec (length vals) 1) as [|_]; [lia|].
    destruct (Nat.ltb_spec (length vals) limit) as [|_]; [lia|].
    destruct (chunk_loop_spec limit s name vals Hacc (S (length vals)) 0 [] d)
      as [bs [d' [Hloop Hall]]]; [lia|exact Hlimit|].
    rewrite Hloop. cbn [bind fst snd app].
    exists bs, d', (chunks (S (length vals)) limit vals 0).
    assert (Hcat : concat (chunks (S (length vals)) limit vals 0) = vals)
      by (rewrite chunks_concat by lia; reflexivity).
    split; [reflexivity|]. split; [|split; [exact Hcat|split; [|split; [exact Hall|]]]].
    + rewrite (Forall2_length _ _ _ Hall), chunks_length by lia.
      rewrite Nat.sub_0_r. reflexivity.
    + apply chunks_bounded. exact Hlimit.
    + rewrite (counts_sum _ _ _ _ Hall), Hcat. reflexivity.
Qed.

(** C3, as the code has it.  Let [vals] be a non-empty Array of records
    that the struct accepts, on an initialized device.  Below 65000
    records [createBuffer] returns one Buffer, flagged as an array, that
    holds the floats of all the records, so [N * floatSize] floats; the
    Buffer has no [count] property.  From 65000 records on it returns an
    Array of [ceil(N / 65000)] Buffers: they hold consecutive chunks of at
    least one and at most 65000 records, each has the length of its chunk
    as [count], and the counts add up to N. *)
Theorem createBuffer_chunking (s : Struct) (name : string) (vals : list value) (d : Device) :
  vals <> [] ->
  Forall (record_accepted (Layout.data s)) vals ->
  (length vals < 65000 ->
   exists (b : Buffer) (d' : Device),
     createBuffer s name (Many vals) (Some d) = Returns (OneBuffer b, Some d')
     /\ count b = None
     /\ isArray b = true
     /\ struct b = Some s
     /\ Core.data b = concat (map (record_floats (Layout.data s)) vals)
     /\ length (Core.data b) = length vals * floatSize s)
  /\ (65000 <= length vals ->
      exists (bs : list Buffer) (d' : Device) (chs : list (list value)),
        createBuffer s name (Many vals) (Some d) = Returns (BufferArray bs, Some d')
        /\ length bs = (length vals + 65000 - 1) / 65000
        /\ concat chs = vals
        /\ Forall (fun ch => 0 < length ch <= 65000) chs
        /\ Forall2 (holds_chunk s name) bs chs
        /\ list_sum (map (fun b => default 0 (count b)) bs) = length vals).
Proof.
  intros Hne Hacc. apply createBuffer_upto_spec; [|exact Hne|exact Hacc].
  apply Nat.ltb_lt. reflexivity.
Qed.

End CreateBuffer.

Section CreateBufferExamples.

Import Layout Core StructBuffer Samples.

#[local] Existing Instance IntNumbers.

(** One record of the padded one-field struct, on a fresh device. *)
Lemma createBuffer_chunking_witness :
  (length [VObject point_with_fillers] < 65000 ->
   exists (b : Buffer) (d' : Device),
     createBuffer point_struct "points" (Many [VObject point_with_fillers]) (Some fresh_device)
     = Returns (OneBuffer b, Some d')
     /\ count b = None
     /\ isArray b = true
     /\ struct b = Some point_struct
     /\ Core.data b
        = concat (map (record_floats (Layout.data point_struct)) [VObject point_with_fillers])
     /\ length (Core.data b) = length [VObject point_with_fillers] * floatSize point_struct)
  /\ (65000 <= length [VObject point_with_fillers] ->
      exists (bs : list Buffer) (d' : Device) (chs : list (list value)),
        createBuffer point_struct "points" (Many [VObject point_with_fillers]) (Some fresh_device)
        = Returns (BufferArray bs, Some d')
        /\ length bs = (length [VObject point_with_fillers] + 65000 - 1) / 65000
        /\ concat chs = [VObject point_with_fillers]
        /\ Forall (fun ch => 0 < length ch <= 65000) chs
        /\ Forall2 (holds_chunk point_struct "points") bs chs
        /\ list_sum (map (fun b => default 0 (count b)) bs)
           = length [VObject point_with_fillers]).
Proof.
  apply (createBuffer_chunking point_struct "points" [VObject point_with_fillers] fresh_device).
  - discriminate.
  - constructor; [|constructor]. exists point_with_fillers. split; [reflexivity|].
    repeat constructor; cbn; eexists; reflexivity.
Defined.

(** C3 as it is written gives the single Buffer an element count of N.
    The branch below the ceiling never sets [count]. *)
Lemma createBuffer_single_has_no_count :
  ~ (forall (s : Struct) (name : string) (vals : list value) (d : Device),
       vals <> [] ->
       Forall (record_accepted (Layout.data s)) vals ->
       length vals < 65000 ->
       exists (b : Buffer) (d' : Device),
         createBuffer s name (Many vals) (Some d) = Returns (OneBuffer b, Some d')
         /\ count b = Some (length vals)).
Proof.
  intros H.
  destruct (H point_struct "points" [VObject point_with_fillers] fresh_device)
    as [b [d' [Hret Hcount]]].
  - discriminate.
  - constructor; [|constructor]. exists point_with_fillers. split; [reflexivity|].
    repeat constructor; cbn; eexists; reflexivity.
  - apply Nat.ltb_lt. reflexivity.
  - destruct (createBuffer_upto_spec 65000 point_struct "points"
                [VObject point_with_fillers] fresh_device) as [Hone _].
    + apply Nat.ltb_lt. reflexivity.
    + discriminate.
    + constructor; [|constructor]. exists point_with_fillers. split; [reflexivity|].
      repeat constructor; cbn; eexists; reflexivity.
    + destruct Hone as [b0 [d0 [Hret0 [Hnone _]]]]; [apply Nat.ltb_lt; reflexivity|].
      unfold createBuffer in Hret. rewrite Hret0 in Hret.
      injection Hret as -> _. rewrite Hnone in Hcount. discriminate.
Qed.

(** The chunk loop on five records with a ceiling of two. *)
Example chunks_of_five :
  match createBuffer_upto 2 point_struct "points"
          (Many (repeat (VObject point_with_fillers) 5)) (Some fresh_device) with
  | Returns (BufferArray bs, _) => map count bs
  | _ => []
  end = [Some 2; Some 2; Some 1].
Proof. reflexivity. Qed.

Example mouseBuffer_created :
  createBuffer mouseStruct "mouse" (Single (object mouseStruct)) (Some fresh_device)
  = Returns (OneBuffer the_mouseBuffer, Some device_with_mouse).
Proof. reflexivity. Qed.

End CreateBufferExamples.

(** ** Buffer.update *)

Section BufferUpdate.

Import Layout Core.

Context {N : Numbers}.

Lemma update_returns (wb : Device -> nat -> nat -> list num -> outcome Device)
    (this : Buffer) (data : buffer_data) (arr : list num) (d d' : Device) :
  array_like data arr ->
  wb d (buffer this) 0 arr = Returns d' ->
  update wb this data (Some d) = Returns (with_data this arr, d').
Proof.
  intros Ha Hw. destruct data as [vs|a|v]; cbn in Ha; [subst arr|subst arr|destruct Ha];
    unfold update; cbn [bind try_catch]; rewrite Hw; reflexivity.
Qed.

Lemma webgpu_writeBuffer_sizes (d : Device) (id offset : nat) (arr : list num) :
  exists d',
    webgpu_writeBuffer d id offset arr = Returns d'
    /\ map gpu_size (gpu_buffers d') = map gpu_size (gpu_buffers d).
Proof.
  unfold webgpu_writeBuffer. destruct (gpu_buffers d !! id) as [b|] eqn:E.
  - destruct (4 * (offset + length arr) <=? gpu_size b).
    + eexists. split; [reflexivity|]. cbn [gpu_buffers].
      apply list_eq. intros i. rewrite !list_lookup_fmap.
      destruct (decide (i = id)) as [->|Hne].
      * rewrite list_lookup_insert_eq by exact (lookup_lt_Some _ _ _ E).
        rewrite E. reflexivity.
      * rewrite list_lookup_insert_ne by congruence. reflexivity.
    + eexists. split; reflexivity.
  - eexists. split; reflexivity.
Qed.

(** C9, as the code has it.  [update] throws at once for an argument that
    is neither an Array nor a Float32Array.  Otherwise it turns an Array
    into a Float32Array, without any struct packing, and hands the floats to
    the queue of the device for a write at offset 0 of the same device
    buffer; it compares no lengths.  When the queue returns so does
    [update]: the handle has the new floats as [data] and keeps its [size]
    and its device buffer.  On the WebGPU queue the call returns for floats
    of any length: no device buffer changes size, floats that fit replace
    the head of the contents and leave the rest, floats that do not fit
    leave the device as it was. *)
Theorem Buffer_update_in_place (this : Buffer) (data : buffer_data) (arr : list num)
    (d : Device) (g : GPUBuffer) :
  array_like data arr ->
  gpu_buffers d !! buffer this = Some g ->
  (forall wb dev v,
     update wb this (NotArrayLike v) dev
     = Throws "Buffer.update: Data must be an Array or Float32Array")
  /\ (forall wb d',
        wb d (buffer this) 0 arr = Returns d' ->
        update wb this data (Some d) = Returns (with_data this arr, d'))
  /\ exists d',
       update webgpu_writeBuffer this data (Some d) = Returns (with_data this arr, d')
       /\ size (with_data this arr) = size this
       /\ buffer (with_data this arr) = buffer this
       /\ map gpu_size (gpu_buffers d') = map gpu_size (gpu_buffers d)
       /\ (4 * length arr <= gpu_size g ->
           gpu_buffers d' !! buffer this
           = Some {| gpu_size := gpu_size g;
                     gpu_contents := arr ++ skipn (length arr) (gpu_contents g) |})
       /\ (gpu_size g < 4 * length arr -> d' = d).
Proof.
  intros Ha Hg. split; [reflexivity|]. split.
  - intros wb d' Hw. apply update_returns; assumption.
  - destruct (webgpu_writeBuffer_sizes d (buffer this) 0 arr) as [d' [Hw Hs]].
    exists d'. split; [apply update_returns; assumption|].
    split; [reflexivity|]. split; [reflexivity|]. split; [exact Hs|].
    unfold webgpu_writeBuffer in Hw. rewrite Hg in Hw. cbn [Nat.add] in Hw.
    destruct (Nat.leb_spec (4 * length arr) (gpu_size g)) as [Hle|Hgt];
      injection Hw as <-; split; intros Hcmp; try lia; try reflexivity.
    cbn [gpu_buffers firstn app].
    apply list_lookup_insert_eq. exact (lookup_lt_Some _ _ _ Hg).
Qed.

End BufferUpdate.

Section BufferUpdateExamples.

Import Layout Core Samples.

#[local] Existing Instance IntNumbers.

(** The mouse handler writes three floats into the buffer of four. *)
Lemma Buffer_update_in_place_witness :
  (forall wb dev v,
     update wb the_mouseBuffer (NotArrayLike v) dev
     = Throws "Buffer.update: Data must be an Array or Float32Array")
  /\ (forall wb d',
        wb device_with_mouse (buffer the_mouseBuffer) 0 mouse_event_floats = Returns d' ->
        update wb the_mouseBuffer mouse_event_data (Some device_with_mouse)
        = Returns (with_data the_mouseBuffer mouse_event_floats, d'))
  /\ exists d',
       update webgpu_writeBuffer the_mouseBuffer mouse_event_data (Some device_with_mouse)
       = Returns (with_data the_mouseBuffer mouse_event_floats, d')
       /\ size (with_data the_mouseBuffer mouse_event_floats) = size the_mouseBuffer
       /\ buffer (with_data the_mouseBuffer mouse_event_floats) = buffer the_mouseBuffer
       /\ map gpu_size (gpu_buffers d') = map gpu_size (gpu_buffers device_with_mouse)
       /\ (4 * length mouse_event_floats <= gpu_size mouse_gpu_buffer ->
           gpu_buffers d' !! buffer the_mouseBuffer
           = Some {| gpu_size := gpu_size mouse_gpu_buffer;
                     gpu_contents := mouse_event_floats
                                       ++ skipn (length mouse_event_floats)
                                            (gpu_contents mouse_gpu_buffer) |})
       /\ (gpu_size mouse_gpu_buffer < 4 * length mouse_event_floats ->
           d' = device_with_mouse).
Proof.
  apply (Buffer_update_in_place the_mouseBuffer mouse_event_data mouse_event_floats
           device_with_mouse mouse_gpu_buffer).
  - reflexivity.
  - reflexivity.
Defined.

(** C9 as it is written makes [update] fail when the byte length of the
    new data differs from the allocated size.  The mouse handler updates
    the 16-byte mouse buffer with 12 bytes, and the call returns. *)
Lemma Buffer_update_accepts_other_length :
  ~ (forall (this : Buffer) (data : buffer_data) (arr : list num) (d : Device),
       array_like data arr ->
       4 * length arr <> size this ->
       exists message, update webgpu_writeBuffer this data (Some d) = Throws message).
Proof.
  intros H.
  destruct (H the_mouseBuffer mouse_event_data mouse_event_floats device_with_mouse)
    as [message Hthrow].
  - reflexivity.
  - cbn. lia.
  - erewrite update_returns in Hthrow; [discriminate|reflexivity|reflexivity].
Qed.

Example mouse_update :
  update webgpu_writeBuffer the_mouseBuffer mouse_event_data (Some device_with_mouse)
  = Returns (with_data the_mouseBuffer mouse_event_floats,
             {| gpu_buffers := [{| gpu_size := 16;
                                   gpu_contents := mouse_event_floats ++ [Some 0%Z] |}];
                gpu_textures := [];
                submitted := [] |}).
Proof. reflexivity. Qed.

End BufferUpdateExamples.

(** ** Regular expressions: what the patterns of the sources match *)

Section RegexFacts.

Import Regex.

Lemma last_of_app (prev : option ascii) (a b : text) :
  last_of prev (a ++ b) = last_of (last_of prev a) b.
Proof. revert prev. induction a as [|c a IH]; intros prev; [reflexivity|]. apply IH. Qed.

Lemma strip_prefix_Some (w s rest : text) :
  strip_prefix w s = Some rest <-> s = w ++ rest.
Proof.
  revert s. induction w as [|a w IH]; intros s; cbn [strip_prefix app].
  - split; [intros [= ->]; reflexivity|intros ->; reflexivity].
  - destruct s as [|b s]; [split; discriminate|].
    destruct (Ascii.eqb_spec a b) as [->|Hne].
    + rewrite IH. split; [intros ->; reflexivity|intros [= ->]; reflexivity].
    + split; [discriminate|intros [= E _]; congruence].
Qed.

Lemma strip_prefix_app (w rest : text) : strip_prefix w (w ++ rest) = Some rest.
Proof. apply strip_prefix_Some. reflexivity. Qed.

(** A literal matches exactly when the text starts with it. *)
Lemma matches_lit (w : text) (prev : option ascii) (s : text) (k : continuation) :
  matches (lit w) prev s k
  = match strip_prefix w s with
    | Some rest => k (last_of prev w) rest
    | None => false
    end.
Proof.
  revert prev s. induction w as [|a w IH]; intros prev s; [reflexivity|].
  cbn [lit matches strip_prefix last_of]. destruct s as [|b s]; [reflexivity|].
  destruct (Ascii.eqb_spec a b) as [->|Hne]; [|reflexivity].
  cbn [andb]. apply IH.
Qed.

(** [search] finds a match at some cut of the text. *)
Lemma search_spec (r : regex) (prev : option ascii) (s : text) :
  search r prev s = true
  <-> exists pre post, s = pre ++ post /\ matches r (last_of prev pre) post accept = true.
Proof.
  revert prev. induction s as [|c s IH]; intros prev; cbn [search].
  - rewrite orb_false_r. split.
    + intros H. exists [], []. split; [reflexivity|exact H].
    + intros [pre [post [E H]]]. symmetry in E. apply app_eq_nil in E as [-> ->]. exact H.
  - rewrite orb_true_iff, IH. split.
    + intros [H|[pre [post [-> H]]]].
      * exists [], (c :: s). split; [reflexivity|exact H].
      * exists (c :: pre), post. split; [reflexivity|exact H].
    + intros [pre [post [E H]]]. destruct pre as [|c' pre].
      * left. cbn in E. subst post. exact H.
      * right. injection E as -> ->. exists pre, post. split; [reflexivity|exact H].
Qed.

Lemma last_of_word (prev : option ascii) (w : text) :
  w <> [] -> forallb is_word w = true -> is_word_before (last_of prev w) = true.
Proof.
  revert prev. induction w as [|c w IH]; intros prev Hne Hw; [congruence|].
  cbn [forallb] in Hw. apply andb_true_iff in Hw as [Hc Hw].
  cbn [last_of]. destruct w as [|c' w']; [exact Hc|].
  apply IH; [discriminate|exact Hw].
Qed.

(** Where [/\bw\b/] matches at the cursor. *)
Lemma matches_whole_word (w : text) (prev : option ascii) (s : text) :
  w <> [] -> forallb is_word w = true ->
  matches (whole_word w) prev s accept = true
  <-> exists rest, s = w ++ rest
                   /\ is_word_before prev = false /\ is_word_after rest = false.
Proof.
  intros Hne Hw. unfold whole_word. cbn [matches]. rewrite matches_lit.
  destruct (strip_prefix w s) as [rest|] eqn:E.
  - apply strip_prefix_Some in E. subst s.
    unfold at_boundary, accept. rewrite (last_of_word prev w Hne Hw).
    assert (Hfirst : is_word_after (w ++ rest) = true).
    { destruct w as [|c w]; [congruence|]. cbn in *. apply andb_true_iff in Hw. tauto. }
    rewrite Hfirst. split.
    + intros H. exists rest. split; [reflexivity|].
      destruct (is_word_before prev), (is_word_after rest); cbn in H; auto; discriminate.
    + intros [rest' [E [Hb Ha]]]. apply app_inv_head in E. subst rest'.
      rewrite Hb, Ha. reflexivity.
  - rewrite andb_false_r. split; [discriminate|].
    intros [rest [-> _]]. rewrite strip_prefix_app in E. discriminate.
Qed.

(** [/\bw\b/] tests true exactly on the texts where [w] stands as a
    whole word. *)
Lemma test_whole_word (w s : text) :
  w <> [] -> forallb is_word w = true ->
  test (whole_word w) s = true <-> occurs_as_word w s.
Proof.
  intros Hne Hw. unfold test, occurs_as_word. rewrite search_spec. split.
  - intros [pre [post [-> H]]]. apply (matches_whole_word w _ _ Hne Hw) in H.
    destruct H as [rest [-> [Hb Ha]]]. exists pre, rest. auto.
  - intros [pre [post [-> [Hb Ha]]]]. exists pre, (w ++ post). split; [reflexivity|].
    apply (matches_whole_word w _ _ Hne Hw). exists post. auto.
Qed.

Lemma search_ext (r1 r2 : regex) :
  (forall prev s, matches r1 prev s accept = matches r2 prev s accept) ->
  forall prev s, search r1 prev s = search r2 prev s.
Proof.
  intros H prev s. revert prev. induction s as [|c s IH]; intros prev; cbn [search].
  - rewrite H. reflexivity.
  - rewrite H, IH. reflexivity.
Qed.

End RegexFacts.

(** ** runPasses: one encoder, one submission *)

Section RunPasses.

Import Layout Core Passes.

Context {N : Numbers}.

Lemma run_object_recorded (invalid : string) (p : pass_object) (encoder : list command) :
  is_pass p -> run_object invalid p encoder = Returns (encoder ++ recorded p).
Proof. destruct p; cbn; intros H; [reflexivity|reflexivity|destruct H]. Qed.

Lemma run_group_recorded (ps : list pass_object) (encoder : list command) :
  Forall is_pass ps ->
  run_group ps encoder = Returns (encoder ++ concat (map recorded ps)).
Proof.
  intros H. revert encoder. induction H as [|p ps Hp _ IH]; intros encoder; cbn [run_group].
  - cbn. rewrite app_nil_r. reflexivity.
  - rewrite (run_object_recorded _ _ _ Hp). cbn [bind]. rewrite IH.
    cbn [map concat]. rewrite app_assoc. reflexivity.
Qed.

Lemma run_entries_recorded (passes : list pass_entry) (encoder : list command) :
  Forall is_pass (flatten passes) ->
  run_entries passes encoder = Returns (encoder ++ concat (map recorded (flatten passes))).
Proof.
  revert encoder. induction passes as [|e passes IH]; intros encoder H.
  - cbn. rewrite app_nil_r. reflexivity.
  - unfold flatten in H. cbn [map concat] in H. apply Forall_app in H as [He H].
    cbn [run_entries]. destruct e as [p|ps].
    + inversion He as [|? ? Hp _]; subst.
      rewrite (run_object_recorded _ _ _ Hp). cbn [bind]. rewrite (IH _ H).
      unfold flatten. cbn [map concat app]. rewrite ?map_app, ?concat_app.
      cbn [map concat]. rewrite ?app_nil_r, <- ?app_assoc. reflexivity.
    + rewrite (run_group_recorded _ _ He). cbn [bind]. rewrite (IH _ H).
      unfold flatten. cbn [map concat]. rewrite ?map_app, ?concat_app, <- ?app_assoc.
      reflexivity.
Qed.

Lemma run_repeats_recorded (repeats : nat) (passes : list pass_entry)
    (encoder : list command) :
  Forall is_pass (flatten passes) ->
  run_repeats repeats passes encoder
  = Returns (encoder
             ++ concat (repeat (concat (map recorded (flatten passes))) repeats)).
Proof.
  intros H. revert encoder. induction repeats as [|n IH]; intros encoder; cbn [run_repeats].
  - cbn. rewrite app_nil_r. reflexivity.
  - rewrite (run_entries_recorded _ _ H). cbn [bind]. rewrite IH.
    cbn [repeat concat]. rewrite app_assoc. reflexivity.
Qed.

(** C5.  On an initialized device, a list of passes whose elements and
    nested elements all have a [run] method is recorded pass after pass,
    nested Arrays in place, the whole sequence [repeats] times over, into
    one encoder, and the call adds exactly that encoder to the
    submissions.  What a pass records is one command: a compute pass the
    dispatch of its shader text and entry point with its bind group and its
    dispatch size, a render pass the draw of six vertices with its bind
    group.  For [[A, [B, C], D]] and one repeat the encoder holds the
    invocations of A, B, C and D in this order.  Whatever the list, the
    call either throws, and then nothing was submitted, or returns with
    exactly one submission more. *)
Theorem runPasses_one_submission (d : Device) (passes : list pass_entry) (repeats : nat) :
  Forall is_pass (flatten passes) ->
  runPasses (Some d) (PassList passes) repeats
  = Returns {| gpu_buffers := gpu_buffers d;
               gpu_textures := gpu_textures d;
               submitted := submitted d
                 ++ [concat (repeat (concat (map recorded (flatten passes))) repeats)] |}
  /\ (forall A B C D : pass_object,
        passes = [Pass A; Passes [B; C]; Pass D] ->
        runPasses (Some d) (PassList passes) 1
        = Returns {| gpu_buffers := gpu_buffers d;
                     gpu_textures := gpu_textures d;
                     submitted := submitted d
                       ++ [recorded A ++ recorded B ++ recorded C ++ recorded D] |})
  /\ (forall c : ComputePass,
        recorded (Compute c)
        = [Dispatch (string_of_list_ascii (Passes.code c)) (entryPoint c)
             (map handle_resource (bindGroup c)) (dispatchSize c)])
  /\ (forall r : RenderPass,
        recorded (Render r)
        = [Draw (string_of_list_ascii (render_code r)) (render_bindGroup r) 6])
  /\ (forall (any : passes_arg) (n : nat),
        (exists message, runPasses (Some d) any n = Throws message)
        \/ (exists encoder,
              runPasses (Some d) any n
              = Returns {| gpu_buffers := gpu_buffers d;
                           gpu_textures := gpu_textures d;
                           submitted := submitted d ++ [encoder] |})).
Proof.
  intros H. split; [|split; [|split; [|split]]].
  - unfold runPasses. rewrite (run_repeats_recorded _ _ _ H). reflexivity.
  - intros A B C D ->. unfold runPasses. rewrite (run_repeats_recorded _ _ _ H).
    cbn. rewrite !app_nil_r, <- ?app_assoc. reflexivity.
  - reflexivity.
  - reflexivity.
  - intros any n. unfold runPasses.
    destruct (run_repeats n _ []) as [encoder|message|] eqn:E; cbn [bind try_catch].
    + right. exists encoder. reflexivity.
    + left. eexists. reflexivity.
    + exfalso. revert E. generalize (@nil command).
      generalize (match any with PassList l => l | Lone p => [Pass p] end).
      intros l. induction n as [|n IH]; intros enc; cbn [run_repeats]; [discriminate|].
      assert (Hent : forall l enc, run_entries l enc <> Diverges).
      { clear. assert (Hgrp : forall ps enc, run_group ps enc <> Diverges).
        { induction ps as [|p ps IHp]; intros enc; cbn [run_group]; [discriminate|].
          destruct p; cbn; try apply IHp; discriminate. }
        induction l as [|e l IHl]; intros enc; cbn [run_entries]; [discriminate|].
        destruct e as [p|ps].
        - destruct p; cbn; try apply IHl; discriminate.
        - destruct (run_group ps enc) eqn:Eg; cbn; try apply IHl; try discriminate.
          exfalso. exact (Hgrp _ _ Eg). }
      destruct (run_entries l enc) eqn:Ee; cbn [bind]; try apply IH; try discriminate.
      intros _. exact (Hent _ _ Ee).
Qed.

End RunPasses.

(** ** The auto-binding resolver *)

Section AutoBindings.

Import Layout Core Regex Passes.

Context {N : Numbers}.

(** The member forms of the mouse pattern add nothing: after [mouse], a
    dot is already a word boundary. *)
Lemma mouse_pattern_is_whole_word (prev : option ascii) (s : text) :
  matches (auto_regex Mouse) prev s accept
  = matches (whole_word (t "mouse")) prev s accept.
Proof.
  unfold auto_regex, whole_word. cbn [matches]. f_equal.
  rewrite !matches_lit. destruct (strip_prefix (t "mouse") s) as [rest|]; [|reflexivity].
  cbn [last_of t list_ascii_of_string].
  destruct rest as [|c rest]; [reflexivity|].
  destruct (Ascii.eqb_spec "."%char c) as [<-|Hne].
  - cbn [andb]. unfold at_boundary at 3. cbn. apply orb_true_r.
  - reflexivity.
Qed.

Lemma test_mouse_pattern (code : text) :
  test (auto_regex Mouse) code = test (whole_word (t "mouse")) code.
Proof. apply search_ext. apply mouse_pattern_is_whole_word. Qed.

Lemma auto_regex_whole_word (w : well_known) (code : text) :
  test (auto_regex w) code = test (whole_word (identifier w)) code.
Proof. destruct w; [apply test_mouse_pattern|reflexivity..]. Qed.

(** A pattern of the table fires exactly on the texts that hold its
    identifier as a whole word. *)
Lemma auto_regex_fires (w : well_known) (code : text) :
  test (auto_regex w) code = true <-> occurs_as_word (identifier w) code.
Proof.
  rewrite auto_regex_whole_word. apply test_whole_word; destruct w; [discriminate..|reflexivity|reflexivity|reflexivity|reflexivity].
Qed.

Lemma inject_auto_pushed (g : Globals) (code : text) (bs bs' : list entry) (w : well_known) :
  inject_auto g code bs w = Returns bs' ->
  exists pushed, bs' = bs ++ pushed /\ sublist pushed (omap (fun w => One <$> auto_handle g w) [w]).
Proof.
  unfold inject_auto. destruct (test (auto_regex w) code).
  - destruct (auto_name g w) as [name|]; [|discriminate].
    destruct (auto_handle g w) as [h|] eqn:Eh; [|discriminate].
    destruct (named name bs); intros [= <-].
    + exists []. rewrite app_nil_r. split; [reflexivity|apply sublist_nil_l].
    + exists [One h]. split; [reflexivity|]. cbn. rewrite Eh. reflexivity.
  - intros [= <-]. exists []. rewrite app_nil_r. split; [reflexivity|apply sublist_nil_l].
Qed.

Lemma inject_all_pushed (g : Globals) (code : text) (table : list well_known) :
  forall (bs bs' : list entry),
    inject_all g code bs table = Returns bs' ->
    exists pushed,
      bs' = bs ++ pushed /\ sublist pushed (omap (fun w => One <$> auto_handle g w) table).
Proof.
  induction table as [|w table IH]; intros bs bs'; cbn [inject_all].
  - intros [= <-]. exists []. rewrite app_nil_r. split; [reflexivity|constructor].
  - destruct (inject_auto g code bs w) as [bs1| |] eqn:E1; cbn [bind]; try discriminate.
    intros H. apply inject_auto_pushed in E1 as [p1 [-> Hp1]].
    apply IH in H as [p2 [-> Hp2]].
    exists (p1 ++ p2). rewrite app_assoc. split; [reflexivity|].
    change (w :: table) with ([w] ++ table). rewrite omap_app.
    apply sublist_app; assumption.
Qed.

(** What the constructor pushes is a sub-sequence of: the pointer state,
    the clock, the write view of the output surface, the read view of the
    feedback surface, the noise buffer, each listed once. *)
Lemma finalize_pushed (g : Globals) (code : text) (bs bs' : list entry) :
  finalize g code bs = Returns bs' ->
  exists pushed, bs' = bs ++ pushed /\ sublist pushed (candidates g).
Proof.
  unfold finalize. destruct (inject_all g code bs Auto_Bindings) as [bs1| |] eqn:E1;
    cbn [bind]; try discriminate.
  intros [= <-]. apply inject_all_pushed in E1 as [p1 [-> Hp1]].
  unfold inject_noise, candidates. destruct (test noise_call code).
  - destruct (noiseBuffer g) as [nb|].
    + exists (p1 ++ [One (BufferHandle nb)]). rewrite app_assoc. split; [reflexivity|].
      apply sublist_app; [exact Hp1|reflexivity].
    + exists p1. split; [reflexivity|]. rewrite app_nil_r. exact Hp1.
  - exists p1. split; [reflexivity|]. apply sublist_inserts_r. exact Hp1.
Qed.

Lemma initialized_auto (g : Globals) (w : well_known) :
  initialized g -> is_Some (auto_name g w) /\ is_Some (auto_handle g w).
Proof.
  intros [_ [[mb Hm] [[tb Ht] [[rt Hr] [ft Hf]]]]].
  destruct w; cbn; rewrite ?Hm, ?Ht, ?Hr, ?Hf; cbn; split; eexists; reflexivity.
Qed.

Lemma inject_all_returns (g : Globals) (code : text) (table : list well_known) :
  initialized g ->
  forall bs, exists bs', inject_all g code bs table = Returns bs'.
Proof.
  intros Hg. induction table as [|w table IH]; intros bs; cbn [inject_all].
  - eexists. reflexivity.
  - destruct (initialized_auto g w Hg) as [[name Hn] [h Hh]].
    unfold inject_auto. rewrite Hn, Hh.
    destruct (test (auto_regex w) code); [destruct (named name bs)|]; cbn [bind]; apply IH.
Qed.

(** With every well-known resource created, the resolver returns. *)
Lemma finalize_returns (g : Globals) (code : text) (bs : list entry) :
  initialized g -> exists bs', finalize g code bs = Returns bs'.
Proof.
  intros Hg. unfold finalize.
  destruct (inject_all_returns g code Auto_Bindings Hg bs) as [bs1 ->].
  cbn [bind]. eexists. reflexivity.
Qed.

End AutoBindings.

(** ** The ComputePass constructor *)

Section Constructor.

Import Layout Core Regex Passes.

Context {N : Numbers}.

Lemma sublist_Forall_l {A : Type} (P : A -> Prop) (l1 l2 : list A) :
  sublist l1 l2 -> Forall P l2 -> Forall P l1.
Proof.
  induction 1 as [|x l1 l2 _ IH|x l1 l2 _ IH]; intros H.
  - constructor.
  - inversion H; subst. constructor; auto.
  - inversion H; subst. auto.
Qed.

Lemma candidates_single (g : Globals) :
  Forall (fun e => is_chunks e = false) (candidates g).
Proof.
  unfold candidates. apply Forall_app. split.
  - induction Auto_Bindings as [|w table IH]; [constructor|].
    cbn [omap list_omap]. destruct (auto_handle g w); cbn [fmap option_fmap option_map].
    + constructor; [reflexivity|exact IH].
    + exact IH.
  - destruct (noiseBuffer g); repeat constructor.
Qed.

Lemma chunk_entries_app (a b : list entry) :
  chunk_entries (a ++ b) = chunk_entries a + chunk_entries b.
Proof. unfold chunk_entries. rewrite List.filter_app, length_app. reflexivity. Qed.

Lemma chunk_entries_single (l : list entry) :
  Forall (fun e => is_chunks e = false) l -> chunk_entries l = 0.
Proof.
  induction 1 as [|e l He _ IH]; [reflexivity|].
  unfold chunk_entries in *. cbn [List.filter]. rewrite He. exact IH.
Qed.

(** The resolver pushes handles only: the Arrays of the list are those
    the caller put there. *)
Lemma finalize_chunk_entries (g : Globals) (code : text) (bs bs' : list entry) :
  finalize g code bs = Returns bs' -> chunk_entries bs' = chunk_entries bs.
Proof.
  intros H. apply finalize_pushed in H as [pushed [-> Hsub]].
  rewrite chunk_entries_app, (chunk_entries_single pushed); [lia|].
  exact (sublist_Forall_l _ _ _ Hsub (candidates_single g)).
Qed.

Lemma find_chunks_Some (bs : list entry) (i j : nat) (hs : list handle) :
  find_chunks bs i = Some (j, hs) ->
  exists k, j = i + k /\ bs !! k = Some (Chunks hs)
            /\ chunk_entries (take k bs) = 0.
Proof.
  revert i. induction bs as [|e bs IH]; intros i; cbn [find_chunks]; [discriminate|].
  destruct e as [h|hs'].
  - intros H. apply IH in H as [k [-> [Hk Hz]]]. exists (S k).
    split; [lia|]. split; [exact Hk|]. exact Hz.
  - intros [= <- <-]. exists 0. split; [lia|]. split; reflexivity.
Qed.

Lemma find_chunks_None (bs : list entry) (i : nat) :
  chunk_entries bs = 0 -> find_chunks bs i = None.
Proof.
  revert i. induction bs as [|e bs IH]; intros i H; [reflexivity|].
  destruct e as [h|hs]; [|discriminate]. cbn [find_chunks]. apply IH. exact H.
Qed.

Lemma chunk_entries_replace (bs : list entry) (k : nat) (hs : list handle) (h : handle) :
  bs !! k = Some (Chunks hs) ->
  S (chunk_entries (<[k := One h]> bs)) = chunk_entries bs.
Proof.
  revert k. induction bs as [|e bs IH]; intros k; [discriminate|].
  destruct k as [|k].
  - intros [= ->]. reflexivity.
  - intros H. change ((e :: bs) !! S k) with (bs !! k) in H.
    change (<[S k := One h]> (e :: bs)) with (e :: <[k := One h]> bs).
    apply IH in H. unfold chunk_entries in *. cbn [List.filter].
    destruct (is_chunks e); cbn [length]; lia.
Qed.

Lemma build_pass_returns (g : Globals) (code : text) (bs : list entry)
    (dispatch : dispatch_arg) (entry_point : string) :
  is_Some (device g) ->
  exists p,
    build_pass g code bs dispatch entry_point = Returns p
    /\ bindGroup p = handles bs
    /\ dispatchSize p = match dispatch with
                        | Scalar n => [n]
                        | Vector ns => ns
                        end
    /\ entryPoint p = entry_point.
Proof.
  intros [d Hd]. unfold build_pass. rewrite Hd. eexists. repeat split.
Qed.

(** The calls of the constructor for the chunks: each appends its copy of
    the list to the heap and leaves the rest of the heap alone. *)
Lemma fan_out_returns (g : Globals) (code : text) (bound : nat)
    (construct : nat -> dispatch_arg -> list (list entry)
                 -> outcome (constructed * list (list entry)))
    (loc idx : nat) (final : list entry) (chunk : list handle) (base : list (list entry)) :
  (forall l d H current,
      H !! l = Some current -> chunk_entries current < bound ->
      exists r extra fin,
        finalize g code current = Returns fin
        /\ construct l d H = Returns (r, <[l := fin]> H ++ extra)) ->
  final !! idx = Some (Chunks chunk) ->
  chunk_entries final <= bound ->
  base !! loc = Some final ->
  forall (hs : list handle) (extra0 : list (list entry)),
    exists rs extra1,
      fan_out construct loc idx hs (base ++ extra0) = Returns (rs, base ++ extra1)
      /\ length rs = length hs.
Proof.
  intros Hc Hidx Hbound Hloc. induction hs as [|b hs IH]; intros extra0; cbn [fan_out].
  - exists [], extra0. split; reflexivity.
  - rewrite (lookup_app_l base extra0 loc (lookup_lt_Some _ _ _ Hloc)), Hloc.
    set (nb := <[idx := One b]> final).
    destruct (Hc (length (base ++ extra0)) (Scalar (handle_count b))
                ((base ++ extra0) ++ [nb]) nb) as [r [extra [fin [_ Hr]]]].
    + apply list_lookup_middle. reflexivity.
    + pose proof (chunk_entries_replace final idx chunk b Hidx). fold nb in H. lia.
    + rewrite Hr. cbn [bind fst snd].
      rewrite insert_app_r_alt, Nat.sub_diag by lia. cbn [insert list_insert].
      rewrite <- !app_assoc.
      destruct (IH (extra0 ++ [fin] ++ extra)) as [rs [extra1 [Hrs Hlen]]].
      rewrite Hrs. cbn [bind fst snd]. exists (r :: rs), extra1.
      split; [reflexivity|]. cbn [length]. rewrite Hlen. reflexivity.
Qed.

(** With every well-known resource created and fuel for one call per
    Array entry and one more, the constructor returns; the caller's Array
    then holds the finalized list, and the heap has grown by the copies
    made for the chunks. *)
Lemma new_ComputePass_fuel_returns (g : Globals) (code : text) (entry_point : string) :
  initialized g ->
  forall (fuel loc : nat) (d : dispatch_arg) (heap : list (list entry)) (explicit : list entry),
    heap !! loc = Some explicit ->
    chunk_entries explicit < fuel ->
    exists r extra final,
      finalize g code explicit = Returns final
      /\ new_ComputePass_fuel fuel g code loc d entry_point heap
         = Returns (r, <[loc := final]> heap ++ extra).
Proof.
  intros Hg. induction fuel as [|fuel IH]; intros loc d heap explicit Hloc Hfuel; [lia|].
  cbn [new_ComputePass_fuel]. rewrite Hloc.
  destruct (finalize_returns g code explicit Hg) as [final Hfin].
  rewrite Hfin. cbn [bind].
  pose proof (finalize_chunk_entries _ _ _ _ Hfin) as Hce.
  destruct (find_chunks final 0) as [[idx chunk]|] eqn:Efind.
  - apply find_chunks_Some in Efind as [k [-> [Hk _]]]. cbn [Nat.add].
    destruct (fan_out_returns g code fuel
                (fun l d H => new_ComputePass_fuel fuel g code l d entry_point H)
                loc k final chunk (<[loc := final]> heap)) with (hs := chunk) (extra0 := @nil (list entry))
      as [rs [extra1 [Hrs _]]].
    + intros l d' H current Hl Hlt. exact (IH l d' H current Hl Hlt).
    + exact Hk.
    + lia.
    + apply list_lookup_insert_eq. exact (lookup_lt_Some _ _ _ Hloc).
    + rewrite app_nil_r in Hrs. rewrite Hrs. cbn [bind fst snd].
      exists (PassArray rs), extra1, final. split; reflexivity.
  - destruct Hg as [Hdev _].
    destruct (build_pass_returns g code final d entry_point Hdev) as [p [Hp _]].
    rewrite Hp. cbn [bind]. exists (OnePass p), [], final.
    rewrite app_nil_r. split; reflexivity.
Qed.

Lemma new_ComputePass_returns (g : Globals) (code : text) (loc : nat) (d : dispatch_arg)
    (entry_point : string) (heap : list (list entry)) (explicit : list entry) :
  initialized g ->
  heap !! loc = Some explicit ->
  exists r extra final,
    finalize g code explicit = Returns final
    /\ new_ComputePass g code loc d entry_point heap
       = Returns (r, <[loc := final]> heap ++ extra).
Proof.
  intros Hg Hloc. unfold new_ComputePass. rewrite Hloc.
  apply (new_ComputePass_fuel_returns g code entry_point Hg _ loc d heap explicit Hloc). lia.
Qed.

End Constructor.

(** ** What the constructor does to the caller's list *)

Section CallersList.

Import Layout Core Regex Passes.

Context {N : Numbers}.

Lemma named_app (name : string) (a b : list entry) :
  named name (a ++ b) = named name a || named name b.
Proof. apply existsb_app. Qed.

Lemma auto_handle_name (g : Globals) (w : well_known) (name : string) (h : handle) :
  auto_name g w = Some name -> auto_handle g w = Some h -> handle_name h = name.
Proof.
  destruct w; cbn;
    [destruct (mouseBuffer g)|destruct (timeBuffer g)
     |destruct (renderTxtr g)|destruct (feedbackTxtr g)];
    cbn; intros [= <-] [= <-]; reflexivity.
Qed.

Lemma inject_auto_named (g : Globals) (code : text) (bs bs' : list entry) (w : well_known) :
  inject_auto g code bs w = Returns bs' ->
  test (auto_regex w) code = true ->
  exists name, auto_name g w = Some name /\ named name bs' = true.
Proof.
  unfold inject_auto. intros H Ht. rewrite Ht in H.
  destruct (auto_name g w) as [name|] eqn:En; [|discriminate].
  destruct (auto_handle g w) as [h|] eqn:Eh; [|discriminate].
  exists name. split; [reflexivity|].
  destruct (named name bs) eqn:Enamed; injection H as <-; [exact Enamed|].
  rewrite named_app. cbn. rewrite (auto_handle_name _ _ _ _ En Eh).
  rewrite bool_decide_eq_true_2 by reflexivity. apply orb_true_r.
Qed.

Lemma inject_all_named (g : Globals) (code : text) (table : list well_known) :
  forall (bs bs' : list entry),
    inject_all g code bs table = Returns bs' ->
    forall w, In w table -> test (auto_regex w) code = true ->
      exists name, auto_name g w = Some name /\ named name bs' = true.
Proof.
  induction table as [|w0 table IH]; intros bs bs' H w Hin Ht; [destruct Hin|].
  cbn [inject_all] in H.
  destruct (inject_auto g code bs w0) as [bs1| |] eqn:E1; cbn [bind] in H; try discriminate.
  destruct Hin as [->|Hin].
  - destruct (inject_auto_named _ _ _ _ _ E1 Ht) as [name [Hn Hnamed]].
    exists name. split; [exact Hn|].
    apply inject_all_pushed in H as [pushed [-> _]].
    rewrite named_app, Hnamed. reflexivity.
  - exact (IH _ _ H w Hin Ht).
Qed.

(** After the resolver, every well-known resource that the text mentions
    is in the list, or an entry of the same name is. *)
Lemma finalize_named (g : Globals) (code : text) (bs final : list entry) (w : well_known) :
  finalize g code bs = Returns final ->
  test (auto_regex w) code = true ->
  exists name, auto_name g w = Some name /\ named name final = true.
Proof.
  unfold finalize. destruct (inject_all g code bs Auto_Bindings) as [bs1| |] eqn:E1;
    cbn [bind]; try discriminate.
  intros [= <-] Ht.
  destruct (inject_all_named _ _ _ _ _ E1 w) as [name [Hn Hnamed]]; [|exact Ht|].
  { destruct w; cbn; auto. }
  exists name. split; [exact Hn|].
  unfold inject_noise. destruct (test noise_call code); [|exact Hnamed].
  destruct (noiseBuffer g); [|exact Hnamed].
  rewrite named_app, Hnamed. reflexivity.
Qed.

(** The noise buffer goes last, whatever the list holds already. *)
Lemma finalize_noise_last (g : Globals) (code : text) (bs final : list entry) (nb : Buffer) :
  finalize g code bs = Returns final ->
  test noise_call code = true ->
  noiseBuffer g = Some nb ->
  last final = Some (One (BufferHandle nb)).
Proof.
  unfold finalize. destruct (inject_all g code bs Auto_Bindings) as [bs1| |];
    cbn [bind]; try discriminate.
  intros [= <-] Ht Hn. unfold inject_noise. rewrite Ht, Hn. apply last_snoc.
Qed.

(** C10.  With every well-known resource created, the constructor returns
    and the Array that the caller passed holds the finalized list: the
    caller's entries followed by what was pushed, a sub-sequence of pointer
    state, clock, output view, feedback view and noise buffer.  Every
    well-known resource that the text mentions is then in the caller's
    Array under its name, and the noise buffer is its last entry when the
    text calls a noise function and the buffer exists.  A second
    construction on the same Array starts from this longer list. *)
Theorem ComputePass_grows_callers_list (g : Globals) (code : text) (loc : nat)
    (d : dispatch_arg) (entry_point : string) (heap : list (list entry))
    (explicit : list entry) :
  initialized g ->
  heap !! loc = Some explicit ->
  exists (r : constructed) (heap' : list (list entry)) (final pushed : list entry),
    new_ComputePass g code loc d entry_point heap = Returns (r, heap')
    /\ heap' !! loc = Some final
    /\ finalize g code explicit = Returns final
    /\ final = explicit ++ pushed
    /\ sublist pushed (candidates g)
    /\ (forall w, test (auto_regex w) code = true ->
          exists name, auto_name g w = Some name /\ named name final = true)
    /\ (forall nb, test noise_call code = true -> noiseBuffer g = Some nb ->
          last final = Some (One (BufferHandle nb)))
    /\ (forall (code2 : text) (d2 : dispatch_arg) (entry_point2 : string),
          exists (r2 : constructed) (heap'' : list (list entry)) (final2 : list entry),
            new_ComputePass g code2 loc d2 entry_point2 heap' = Returns (r2, heap'')
            /\ finalize g code2 final = Returns final2
            /\ heap'' !! loc = Some final2).
Proof.
  intros Hg Hloc.
  destruct (new_ComputePass_returns g code loc d entry_point heap explicit Hg Hloc)
    as [r [extra [final [Hfin Hnew]]]].
  destruct (finalize_pushed _ _ _ _ Hfin) as [pushed [Hpushed Hsub]].
  assert (Hlt : loc < length heap) by exact (lookup_lt_Some _ _ _ Hloc).
  assert (Hloc' : (<[loc := final]> heap ++ extra) !! loc = Some final).
  { rewrite lookup_app_l by (rewrite length_insert; exact Hlt).
    apply list_lookup_insert_eq. exact Hlt. }
  exists r, (<[loc := final]> heap ++ extra), final, pushed.
  split; [exact Hnew|]. split; [exact Hloc'|]. split; [exact Hfin|].
  split; [exact Hpushed|]. split; [exact Hsub|]. split; [|split].
  - intros w Ht. exact (finalize_named _ _ _ _ _ Hfin Ht).
  - intros nb Ht Hn. exact (finalize_noise_last _ _ _ _ _ Hfin Ht Hn).
  - intros code2 d2 entry_point2.
    destruct (new_ComputePass_returns g code2 loc d2 entry_point2 _ final Hg Hloc')
      as [r2 [extra2 [final2 [Hfin2 Hnew2]]]].
    exists r2, (<[loc := final2]> (<[loc := final]> heap ++ extra) ++ extra2), final2.
    split; [exact Hnew2|]. split; [exact Hfin2|].
    rewrite lookup_app_l by (rewrite length_insert, length_app, length_insert; lia).
    apply list_lookup_insert_eq. rewrite length_app, length_insert. lia.
Qed.

End CallersList.

(** ** The resolver on texts *)

Section Resolver.

Import Layout Core Regex Passes.

Context {N : Numbers}.

Lemma inject_auto_silent (g : Globals) (code : text) (bs : list entry) (w : well_known) :
  test (auto_regex w) code = false -> inject_auto g code bs w = Returns bs.
Proof. unfold inject_auto. intros ->. reflexivity. Qed.

(** C2, as the code has it.  When the text holds [time] as a whole word,
    none of [mouse], [renderTxtr], [feedbackTxtr] as a whole word and no
    call of a noise function, an empty explicit list is finalized to the
    clock buffer alone, which a constructed pass binds at slot 0.  The
    mouse pattern fires on exactly the texts on which [/\bmouse\b/] fires,
    so on every text with [mouse.pos] behind a word boundary.  Whatever the
    text, what the resolver appends is a sub-sequence of pointer state,
    clock, output view, feedback view, noise buffer: no resource of the
    table is appended twice.  A pattern of the table fires only on a text
    that holds its identifier with no word character before or after
    it. *)
Theorem auto_bindings_resolved (g : Globals) (code : text) (tb : Buffer) :
  timeBuffer g = Some tb ->
  test (auto_regex Time) code = true ->
  test (auto_regex Mouse) code = false ->
  test (auto_regex RenderTxtr) code = false ->
  test (auto_regex FeedbackTxtr) code = false ->
  test noise_call code = false ->
  finalize g code [] = Returns [One (BufferHandle tb)]
  /\ (forall (heap : list (list entry)) (loc : nat) (d : dispatch_arg) (entry_point : string),
        is_Some (device g) -> heap !! loc = Some [] ->
        exists p,
          new_ComputePass g code loc d entry_point heap
          = Returns (OnePass p, <[loc := [One (BufferHandle tb)]]> heap)
          /\ bindGroup p = [BufferHandle tb])
  /\ (forall text, test (auto_regex Mouse) text = test (whole_word (t "mouse")) text)
  /\ (forall pre post,
        is_word_before (last_of None pre) = false ->
        test (auto_regex Mouse) (pre ++ t "mouse.pos" ++ post) = true)
  /\ (forall text bs final,
        finalize g text bs = Returns final ->
        exists pushed, final = bs ++ pushed /\ sublist pushed (candidates g))
  /\ (forall w text, test (auto_regex w) text = true -> occurs_as_word (identifier w) text).
Proof.
  intros Htb Htime Hmouse Hrender Hfeedback Hnoise.
  assert (Hfin : finalize g code [] = Returns [One (BufferHandle tb)]).
  { unfold finalize, Auto_Bindings. cbn [inject_all].
    rewrite (inject_auto_silent _ _ _ Mouse Hmouse). cbn [bind].
    unfold inject_auto at 1. rewrite Htime. cbn [auto_name auto_handle].
    rewrite Htb. cbn [fmap option_fmap option_map named existsb app bind].
    rewrite (inject_auto_silent _ _ _ RenderTxtr Hrender). cbn [bind].
    rewrite (inject_auto_silent _ _ _ FeedbackTxtr Hfeedback). cbn [bind].
    unfold inject_noise. rewrite Hnoise. reflexivity. }
  split; [exact Hfin|]. split; [|split; [|split; [|split]]].
  - intros heap loc d entry_point Hdev Hloc. unfold new_ComputePass. rewrite Hloc.
    cbn [chunk_entries List.filter length new_ComputePass_fuel]. rewrite Hloc, Hfin.
    cbn [bind find_chunks].
    destruct (build_pass_returns g code [One (BufferHandle tb)] d entry_point Hdev)
      as [p [Hp [Hbind _]]].
    rewrite Hp. cbn [bind]. exists p. split; [reflexivity|exact Hbind].
  - apply test_mouse_pattern.
  - intros pre post Hpre. apply auto_regex_fires. exists pre, (t ".pos" ++ post).
    split; [reflexivity|]. split; [exact Hpre|reflexivity].
  - intros text bs final. apply finalize_pushed.
  - intros w text. apply auto_regex_fires.
Qed.

End Resolver.

Section ResolverExamples.

Import Layout Core Regex Passes Samples.

#[local] Existing Instance IntNumbers.

Lemma session_initialized : initialized session.
Proof. repeat split; eexists; reflexivity. Qed.

Lemma session_with_noise_initialized : initialized session_with_noise.
Proof. repeat split; eexists; reflexivity. Qed.

(** The text [let s = sin(time);] and an empty list. *)
Lemma auto_bindings_resolved_witness :
  finalize session clock_shader [] = Returns [One (BufferHandle the_timeBuffer)]
  /\ (forall (heap : list (list entry)) (loc : nat) (d : dispatch_arg) (entry_point : string),
        is_Some (device session) -> heap !! loc = Some [] ->
        exists p,
          new_ComputePass session clock_shader loc d entry_point heap
          = Returns (OnePass p, <[loc := [One (BufferHandle the_timeBuffer)]]> heap)
          /\ bindGroup p = [BufferHandle the_timeBuffer])
  /\ (forall text, test (auto_regex Mouse) text = test (whole_word (t "mouse")) text)
  /\ (forall pre post,
        is_word_before (last_of None pre) = false ->
        test (auto_regex Mouse) (pre ++ t "mouse.pos" ++ post) = true)
  /\ (forall text bs final,
        finalize session text bs = Returns final ->
        exists pushed, final = bs ++ pushed /\ sublist pushed (candidates session))
  /\ (forall w text, test (auto_regex w) text = true -> occurs_as_word (identifier w) text).
Proof.
  apply (auto_bindings_resolved session clock_shader the_timeBuffer); reflexivity.
Defined.

(** C2 as it is written promises the clock alone for every text that
    mentions [time].  A text that also mentions [mouse] gets the pointer
    state at slot 0 and the clock at slot 1. *)
Lemma clock_is_not_alone :
  ~ (forall (g : Globals) (code : text) (tb : Buffer),
       initialized g ->
       timeBuffer g = Some tb ->
       test (auto_regex Time) code = true ->
       finalize g code [] = Returns [One (BufferHandle tb)]).
Proof.
  intros H.
  pose proof (H session pointer_clock_shader the_timeBuffer session_initialized
                eq_refl eq_refl) as Hfin.
  assert (E : finalize session pointer_clock_shader []
              = Returns [One (BufferHandle the_mouseBuffer);
                         One (BufferHandle the_timeBuffer)]) by reflexivity.
  rewrite E in Hfin. discriminate.
Qed.

Example partial_identifiers_do_not_fire :
  map (fun w => test (auto_regex w) (t "let timestamp = mouse_x + renderTxtr2 + myfeedbackTxtr;"))
      Auto_Bindings
  = [false; false; false; false].
Proof. reflexivity. Qed.

Example both_mouse_forms_push_once :
  finalize session (t "let a = mouse; let b = mouse.pos; let c = mouse.button;") []
  = Returns [One (BufferHandle the_mouseBuffer)].
Proof. reflexivity. Qed.

(** [runPasses([A, [B, C], D])] on the sample session. *)
Lemma runPasses_one_submission_witness :
  runPasses (Some session_device) (PassList [Pass pass_A; Passes [pass_B; pass_C]; Pass pass_D]) 1
  = Returns {| gpu_buffers := gpu_buffers session_device;
               gpu_textures := gpu_textures session_device;
               submitted := submitted session_device
                 ++ [concat (repeat (concat (map recorded
                       (flatten [Pass pass_A; Passes [pass_B; pass_C]; Pass pass_D]))) 1)] |}
  /\ (forall A B C D : pass_object,
        [Pass pass_A; Passes [pass_B; pass_C]; Pass pass_D] = [Pass A; Passes [B; C]; Pass D] ->
        runPasses (Some session_device)
          (PassList [Pass pass_A; Passes [pass_B; pass_C]; Pass pass_D]) 1
        = Returns {| gpu_buffers := gpu_buffers session_device;
                     gpu_textures := gpu_textures session_device;
                     submitted := submitted session_device
                       ++ [recorded A ++ recorded B ++ recorded C ++ recorded D] |})
  /\ (forall c : ComputePass,
        recorded (Compute c)
        = [Dispatch (string_of_list_ascii (Passes.code c)) (entryPoint c)
             (map handle_resource (bindGroup c)) (dispatchSize c)])
  /\ (forall r : RenderPass,
        recorded (Render r)
        = [Draw (string_of_list_ascii (render_code r)) (render_bindGroup r) 6])
  /\ (forall (any : passes_arg) (n : nat),
        (exists message, runPasses (Some session_device) any n = Throws message)
        \/ (exists encoder,
              runPasses (Some session_device) any n
              = Returns {| gpu_buffers := gpu_buffers session_device;
                           gpu_textures := gpu_textures session_device;
                           submitted := submitted session_device ++ [encoder] |})).
Proof.
  apply (runPasses_one_submission session_device
           [Pass pass_A; Passes [pass_B; pass_C]; Pass pass_D] 1).
  repeat constructor.
Defined.

(** The unit of work that [runPasses([A, [B, C], D], 2)] submits: three
    dispatches and a draw, twice. *)
Example runPasses_twice_records_commands :
  runPasses (Some session_device) (PassList [Pass pass_A; Passes [pass_B; pass_C]; Pass pass_D]) 2
  = Returns {| gpu_buffers := gpu_buffers session_device;
               gpu_textures := gpu_textures session_device;
               submitted :=
                 [[Dispatch "A" "main" [GPUBufferBinding 6] [Some 1];
                   Dispatch "B" "main" [GPUBufferBinding 6] [Some 2];
                   Dispatch "C" "main" [GPUBufferBinding 6] [Some 3];
                   Draw "D" [GPUSampler; GPUTextureView 0] 6;
                   Dispatch "A" "main" [GPUBufferBinding 6] [Some 1];
                   Dispatch "B" "main" [GPUBufferBinding 6] [Some 2];
                   Dispatch "C" "main" [GPUBufferBinding 6] [Some 3];
                   Draw "D" [GPUSampler; GPUTextureView 0] 6]] |}.
Proof. reflexivity. Qed.

Example invalid_pass_submits_nothing :
  runPasses (Some session_device) (PassList [Pass pass_A; Passes [pass_B; NotAPass]]) 1
  = Throws "Failed to run passes: Invalid pass object in array".
Proof. reflexivity. Qed.

(** A construction on the sample session with an empty list. *)
Lemma ComputePass_grows_callers_list_witness :
  exists (r : constructed) (heap' : list (list entry)) (final pushed : list entry),
    new_ComputePass session pointer_clock_shader 0 (Vector [Some 512; Some 512]) "main" [[]]
    = Returns (r, heap')
    /\ heap' !! 0 = Some final
    /\ finalize session pointer_clock_shader [] = Returns final
    /\ final = [] ++ pushed
    /\ sublist pushed (candidates session)
    /\ (forall w, test (auto_regex w) pointer_clock_shader = true ->
          exists name, auto_name session w = Some name /\ named name final = true)
    /\ (forall nb, test noise_call pointer_clock_shader = true ->
          noiseBuffer session = Some nb ->
          last final = Some (One (BufferHandle nb)))
    /\ (forall (code2 : text) (d2 : dispatch_arg) (entry_point2 : string),
          exists (r2 : constructed) (heap'' : list (list entry)) (final2 : list entry),
            new_ComputePass session code2 0 d2 entry_point2 heap' = Returns (r2, heap'')
            /\ finalize session code2 final = Returns final2
            /\ heap'' !! 0 = Some final2).
Proof.
  apply (ComputePass_grows_callers_list session pointer_clock_shader 0 (Vector [Some 512; Some 512])
           "main" [[]] []).
  - exact session_initialized.
  - reflexivity.
Defined.

(** The same Array used for two noise shaders holds the noise buffer
    twice. *)
Example reused_list_grows_again :
  (r1 <- new_ComputePass session_with_noise noise_shader 0 (Scalar (Some 1)) "main" [[]] ;;
   r2 <- new_ComputePass session_with_noise noise_shader 0 (Scalar (Some 1)) "main" (snd r1) ;;
   Returns (snd r2 !! 0))
  = Returns (Some [One (BufferHandle the_noiseBuffer); One (BufferHandle the_noiseBuffer)]).
Proof. reflexivity. Qed.

End ResolverExamples.

(** ** Fan-out over the chunks of a split buffer *)

Section FanOut.

Import Layout Core Regex Passes.

Context {N : Numbers}.

Lemma auto_name_handle (g : Globals) (w : well_known) (name : string) :
  auto_name g w = Some name -> is_Some (auto_handle g w).
Proof.
  destruct w; cbn;
    [destruct (mouseBuffer g)|destruct (timeBuffer g)
     |destruct (renderTxtr g)|destruct (feedbackTxtr g)];
    cbn; intros [= <-]; eexists; reflexivity.
Qed.

Lemma named_substituted (name : string) (pre post : list entry)
    (chunk : list handle) (h : handle) :
  named name (pre ++ Chunks chunk :: post) = true ->
  named name (pre ++ One h :: post) = true.
Proof.
  rewrite !named_app. cbn [named existsb entry_name].
  rewrite (bool_decide_eq_false_2 (None = Some name)) by discriminate.
  cbn [orb]. intros H. apply orb_true_iff in H as [->|H]; [reflexivity|].
  fold (named name post) in *. rewrite H, !orb_true_r. reflexivity.
Qed.

(** On the copy made for a chunk the resolver finds every resource that
    the text mentions already there; only the noise buffer, which is
    pushed without a look at the list, can come again. *)
Lemma finalize_on_copy (g : Globals) (code : text) (explicit pre post : list entry)
    (chunk : list handle) (h : handle) :
  finalize g code explicit = Returns (pre ++ Chunks chunk :: post) ->
  finalize g code (pre ++ One h :: post)
  = Returns (inject_noise g code (pre ++ One h :: post)).
Proof.
  intros Hfin. unfold finalize.
  assert (Hall : forall table, inject_all g code (pre ++ One h :: post) table
                               = Returns (pre ++ One h :: post)).
  { induction table as [|w table IH]; [reflexivity|]. cbn [inject_all].
    assert (Hw : inject_auto g code (pre ++ One h :: post) w = Returns (pre ++ One h :: post)).
    { unfold inject_auto. destruct (test (auto_regex w) code) eqn:Ht; [|reflexivity].
      destruct (finalize_named _ _ _ _ w Hfin Ht) as [name [Hn Hnamed]].
      destruct (auto_name_handle _ _ _ Hn) as [hw Hh]. rewrite Hn, Hh.
      rewrite (named_substituted _ _ _ _ h Hnamed). reflexivity. }
    rewrite Hw. cbn [bind]. exact IH. }
  rewrite Hall. reflexivity.
Qed.

Lemma find_chunks_middle (pre post : list entry) (chunk : list handle) (i : nat) :
  chunk_entries pre = 0 ->
  find_chunks (pre ++ Chunks chunk :: post) i = Some (i + length pre, chunk).
Proof.
  revert i. induction pre as [|e pre IH]; intros i H.
  - cbn. rewrite Nat.add_0_r. reflexivity.
  - destruct e as [h|hs]; [|discriminate]. cbn [app find_chunks length].
    rewrite IH by exact H. f_equal. f_equal. lia.
Qed.

Lemma handles_app (a b : list entry) : handles (a ++ b) = handles a ++ handles b.
Proof.
  induction a as [|e a IH]; [reflexivity|]. destruct e; cbn [app handles]; rewrite IH; reflexivity.
Qed.

(** The pass that the constructor builds for one chunk when the text
    calls no noise function with a noise buffer around. *)
Lemma chunk_pass (g : Globals) (code : text) (entry_point : string)
    (explicit pre post : list entry) (chunk : list handle) (h : handle)
    (heap : list (list entry)) :
  is_Some (device g) ->
  finalize g code explicit = Returns (pre ++ Chunks chunk :: post) ->
  chunk_entries pre = 0 -> chunk_entries post = 0 ->
  inject_noise g code (pre ++ One h :: post) = pre ++ One h :: post ->
  exists p,
    new_ComputePass_fuel 1 g code (length heap) (Scalar (handle_count h)) entry_point
      (heap ++ [pre ++ One h :: post])
    = Returns (OnePass p, heap ++ [pre ++ One h :: post])
    /\ bindGroup p = handles pre ++ h :: handles post
    /\ dispatchSize p = [handle_count h].
Proof.
  intros Hdev Hfin Hpre Hpost Hnoise. cbn [new_ComputePass_fuel].
  rewrite list_lookup_middle by reflexivity.
  rewrite (finalize_on_copy _ _ _ _ _ _ h Hfin), Hnoise. cbn [bind].
  rewrite find_chunks_None
    by (rewrite chunk_entries_app; change (One h :: post) with ([One h] ++ post);
        rewrite chunk_entries_app, Hpre, Hpost; reflexivity).
  destruct (build_pass_returns g code (pre ++ One h :: post) (Scalar (handle_count h))
              entry_point Hdev) as [p [Hp [Hbind [Hdisp _]]]].
  rewrite Hp. cbn [bind]. exists p. split; [|split].
  - rewrite insert_app_r_alt, Nat.sub_diag by lia. reflexivity.
  - rewrite Hbind, handles_app. reflexivity.
  - exact Hdisp.
Qed.

Lemma fan_out_substitutes (g : Globals) (code : text) (entry_point : string)
    (explicit pre post : list entry) (chunk : list handle) (loc : nat) :
  is_Some (device g) ->
  finalize g code explicit = Returns (pre ++ Chunks chunk :: post) ->
  chunk_entries pre = 0 -> chunk_entries post = 0 ->
  (forall h, inject_noise g code (pre ++ One h :: post) = pre ++ One h :: post) ->
  forall (hs : list handle) (heap : list (list entry)),
    heap !! loc = Some (pre ++ Chunks chunk :: post) ->
    exists ps,
      fan_out (fun l d H => new_ComputePass_fuel 1 g code l d entry_point H)
        loc (length pre) hs heap
      = Returns (map OnePass ps, heap ++ map (fun h => pre ++ One h :: post) hs)
      /\ Forall2 (fun p h => bindGroup p = handles pre ++ h :: handles post
                             /\ dispatchSize p = [handle_count h]) ps hs.
Proof.
  intros Hdev Hfin Hpre Hpost Hnoise.
  induction hs as [|b hs IH]; intros heap Hloc; cbn [fan_out].
  - exists []. rewrite app_nil_r. split; [reflexivity|constructor].
  - rewrite Hloc.
    replace (<[length pre := One b]> (pre ++ Chunks chunk :: post))
      with (pre ++ One b :: post)
      by (rewrite insert_app_r_alt, Nat.sub_diag by lia; reflexivity).
    destruct (chunk_pass g code entry_point explicit pre post chunk b heap
                Hdev Hfin Hpre Hpost (Hnoise b)) as [p [Hp [Hbind Hdisp]]].
    rewrite Hp. cbn [bind fst snd].
    destruct (IH (heap ++ [pre ++ One b :: post])) as [ps [Hps Hall]].
    { rewrite lookup_app_l by exact (lookup_lt_Some _ _ _ Hloc). exact Hloc. }
    rewrite Hps. cbn [bind fst snd]. exists (p :: ps). split.
    + cbn [map]. rewrite <- app_assoc. reflexivity.
    + constructor; [split; assumption|exact Hall].
Qed.

Lemma new_ComputePass_fuel_step (fuel : nat) (g : Globals) (code : text) (loc : nat)
    (d : dispatch_arg) (entry_point : string) (heap : list (list entry)) :
  new_ComputePass_fuel (S fuel) g code loc d entry_point heap
  = match heap !! loc with
    | None => Throws "TypeError: bindings is not an Array"
    | Some explicit =>
        final <- finalize g code explicit ;;
        match find_chunks final 0 with
        | Some (index, chunk) =>
            r <- fan_out (fun l d H => new_ComputePass_fuel fuel g code l d entry_point H)
                   loc index chunk (<[loc := final]> heap) ;;
            Returns (PassArray (fst r), snd r)
        | None =>
            p <- build_pass g code final d entry_point ;;
            Returns (OnePass p, <[loc := final]> heap)
        end
    end.
Proof. reflexivity. Qed.

(** When the text calls no noise function, or no noise buffer exists, a
    finalized list with exactly one Array entry gives one pass per chunk:
    the pass of a chunk binds the chunk in the place of the Array and every
    other entry as it is, and dispatches the chunk's own [count]. *)
Lemma fan_out_without_noise (g : Globals) (code : text) (loc : nat) (d : dispatch_arg)
    (entry_point : string) (heap : list (list entry))
    (explicit pre post : list entry) (chunk : list handle) :
  is_Some (device g) ->
  heap !! loc = Some explicit ->
  finalize g code explicit = Returns (pre ++ Chunks chunk :: post) ->
  chunk_entries pre = 0 -> chunk_entries post = 0 ->
  test noise_call code = false \/ noiseBuffer g = None ->
  exists ps heap',
    new_ComputePass g code loc d entry_point heap = Returns (PassArray (map OnePass ps), heap')
    /\ length ps = length chunk
    /\ Forall2 (fun p h => bindGroup p = handles pre ++ h :: handles post
                           /\ dispatchSize p = [handle_count h]) ps chunk.
Proof.
  intros Hdev Hloc Hfin Hpre Hpost Hnoise.
  assert (Hce : chunk_entries explicit = 1).
  { rewrite <- (finalize_chunk_entries _ _ _ _ Hfin), chunk_entries_app.
    change (Chunks chunk :: post) with ([Chunks chunk] ++ post).
    rewrite chunk_entries_app, Hpre, Hpost. reflexivity. }
  unfold new_ComputePass. rewrite Hloc, Hce. rewrite new_ComputePass_fuel_step.
  rewrite Hloc, Hfin. cbn [bind]. rewrite (find_chunks_middle _ _ _ 0 Hpre). cbn [Nat.add].
  destruct (fan_out_substitutes g code entry_point explicit pre post chunk loc
              Hdev Hfin Hpre Hpost) with (hs := chunk)
      (heap := <[loc := pre ++ Chunks chunk :: post]> heap) as [ps [Hps Hall]].
  - intros h. unfold inject_noise. destruct Hnoise as [-> | ->]; [reflexivity|].
    destruct (test noise_call code); reflexivity.
  - apply list_lookup_insert_eq. exact (lookup_lt_Some _ _ _ Hloc).
  - rewrite Hps. cbn [bind fst snd]. eexists ps, _. split; [reflexivity|].
    split; [exact (Forall2_length _ _ _ Hall)|exact Hall].
Qed.

End FanOut.

Section FanOutExamples.

Import Layout Core Regex Passes Samples.

#[local] Existing Instance IntNumbers.

(** C4 on a text that calls a noise function.  The caller's list is
    finalized to four entries: the Array of three chunks, the two buffers
    and the noise buffer.  Each of the three passes binds five handles: the
    constructor that runs on the copy of the list pushes the noise buffer
    once more. *)
Theorem fan_out_binds_noise_buffer_twice :
  (r <- new_ComputePass session_with_noise noise_shader 0 (Scalar None) "main"
          [split_bindings] ;;
   Returns (snd r !! 0,
            map bindGroup (passes_of (fst r)),
            map dispatchSize (passes_of (fst r))))
  = Returns
      (Some (split_bindings ++ [One (BufferHandle the_noiseBuffer)]),
       [[chunk 3 65000; settings; bounds;
         BufferHandle the_noiseBuffer; BufferHandle the_noiseBuffer];
        [chunk 4 65000; settings; bounds;
         BufferHandle the_noiseBuffer; BufferHandle the_noiseBuffer];
        [chunk 5 20000; settings; bounds;
         BufferHandle the_noiseBuffer; BufferHandle the_noiseBuffer]],
       [[Some 65000]; [Some 65000]; [Some 20000]]).
Proof. reflexivity. Qed.

(** The same list with a text that calls no noise function. *)
Example fan_out_of_three_chunks :
  (r <- new_ComputePass session_with_noise move_shader 0 (Scalar None) "main"
          [split_bindings] ;;
   Returns (snd r !! 0,
            map bindGroup (passes_of (fst r)),
            map dispatchSize (passes_of (fst r))))
  = Returns
      (Some split_bindings,
       [[chunk 3 65000; settings; bounds];
        [chunk 4 65000; settings; bounds];
        [chunk 5 20000; settings; bounds]],
       [[Some 65000]; [Some 65000]; [Some 20000]]).
Proof. reflexivity. Qed.

End FanOutExamples.

(** ** The scanner returns on every text *)

Section ScannerTotal.

Import Regex Scanner.

Lemma skipWhitespace_le (s : text) : length (skipWhitespace s) <= length s.
Proof.
  induction s as [|c s IH]; cbn [skipWhitespace length]; [lia|].
  destruct (is_space c); cbn [length]; lia.
Qed.

Lemma to_line_end_le (s : text) : length (to_line_end s) <= length s.
Proof.
  induction s as [|c s IH]; cbn [to_line_end length]; [lia|].
  destruct (Ascii.eqb c newline); cbn [length]; lia.
Qed.

Lemma to_comment_end_le (s : text) : length (to_comment_end s) <= length s.
Proof.
  induction s as [|c1 s IH]; [cbn; lia|].
  destruct s as [|c2 r]; [cbn; lia|].
  change (to_comment_end (c1 :: c2 :: r))
    with (if Ascii.eqb c1 asterisk && Ascii.eqb c2 slash then r
          else to_comment_end (c2 :: r)).
  destruct (Ascii.eqb c1 asterisk && Ascii.eqb c2 slash).
  - cbn [length]. lia.
  - change (length (c1 :: c2 :: r)) with (S (length (c2 :: r))). lia.
Qed.

Lemma skipComment_le (s : text) : length (snd (skipComment s)) <= length s.
Proof.
  unfold skipComment. destruct s as [|c1 [|c2 r]]; cbn [snd length]; try lia.
  destruct (Ascii.eqb c1 slash && Ascii.eqb c2 slash); cbn [snd].
  - pose proof (to_line_end_le (c1 :: c2 :: r)). cbn [length] in *. lia.
  - destruct (Ascii.eqb c1 slash && Ascii.eqb c2 asterisk); cbn [snd length].
    + pose proof (to_comment_end_le r). lia.
    + lia.
Qed.

Lemma skip_round_le (s : text) :
  length (snd (skipComment (skipWhitespace s))) <= length s.
Proof.
  pose proof (skipComment_le (skipWhitespace s)). pose proof (skipWhitespace_le s). lia.
Qed.

(** Every round that goes on has moved the cursor, so as many rounds as
    the rest has characters, and one more, are enough. *)
Lemma skipWhitespaceAndComments_fuel_returns (fuel : nat) (s : text) :
  length s < fuel ->
  exists s', skipWhitespaceAndComments_fuel fuel s = Returns s' /\ length s' <= length s.
Proof.
  revert s. induction fuel as [|fuel IH]; intros s Hfuel; [lia|].
  cbn [skipWhitespaceAndComments_fuel]. pose proof (skip_round_le s) as Hle.
  destruct (Nat.ltb_spec (length (snd (skipComment (skipWhitespace s)))) (length s)) as [Hlt|_].
  - destruct (IH (snd (skipComment (skipWhitespace s)))) as [s' [Hs' Hl]]; [lia|].
    exists s'. split; [exact Hs'|lia].
  - eexists. split; [reflexivity|exact Hle].
Qed.

Lemma skipWhitespaceAndComments_returns (s : text) :
  exists s', skipWhitespaceAndComments s = Returns s' /\ length s' <= length s.
Proof. apply skipWhitespaceAndComments_fuel_returns. lia. Qed.

Ltac skip_step s' Hle :=
  match goal with
  | |- context [skipWhitespaceAndComments ?s] =>
      let H := fresh "Hskip" in
      destruct (skipWhitespaceAndComments_returns s) as [s' [H Hle]];
      rewrite H; cbn [bind]
  end.

Lemma readIdentifier_le (s : text) : length (snd (readIdentifier s)) <= length s.
Proof.
  induction s as [|c s IH]; cbn [readIdentifier]; [cbn; lia|].
  destruct (is_word c); [|cbn; lia].
  destruct (readIdentifier s) as [result rest]. cbn [snd length] in *. lia.
Qed.

Lemma strip_prefix_length (w s rest : text) :
  strip_prefix w s = Some rest -> length s = length w + length rest.
Proof. intros H. apply strip_prefix_Some in H. subst s. apply length_app. Qed.

Lemma matchKeyword_returns (keyword s : text) :
  exists m,
    matchKeyword keyword s = Returns m
    /\ forall rest, m = Some rest -> length rest + length keyword <= length s.
Proof.
  unfold matchKeyword. skip_step s1 Hle. eexists. split; [reflexivity|].
  intros rest. destruct (strip_prefix keyword s1) as [rest'|] eqn:E; [|discriminate].
  destruct (is_word_after rest'); [discriminate|]. intros [= ->].
  apply strip_prefix_length in E. lia.
Qed.

Lemma to_closing_quote_le (s : text) : length (to_closing_quote s) <= length s.
Proof.
  remember (length s) as n eqn:Hn. revert s Hn.
  induction n as [n IH] using lt_wf_ind. intros s ->.
  destruct s as [|c r]; [cbn; lia|]. cbn [to_closing_quote].
  destruct (Ascii.eqb c quote); [lia|].
  destruct (Ascii.eqb c backslash).
  - destruct r as [|c' r']; [cbn; lia|].
    pose proof (IH (length r') ltac:(cbn; lia) r' eq_refl). cbn [length]. lia.
  - pose proof (IH (length r) ltac:(cbn; lia) r eq_refl). cbn [length]. lia.
Qed.

(** Every round of the brace loop reads at least one character. *)
Lemma brace_loop_returns (fuel : nat) :
  forall (braceCount : nat) (s : text),
    length s < fuel ->
    exists count s',
      brace_loop fuel braceCount s = Returns (count, s') /\ length s' <= length s.
Proof.
  induction fuel as [|fuel IH]; intros braceCount s Hfuel; [lia|].
  cbn [brace_loop]. destruct s as [|c0 s0]; [eexists _, _; split; [reflexivity|lia]|].
  destruct braceCount as [|count]; [eexists _, _; split; [reflexivity|lia]|].
  skip_step s1 Hle. destruct s1 as [|c r].
  - destruct (IH (S count) []) as [n [s' [Hr Hl]]]; [cbn in *; lia|].
    rewrite Hr. exists n, s'. split; [reflexivity|]. cbn in *. lia.
  - cbn [length] in *.
    destruct (Ascii.eqb c open_brace).
    { destruct (IH (S (S count)) r) as [n [s' [Hr Hl]]]; [lia|].
      rewrite Hr. exists n, s'. split; [reflexivity|lia]. }
    destruct (Ascii.eqb c close_brace).
    { destruct (IH count r) as [n [s' [Hr Hl]]]; [lia|].
      rewrite Hr. exists n, s'. split; [reflexivity|lia]. }
    destruct (Ascii.eqb c quote).
    { pose proof (to_closing_quote_le r) as Hq.
      set (s2 := to_closing_quote r) in *.
      set (s3 := match s2 with
                 | c' :: r' => if Ascii.eqb c' quote then r' else s2
                 | [] => []
                 end).
      assert (Hs3 : length s3 <= length s2).
      { unfold s3. destruct s2 as [|c' r']; [lia|].
        destruct (Ascii.eqb c' quote); cbn [length]; lia. }
      destruct (IH (S count) s3) as [n [s' [Hr Hl]]]; [lia|].
      exists n, s'. split; [exact Hr|lia]. }
    destruct (IH (S count) r) as [n [s' [Hr Hl]]]; [lia|].
    rewrite Hr. exists n, s'. split; [reflexivity|lia].
Qed.

Lemma findMatchingBrace_returns (s : text) :
  exists r,
    findMatchingBrace s = Returns r
    /\ forall rest, r = Some rest -> length rest < length s.
Proof.
  unfold findMatchingBrace. destruct s as [|c r]; [eexists; split; [reflexivity|discriminate]|].
  destruct (Ascii.eqb c open_brace); [|eexists; split; [reflexivity|discriminate]].
  destruct (brace_loop_returns (S (length r)) 1 r) as [n [s' [Hr Hl]]]; [lia|].
  rewrite Hr. cbn [bind fst snd]. eexists. split; [reflexivity|].
  intros rest. destruct (n =? 0); [|discriminate]. intros [= ->]. cbn [length]. lia.
Qed.

Lemma to_group_end_le (opening closing : ascii) (s : text) :
  forall count, length (to_group_end opening closing count s) <= length s.
Proof.
  induction s as [|c s IH]; intros count; [destruct count; cbn; lia|].
  destruct count as [|k]; cbn [to_group_end]; [lia|].
  destruct (Ascii.eqb c opening); [pose proof (IH (S (S k))); cbn [length]; lia|].
  destruct (Ascii.eqb c closing); [pose proof (IH k)|pose proof (IH (S k))];
    cbn [length]; lia.
Qed.

Lemma to_return_type_end_returns (fuel : nat) :
  forall s, length s < fuel ->
    exists s', to_return_type_end fuel s = Returns s' /\ length s' <= length s.
Proof.
  induction fuel as [|fuel IH]; intros s Hfuel; [lia|].
  cbn [to_return_type_end]. destruct s as [|c r]; [eexists; split; [reflexivity|lia]|].
  cbn [length] in *.
  destruct (Ascii.eqb c open_brace || is_space c);
    [eexists; split; [reflexivity|cbn; lia]|].
  destruct (Ascii.eqb c open_angle).
  - pose proof (to_group_end_le open_angle close_angle r 1) as Hg.
    destruct (IH (to_group_end open_angle close_angle 1 r)) as [s' [Hr Hl]]; [lia|].
    rewrite Hr. exists s'. split; [reflexivity|lia].
  - destruct (IH r) as [s' [Hr Hl]]; [lia|].
    rewrite Hr. exists s'. split; [reflexivity|lia].
Qed.

(** [parseFunction] returns, and a function that it returns has moved
    the cursor. *)
Lemma parseFunction_returns (start : text) :
  exists r,
    parseFunction start = Returns r
    /\ forall fnCode rest, r = Some (fnCode, rest) -> length rest < length start.
Proof.
  unfold parseFunction.
  destruct (matchKeyword_returns (t "fn") start) as [m [Hm Hkw]]. rewrite Hm. cbn [bind].
  destruct m as [s1|]; [|eexists; split; [reflexivity|discriminate]].
  specialize (Hkw s1 eq_refl). cbn [length t list_ascii_of_string] in Hkw.
  skip_step s2 Hle2. pose proof (readIdentifier_le s2) as Hid.
  destruct (readIdentifier s2) as [name s3]. cbn [snd] in Hid.
  destruct (is_empty name); [eexists; split; [reflexivity|discriminate]|].
  skip_step s4 Hle4. destruct s4 as [|c r]; [eexists; split; [reflexivity|discriminate]|].
  destruct (Ascii.eqb c open_paren); cbn [negb];
    [|eexists; split; [reflexivity|discriminate]].
  pose proof (to_group_end_le open_paren close_paren r 1) as Hg.
  set (s5 := to_group_end open_paren close_paren 1 r) in *.
  skip_step s6 Hle6.
  assert (Hs7 : exists s7,
             match s6 with
             | c1 :: c2 :: r' =>
                 if Ascii.eqb c1 hyphen && Ascii.eqb c2 close_angle then
                   s' <- skipWhitespaceAndComments r' ;;
                   to_return_type_end (S (length s')) s'
                 else Returns s6
             | _ => Returns s6
             end = Returns s7 /\ length s7 <= length s6).
  { destruct s6 as [|c1 [|c2 r']]; try (eexists; split; [reflexivity|lia]).
    destruct (Ascii.eqb c1 hyphen && Ascii.eqb c2 close_angle);
      [|eexists; split; [reflexivity|lia]].
    skip_step s' Hle'.
    destruct (to_return_type_end_returns (S (length s')) s') as [s7 [Hr Hl]]; [lia|].
    exists s7. split; [exact Hr|]. cbn [length]. lia. }
  destruct Hs7 as [s7 [Hs7 Hle7]]. rewrite Hs7. cbn [bind].
  skip_step s8 Hle8.
  destruct (findMatchingBrace_returns s8) as [b [Hb Hbl]]. rewrite Hb. cbn [bind].
  destruct b as [rest|]; [|eexists; split; [reflexivity|discriminate]].
  eexists. split; [reflexivity|]. intros fnCode rest' [= _ <-].
  specialize (Hbl rest eq_refl). cbn [length] in *. lia.
Qed.

Lemma read_line_le (s : text) : length (snd (read_line s)) <= length s.
Proof.
  induction s as [|c s IH]; cbn [read_line]; [cbn; lia|].
  destruct (Ascii.eqb c newline); [cbn; lia|].
  destruct (read_line s) as [line rest]. cbn [snd length] in *. lia.
Qed.

Lemma read_line_lt (s : text) : s <> [] -> length (snd (read_line s)) < length s.
Proof.
  destruct s as [|c s]; [congruence|]. intros _. cbn [read_line].
  destruct (Ascii.eqb c newline); [cbn; lia|].
  pose proof (read_line_le s). destruct (read_line s) as [line rest].
  cbn [snd length] in *. lia.
Qed.

(** Every round of [parse] reads a function or a line, so it moves the
    cursor. *)
Lemma parse_loop_returns (fuel : nat) :
  forall (s : text) (functions body : list text),
    length s < fuel ->
    exists r, parse_loop fuel s functions body = Returns r.
Proof.
  induction fuel as [|fuel IH]; intros s functions body Hfuel; [lia|].
  cbn [parse_loop]. destruct s as [|c0 s0]; [eexists; reflexivity|].
  skip_step s1 Hle1. destruct s1 as [|c1 r1]; [eexists; reflexivity|].
  destruct (parseFunction_returns (c1 :: r1)) as [r [Hr Hrl]]. rewrite Hr. cbn [bind].
  destruct r as [[fnCode rest]|].
  - specialize (Hrl fnCode rest eq_refl). destruct (is_empty fnCode).
    + pose proof (read_line_le rest). destruct (read_line rest) as [line rest'].
      cbn [snd] in *. apply IH. lia.
    + apply IH. lia.
  - pose proof (read_line_lt (c1 :: r1) ltac:(discriminate)).
    destruct (read_line (c1 :: r1)) as [line rest']. cbn [snd] in *. apply IH. lia.
Qed.

Lemma WGSLParser_parse_returns (code : text) :
  exists r, WGSLParser_parse code = Returns r.
Proof.
  unfold WGSLParser_parse.
  destruct (parse_loop_returns (S (length code)) code [] []) as [r Hr]; [lia|].
  rewrite Hr. eexists. reflexivity.
Qed.

(** C6, as the code has it.  On every text the character-level scan
    returns a [{functions, body}] result, and [extractFunctionsAndBody]
    returns that very result: it never throws, and no text reaches the
    line-based split of the [catch] block.  A brace that is never closed
    does not stop the scan: [parseFunction] gives up on that function and
    the scan goes on line by line. *)
Theorem extractFunctionsAndBody_returns_scan (code : text) :
  exists r,
    WGSLParser_parse code = Returns r
    /\ extractFunctionsAndBody code = Returns r.
Proof.
  destruct (WGSLParser_parse_returns code) as [r Hr]. exists r.
  split; [exact Hr|]. unfold extractFunctionsAndBody. rewrite Hr. reflexivity.
Qed.

(** *** What the scanner returns is a rest of what it was given *)

Lemma suffix_In (c : ascii) (s' s : text) : suffix s' s -> In c s' -> In c s.
Proof. intros [k ->] H. apply in_or_app. right. exact H. Qed.

Lemma skipWhitespace_suffix (s : text) : suffix (skipWhitespace s) s.
Proof.
  induction s as [|c s IH]; cbn [skipWhitespace]; [reflexivity|].
  destruct (is_space c); [apply suffix_cons_r, IH|reflexivity].
Qed.

Lemma to_line_end_suffix (s : text) : suffix (to_line_end s) s.
Proof.
  induction s as [|c s IH]; cbn [to_line_end]; [reflexivity|].
  destruct (Ascii.eqb c newline); [reflexivity|apply suffix_cons_r, IH].
Qed.

Lemma to_comment_end_suffix (s : text) : suffix (to_comment_end s) s.
Proof.
  induction s as [|c1 s IH]; [reflexivity|].
  destruct s as [|c2 r]; [reflexivity|].
  change (to_comment_end (c1 :: c2 :: r))
    with (if Ascii.eqb c1 asterisk && Ascii.eqb c2 slash then r
          else to_comment_end (c2 :: r)).
  destruct (Ascii.eqb c1 asterisk && Ascii.eqb c2 slash).
  - apply suffix_cons_r, suffix_cons_r. reflexivity.
  - apply suffix_cons_r, IH.
Qed.

Lemma skipComment_suffix (s : text) : suffix (snd (skipComment s)) s.
Proof.
  unfold skipComment. destruct s as [|c1 [|c2 r]]; cbn [snd]; try reflexivity.
  destruct (Ascii.eqb c1 slash && Ascii.eqb c2 slash); cbn [snd];
    [apply to_line_end_suffix|].
  destruct (Ascii.eqb c1 slash && Ascii.eqb c2 asterisk); cbn [snd]; [|reflexivity].
  apply suffix_cons_r, suffix_cons_r, to_comment_end_suffix.
Qed.

Lemma skipWhitespaceAndComments_fuel_suffix (fuel : nat) :
  forall s s', skipWhitespaceAndComments_fuel fuel s = Returns s' -> suffix s' s.
Proof.
  induction fuel as [|fuel IH]; intros s s'; cbn [skipWhitespaceAndComments_fuel];
    [discriminate|].
  assert (Hround : suffix (snd (skipComment (skipWhitespace s))) s)
    by (etransitivity; [apply skipComment_suffix|apply skipWhitespace_suffix]).
  destruct (length (snd (skipComment (skipWhitespace s))) <? length s).
  - intros H. etransitivity; [exact (IH _ _ H)|exact Hround].
  - intros [= <-]. exact Hround.
Qed.

Lemma skipWhitespaceAndComments_suffix (s s' : text) :
  skipWhitespaceAndComments s = Returns s' -> suffix s' s.
Proof. apply skipWhitespaceAndComments_fuel_suffix. Qed.

Lemma readIdentifier_suffix (s : text) : suffix (snd (readIdentifier s)) s.
Proof.
  induction s as [|c s IH]; cbn [readIdentifier]; [reflexivity|].
  destruct (is_word c); [|reflexivity].
  destruct (readIdentifier s) as [result rest]. cbn [snd] in *. apply suffix_cons_r, IH.
Qed.

Lemma to_closing_quote_suffix (s : text) : suffix (to_closing_quote s) s.
Proof.
  remember (length s) as n eqn:Hn. revert s Hn.
  induction n as [n IH] using lt_wf_ind. intros s ->.
  destruct s as [|c r]; [reflexivity|]. cbn [to_closing_quote].
  destruct (Ascii.eqb c quote); [reflexivity|].
  destruct (Ascii.eqb c backslash).
  - destruct r as [|c' r']; [apply suffix_nil|].
    apply suffix_cons_r, suffix_cons_r. apply (IH (length r')); [cbn; lia|reflexivity].
  - apply suffix_cons_r. apply (IH (length r)); [cbn; lia|reflexivity].
Qed.

Lemma to_group_end_suffix (opening closing : ascii) (s : text) :
  forall count, suffix (to_group_end opening closing count s) s.
Proof.
  induction s as [|c s IH]; intros count; [destruct count; reflexivity|].
  destruct count as [|k]; cbn [to_group_end]; [reflexivity|].
  destruct (Ascii.eqb c opening); [apply suffix_cons_r, IH|].
  destruct (Ascii.eqb c closing); apply suffix_cons_r, IH.
Qed.

Lemma to_return_type_end_suffix (fuel : nat) :
  forall s s', to_return_type_end fuel s = Returns s' -> suffix s' s.
Proof.
  induction fuel as [|fuel IH]; intros s s'; cbn [to_return_type_end]; [discriminate|].
  destruct s as [|c r]; [intros [= <-]; reflexivity|].
  destruct (Ascii.eqb c open_brace || is_space c); [intros [= <-]; reflexivity|].
  destruct (Ascii.eqb c open_angle); intros H; apply IH in H; apply suffix_cons_r.
  - etransitivity; [exact H|apply to_group_end_suffix].
  - exact H.
Qed.

(** *** A text without a closing brace holds no function *)

Lemma open_ended_suffix (s' s : text) : suffix s' s -> open_ended s -> open_ended s'.
Proof. intros Hs Ho Hin. apply Ho. exact (suffix_In _ _ _ Hs Hin). Qed.

(** Without a closing brace the count of the brace loop never goes
    down. *)
Lemma brace_loop_open_ended (fuel : nat) :
  forall (braceCount : nat) (s : text) (count : nat) (s' : text),
    open_ended s ->
    brace_loop fuel braceCount s = Returns (count, s') ->
    braceCount <= count.
Proof.
  induction fuel as [|fuel IH]; intros braceCount s count s' Ho; cbn [brace_loop];
    [discriminate|].
  destruct s as [|c0 s0]; [intros [= <- _]; lia|].
  destruct braceCount as [|k]; [intros [= <- _]; lia|].
  destruct (skipWhitespaceAndComments (c0 :: s0)) as [s1| |] eqn:Eskip; cbn [bind];
    try discriminate.
  pose proof (open_ended_suffix _ _ (skipWhitespaceAndComments_suffix _ _ Eskip) Ho) as Ho1.
  destruct s1 as [|c r]; [intros H; exact (IH _ _ _ _ Ho1 H)|].
  assert (Hor : open_ended r) by (intros Hin; apply Ho1; right; exact Hin).
  destruct (Ascii.eqb c open_brace);
    [intros H; apply IH in H; [lia|exact Hor]|].
  destruct (Ascii.eqb_spec c close_brace) as [->|_];
    [exfalso; apply Ho1; left; reflexivity|].
  destruct (Ascii.eqb c quote); [|intros H; exact (IH _ _ _ _ Hor H)].
  intros H. apply IH in H; [exact H|].
  pose proof (open_ended_suffix _ _ (to_closing_quote_suffix r) Hor) as Hq.
  destruct (to_closing_quote r) as [|c' r']; [intros []|].
  destruct (Ascii.eqb c' quote); [|exact Hq].
  intros Hin. apply Hq. right. exact Hin.
Qed.

Lemma findMatchingBrace_open_ended (s : text) (r : option text) :
  open_ended s -> findMatchingBrace s = Returns r -> r = None.
Proof.
  unfold findMatchingBrace. intros Ho. destruct s as [|c s0]; [intros [= <-]; reflexivity|].
  destruct (Ascii.eqb c open_brace); [|intros [= <-]; reflexivity].
  destruct (brace_loop (S (length s0)) 1 s0) as [[count s']| |] eqn:E; cbn [bind];
    try discriminate.
  apply brace_loop_open_ended in E; [|intros Hin; apply Ho; right; exact Hin].
  cbn [fst snd]. destruct count as [|count]; [lia|]. intros [= <-]. reflexivity.
Qed.

Lemma matchKeyword_suffix (keyword s : text) (rest : text) :
  matchKeyword keyword s = Returns (Some rest) -> suffix rest s.
Proof.
  unfold matchKeyword.
  destruct (skipWhitespaceAndComments s) as [s1| |] eqn:E; cbn [bind]; try discriminate.
  destruct (strip_prefix keyword s1) as [r|] eqn:Ekw; [|discriminate].
  destruct (is_word_after r); [discriminate|]. intros [= <-].
  etransitivity; [|exact (skipWhitespaceAndComments_suffix _ _ E)].
  apply strip_prefix_Some in Ekw. subst s1. apply suffix_app_r. reflexivity.
Qed.

Lemma return_type_suffix (s6 s7 : text) :
  match s6 with
  | c1 :: c2 :: r' =>
      if Ascii.eqb c1 hyphen && Ascii.eqb c2 close_angle then
        s' <- skipWhitespaceAndComments r' ;;
        to_return_type_end (S (length s')) s'
      else Returns s6
  | _ => Returns s6
  end = Returns s7 ->
  suffix s7 s6.
Proof.
  destruct s6 as [|c1 [|c2 r']]; try (intros [= <-]; reflexivity).
  destruct (Ascii.eqb c1 hyphen && Ascii.eqb c2 close_angle);
    [|intros [= <-]; reflexivity].
  destruct (skipWhitespaceAndComments r') as [s'| |] eqn:E'; cbn [bind];
    try discriminate.
  intros E7. apply to_return_type_end_suffix in E7.
  etransitivity; [exact E7|].
  etransitivity; [exact (skipWhitespaceAndComments_suffix _ _ E')|].
  apply suffix_cons_r, suffix_cons_r. reflexivity.
Qed.

Lemma parseFunction_open_ended (start : text) (r : option (text * text)) :
  open_ended start -> parseFunction start = Returns r -> r = None.
Proof.
  unfold parseFunction. intros Ho.
  destruct (matchKeyword (t "fn") start) as [[s1|]| |] eqn:Ekw; cbn [bind];
    try discriminate; [|intros [= <-]; reflexivity].
  pose proof (matchKeyword_suffix _ _ _ Ekw) as Hs1.
  destruct (skipWhitespaceAndComments s1) as [s2| |] eqn:E2; cbn [bind];
    try discriminate.
  pose proof (skipWhitespaceAndComments_suffix _ _ E2) as Hs2.
  pose proof (readIdentifier_suffix s2) as Hs3.
  destruct (readIdentifier s2) as [name s3]. cbn [snd] in Hs3.
  destruct (is_empty name); [intros [= <-]; reflexivity|].
  destruct (skipWhitespaceAndComments s3) as [s4| |] eqn:E4; cbn [bind];
    try discriminate.
  pose proof (skipWhitespaceAndComments_suffix _ _ E4) as Hs4.
  destruct s4 as [|c r4]; [intros [= <-]; reflexivity|].
  destruct (Ascii.eqb c open_paren); cbn [negb]; [|intros [= <-]; reflexivity].
  pose proof (to_group_end_suffix open_paren close_paren r4 1) as Hs5.
  set (s5 := to_group_end open_paren close_paren 1 r4) in *.
  destruct (skipWhitespaceAndComments s5) as [s6| |] eqn:E6; cbn [bind];
    try discriminate.
  pose proof (skipWhitespaceAndComments_suffix _ _ E6) as Hs6.
  assert (Hchain : suffix s6 start).
  { etransitivity; [exact Hs6|]. etransitivity; [exact Hs5|].
    etransitivity; [apply suffix_cons_r; reflexivity|].
    etransitivity; [exact Hs4|]. etransitivity; [exact Hs3|].
    etransitivity; [exact Hs2|exact Hs1]. }
  match goal with
  | |- context [bind ?m _] =>
      match m with
      | context [to_return_type_end] =>
          destruct m as [s7| |] eqn:E7; cbn [bind]; try discriminate
      end
  end.
  pose proof (return_type_suffix _ _ E7) as Hs7.
  destruct (skipWhitespaceAndComments s7) as [s8| |] eqn:E8; cbn [bind];
    try discriminate.
  pose proof (skipWhitespaceAndComments_suffix _ _ E8) as Hs8.
  destruct (findMatchingBrace s8) as [b| |] eqn:Eb; cbn [bind]; try discriminate.
  assert (Ho8 : open_ended s8).
  { apply (open_ended_suffix s8 start); [|exact Ho].
    etransitivity; [exact Hs8|]. etransitivity; [exact Hs7|exact Hchain]. }
  rewrite (findMatchingBrace_open_ended _ _ Ho8 Eb). intros [= <-]. reflexivity.
Qed.

Lemma read_line_suffix (s : text) : suffix (snd (read_line s)) s.
Proof.
  induction s as [|c s IH]; cbn [read_line]; [reflexivity|].
  destruct (Ascii.eqb c newline); [apply suffix_cons_r; reflexivity|].
  destruct (read_line s) as [line rest]. cbn [snd] in *. apply suffix_cons_r, IH.
Qed.

Lemma parse_loop_open_ended (fuel : nat) :
  forall (s : text) (functions body : list text) (r : list text * list text),
    open_ended s ->
    parse_loop fuel s functions body = Returns r ->
    fst r = functions.
Proof.
  induction fuel as [|fuel IH]; intros s functions body r Ho; cbn [parse_loop];
    [discriminate|].
  destruct s as [|c0 s0]; [intros [= <-]; reflexivity|].
  destruct (skipWhitespaceAndComments (c0 :: s0)) as [s1| |] eqn:E1; cbn [bind];
    try discriminate.
  pose proof (open_ended_suffix _ _ (skipWhitespaceAndComments_suffix _ _ E1) Ho) as Ho1.
  destruct s1 as [|c1 r1]; [intros [= <-]; reflexivity|].
  destruct (parseFunction (c1 :: r1)) as [fnCode| |] eqn:Ef; cbn [bind];
    try discriminate.
  rewrite (parseFunction_open_ended _ _ Ho1 Ef).
  pose proof (read_line_suffix (c1 :: r1)) as Hline.
  destruct (read_line (c1 :: r1)) as [line rest]. cbn [snd] in Hline.
  apply IH. exact (open_ended_suffix _ _ Hline Ho1).
Qed.

End ScannerTotal.

Section ScannerExamples.

Import Regex Scanner Samples.

Example scan_two_functions :
  extractFunctionsAndBody two_functions
  = Returns
      {| functions :=
           [t "fn a(x: f32) -> f32 { if (x > 0.0) { { return x; } } return 1.0; }";
            t "fn b() -> vec4<f32> { return vec4<f32>(1.0); }"];
         body := t ("let p = a(1.0);" +:+ line_feed +:+ "let q = b();") |}.
Proof. vm_compute. reflexivity. Qed.

Example scan_empty : extractFunctionsAndBody [] = Returns {| functions := []; body := [] |}.
Proof. reflexivity. Qed.

(** The scan of the unclosed function: no function, two loose lines. *)
Example scan_unclosed_function :
  extractFunctionsAndBody unclosed_function
  = Returns {| functions := [];
               body := t ("fn f() {" +:+ line_feed +:+ "a;") |}.
Proof. vm_compute. reflexivity. Qed.

(** The line-based split drops the same text altogether. *)
Example fallback_of_unclosed_function :
  fallback_split unclosed_function = {| functions := []; body := [] |}.
Proof. vm_compute. reflexivity. Qed.

(** C6 as it is written hands a text with a brace that is never closed to
    the line-based split.  The result for such a text is the one of the
    scan, and the split would give another. *)
Lemma unclosed_brace_is_not_split_by_lines :
  ~ (forall code : text,
       unterminated_brace code ->
       extractFunctionsAndBody code = Returns (fallback_split code)).
Proof.
  intros H. specialize (H unclosed_function).
  rewrite scan_unclosed_function, fallback_of_unclosed_function in H.
  assert (Hu : unterminated_brace unclosed_function) by (vm_compute; lia).
  specialize (H Hu). discriminate.
Qed.

End ScannerExamples.

(** ** The assembler leaves a complete program unwrapped *)

Section Occurrences.

Import Regex.

Lemma occurs_app_l (w a s : text) : occurs w s -> occurs w (a ++ s).
Proof.
  intros [pre [post ->]]. exists (a ++ pre), post. rewrite <- app_assoc. reflexivity.
Qed.

Lemma occurs_cons (w : text) (c : ascii) (s : text) : occurs w s -> occurs w (c :: s).
Proof. apply (occurs_app_l w [c] s). Qed.

Lemma occurs_rev (w s : text) : occurs w s -> occurs (rev w) (rev s).
Proof.
  intros [pre [post ->]]. exists (rev post), (rev pre).
  rewrite !rev_app_distr, <- app_assoc. reflexivity.
Qed.

Lemma trim_start_keeps (w post : text) (a : ascii) (w' : text) :
  w = a :: w' -> is_space a = false ->
  forall pre, occurs w (trim_start (pre ++ w ++ post)).
Proof.
  intros -> Ha. induction pre as [|c pre IH].
  - cbn [app trim_start]. rewrite Ha. exists [], post. reflexivity.
  - cbn [app trim_start]. destruct (is_space c); [exact IH|].
    exists (c :: pre), post. reflexivity.
Qed.

(** [trim] keeps an occurrence that starts and ends with a character
    other than white space. *)
Lemma trim_keeps (w s : text) (a b : ascii) (w1 w2 : text) :
  w = a :: w1 -> rev w = b :: w2 ->
  is_space a = false -> is_space b = false ->
  occurs w s -> occurs w (trim s).
Proof.
  intros Hw Hrev Ha Hb [pre [post ->]]. unfold trim, trim_end.
  destruct (trim_start_keeps w post a w1 Hw Ha pre) as [pre1 [post1 E1]].
  rewrite E1. rewrite !rev_app_distr, <- app_assoc.
  destruct (trim_start_keeps (rev w) (rev pre1) b w2 Hrev Hb (rev post1)) as [pre2 [post2 E2]].
  rewrite E2.
  assert (H : occurs (rev (rev w)) (rev (pre2 ++ rev w ++ post2)))
    by (apply occurs_rev; exists pre2, post2; reflexivity).
  rewrite rev_involutive in H. exact H.
Qed.

(** The pattern [/\bx\b/] cannot match where the text does not start
    with the first character of [x]. *)
Lemma whole_word_needs_first (x0 : ascii) (x' : text) (prev : option ascii)
    (c : ascii) (r : text) :
  Ascii.eqb x0 c = false ->
  matches (whole_word (x0 :: x')) prev (c :: r) accept = false.
Proof.
  intros H. unfold whole_word. cbn [matches lit]. rewrite H. apply andb_false_r.
Qed.

Lemma whole_word_prefix (x : text) (prev : option ascii) (s : text) :
  matches (whole_word x) prev s accept = true -> exists rest, s = x ++ rest.
Proof.
  unfold whole_word. cbn [matches]. rewrite matches_lit.
  destruct (strip_prefix x s) as [rest|] eqn:E.
  - intros _. exists rest. apply strip_prefix_Some. exact E.
  - rewrite andb_false_r. discriminate.
Qed.

Section Replace.

Variables (x0 : ascii) (x' replacement : text).

Let x : text := x0 :: x'.

(** The characters still to be skipped are the end of the word [x]. *)
Let pending (skip : nat) (s : text) : Prop :=
  exists done, x = done ++ firstn skip s /\ length (firstn skip s) = skip.

(** The replacement copies a run of characters in which [x] cannot
    start. *)
Lemma replace_copies (w : text) :
  existsb (Ascii.eqb x0) w = false ->
  forall prev post,
    replace_from x replacement 0 prev (w ++ post)
    = w ++ replace_from x replacement 0 (last_of prev w) post.
Proof.
  induction w as [|c w IH]; intros Hw prev post; [reflexivity|].
  cbn [existsb] in Hw. apply orb_false_iff in Hw as [Hc Hw].
  cbn [app replace_from]. unfold x at 1. rewrite (whole_word_needs_first _ _ _ _ _ Hc).
  cbn [last_of]. rewrite (IH Hw). reflexivity.
Qed.

(** An occurrence of [w] survives the replacement of the whole word [x]
    when the first character of [w] is not in [x] and the first character
    of [x] is not in [w]: no match of [x] can reach into it or start in
    it. *)
Lemma replace_from_keeps (w post : text) (w0 : ascii) (w' : text) :
  w = w0 :: w' ->
  existsb (Ascii.eqb w0) x = false ->
  existsb (Ascii.eqb x0) w = false ->
  forall pre skip prev,
    pending skip (pre ++ w ++ post) ->
    occurs w (replace_from x replacement skip prev (pre ++ w ++ post)).
Proof.
  intros Hw Hreach Hstart. induction pre as [|c pre IH]; intros skip prev Hpending.
  - cbn [app] in *. destruct skip as [|k].
    + rewrite (replace_copies w Hstart). eexists [], _. reflexivity.
    + exfalso. destruct Hpending as [done [Hx _]]. subst w. cbn [app firstn] in Hx.
      assert (Hin : In w0 x) by (rewrite Hx; apply in_or_app; right; left; reflexivity).
      assert (Hex : existsb (Ascii.eqb w0) x = true).
      { apply existsb_exists. exists w0. split; [exact Hin|apply Ascii.eqb_refl]. }
      congruence.
  - cbn [app replace_from]. destruct skip as [|k].
    + destruct (matches (whole_word x) prev (c :: pre ++ w ++ post) accept) eqn:Em.
      * apply occurs_app_l. apply IH.
        destruct (whole_word_prefix _ _ _ Em) as [rest Hrest].
        unfold x in Hrest. cbn [app] in Hrest. injection Hrest as -> Hrest.
        exists [x0]. rewrite Hrest.
        replace (length x - 1) with (length x') by (unfold x; cbn [length]; lia).
        rewrite take_app_length. split; reflexivity.
      * apply occurs_cons. apply IH. exists x. cbn [firstn].
        rewrite app_nil_r. split; reflexivity.
    + apply IH. destruct Hpending as [done [Hx Hlen]]. cbn [app firstn length] in *.
      exists (done ++ [c]). rewrite <- app_assoc. split; [exact Hx|lia].
Qed.

Lemma replace_whole_word_keeps (w s : text) (w0 : ascii) (w' : text) :
  w = w0 :: w' ->
  existsb (Ascii.eqb w0) x = false ->
  existsb (Ascii.eqb x0) w = false ->
  occurs w s ->
  occurs w (replace_whole_word x replacement s).
Proof.
  intros Hw Hreach Hstart [pre [post ->]]. unfold replace_whole_word.
  apply (replace_from_keeps w post w0 w' Hw Hreach Hstart).
  exists x. cbn [firstn]. rewrite app_nil_r. split; reflexivity.
Qed.

End Replace.

(** A text that holds [fn main(] matches [/fn\s+main\s*\(/]. *)
Lemma test_definition_of_main (s : text) :
  occurs (t "fn main(") s -> test (definition_of (t "main")) s = true.
Proof.
  intros [pre [post ->]]. unfold test. apply search_spec.
  exists pre, (t "fn main(" ++ post). split; [reflexivity|]. reflexivity.
Qed.

End Occurrences.

Section AssemblerFacts.

Import Layout Core Regex Scanner Passes Assembler.

Context {N : Numbers}.

Variables (wgslNoise wgslNoise2 : text) (random_offsets : list value).

(** The substitution returns exactly when both variables are set. *)
Lemma substitute_set (g : Globals) (code : text) (w h : nat) :
  canvas_width g = Some w -> canvas_height g = Some h ->
  substitute g code
  = Returns (replace_whole_word (t "height") (toFixed2 h)
               (replace_whole_word (t "width") (toFixed2 w) code)).
Proof. intros Hw Hh. unfold substitute. rewrite Hw, Hh. reflexivity. Qed.

Lemma substitute_inv (g : Globals) (code code' : text) :
  substitute g code = Returns code' ->
  exists w h,
    canvas_width g = Some w /\ canvas_height g = Some h
    /\ code' = replace_whole_word (t "height") (toFixed2 h)
                 (replace_whole_word (t "width") (toFixed2 w) code).
Proof.
  unfold substitute. destruct (canvas_width g) as [w|]; [|discriminate].
  destruct (canvas_height g) as [h|]; [|discriminate].
  cbn [toFixed bind]. intros [= <-]. eauto.
Qed.

Lemma substitute_unset (g : Globals) (code : text) :
  canvas_width g = None \/ canvas_height g = None ->
  substitute g code
  = Throws "TypeError: Cannot read properties of undefined (reading 'toFixed')".
Proof.
  unfold substitute. intros [H|H]; rewrite H; [reflexivity|].
  destruct (canvas_width g); reflexivity.
Qed.

Lemma substitute_keeps_main (g : Globals) (code code' : text) :
  substitute g code = Returns code' ->
  occurs (t "fn main(") code -> occurs (t "fn main(") code'.
Proof.
  intros Hsub H. apply substitute_inv in Hsub as [w [h [_ [_ ->]]]].
  apply (replace_whole_word_keeps "h"%char (t "eight") _ (t "fn main(") _ "f"%char (t "n main("));
    [reflexivity..|].
  apply (replace_whole_word_keeps "w"%char (t "idth") _ (t "fn main(") _ "f"%char (t "n main("));
    [reflexivity..|].
  exact H.
Qed.

Lemma trim_keeps_main (code : text) :
  occurs (t "fn main(") code -> occurs (t "fn main(") (trim code).
Proof.
  apply (trim_keeps (t "fn main(") code "f"%char "("%char (t "n main(") (rev (t "fn main")));
    reflexivity.
Qed.

(** C7, as the code has it.  When the rendered template holds [fn
    main(], the assembler wraps nothing: it returns the text after the
    substitution of the whole words [width] and [height], with the noise
    library in front when the text calls a noise function and defines none,
    and with the white space at both ends removed.  While the canvas size
    is not set the call throws at the substitution; behind it only the
    creation of the noise buffer can throw. *)
Theorem wgsl_leaves_main_unwrapped (g : Globals) (strings values : list text) :
  occurs (t "fn main(") (String_raw strings values) ->
  wgsl wgslNoise wgslNoise2 random_offsets g strings values
  = (code <- substitute g (String_raw strings values) ;;
     r <- with_noise_library wgslNoise wgslNoise2 random_offsets g code ;;
     Returns (trim (fst r), snd r))
  /\ (forall code,
        substitute g (String_raw strings values) = Returns code ->
        wants_noise code = false ->
        wgsl wgslNoise wgslNoise2 random_offsets g strings values
        = Returns (trim code, g)).
Proof.
  intros Hmain.
  assert (Heq : wgsl wgslNoise wgslNoise2 random_offsets g strings values
                = (code <- substitute g (String_raw strings values) ;;
                   r <- with_noise_library wgslNoise wgslNoise2 random_offsets g code ;;
                   Returns (trim (fst r), snd r))).
  { unfold wgsl.
    destruct (substitute g (String_raw strings values)) as [code0| |] eqn:Esub;
      cbn [bind]; try reflexivity.
    pose proof (substitute_keeps_main _ _ _ Esub Hmain) as Hmain0.
    destruct (with_noise_library wgslNoise wgslNoise2 random_offsets g code0)
      as [[code g']| |] eqn:E;
      cbn [bind fst snd]; try reflexivity.
    assert (Hcode : occurs (t "fn main(") code).
    { unfold with_noise_library in E.
      destruct (wants_noise code0).
      - destruct (getNoiseCode wgslNoise wgslNoise2 random_offsets g) as [[lib g1]| |];
          cbn [bind fst snd] in E; try discriminate.
        injection E as <- _. apply occurs_app_l.
        apply (occurs_app_l _ [newline; newline]). exact Hmain0.
      - injection E as <- _. exact Hmain0. }
    rewrite (test_definition_of_main _ (trim_keeps_main _ Hcode)). reflexivity. }
  split; [exact Heq|]. intros code Hsub Hno. rewrite Heq, Hsub. cbn [bind].
  unfold with_noise_library. rewrite Hno. reflexivity.
Qed.

End AssemblerFacts.

Section AssemblerExamples.

Import Layout Core Regex Scanner Passes Assembler Samples.

#[local] Existing Instance IntNumbers.

(** A complete program written as a template literal. *)
Lemma wgsl_leaves_main_unwrapped_witness :
  wgsl noise1_source noise2_source offsets session complete_program []
  = (code <- substitute session (String_raw complete_program []) ;;
     r <- with_noise_library noise1_source noise2_source offsets session code ;;
     Returns (trim (fst r), snd r))
  /\ (forall code,
        substitute session (String_raw complete_program []) = Returns code ->
        wants_noise code = false ->
        wgsl noise1_source noise2_source offsets session complete_program []
        = Returns (trim code, session)).
Proof.
  apply (wgsl_leaves_main_unwrapped noise1_source noise2_source offsets session
           complete_program []).
  exists (t (line_feed +:+ "  @compute @workgroup_size(1)" +:+ line_feed +:+ "  ")),
         (t ("@builtin(global_invocation_id) id: vec3<u32>) {" +:+ line_feed
             +:+ "    let x = f32(id.x) / width;" +:+ line_feed
             +:+ "  }" +:+ line_feed)).
  reflexivity.
Defined.

Example wgsl_complete_program :
  wgsl noise1_source noise2_source offsets session complete_program []
  = Returns (t ("@compute @workgroup_size(1)" +:+ line_feed
                +:+ "  fn main(@builtin(global_invocation_id) id: vec3<u32>) {" +:+ line_feed
                +:+ "    let x = f32(id.x) / 512.00;" +:+ line_feed
                +:+ "  }"),
             session).
Proof. reflexivity. Qed.

Example wgsl_padded_main :
  wgsl noise1_source noise2_source offsets session padded_main []
  = Returns (t "fn main() {}", session).
Proof. reflexivity. Qed.

(** C7 as it is written returns the text unchanged but for the width
    and height substitution.  With the canvas size set, a template with a
    space in front of [fn main() {}] comes back without the space. *)
Lemma wgsl_trims_complete_program :
  ~ (forall (g : Globals) (strings values : list text) (code : text),
       occurs (t "fn main(") (String_raw strings values) ->
       substitute g (String_raw strings values) = Returns code ->
       exists g',
         wgsl noise1_source noise2_source offsets g strings values
         = Returns (code, g')).
Proof.
  intros H. destruct (H session padded_main [] (t " fn main() {}")) as [g' Hg'].
  - exists (t " "), (t ") {}"). reflexivity.
  - reflexivity.
  - rewrite wgsl_padded_main in Hg'. injection Hg' as Htext _. discriminate.
Qed.

(** A loose body is wrapped. *)
Example wgsl_wraps_loose_body :
  wgsl noise1_source noise2_source offsets session [t "textureStore(renderTxtr, pos, color);"] []
  = Returns (t ("@compute @workgroup_size(1)" +:+ line_feed
                +:+ "fn main(@builtin(global_invocation_id) id: vec3<u32>) {" +:+ line_feed
                +:+ "  textureStore(renderTxtr, pos, color);" +:+ line_feed
                +:+ "}"),
             session).
Proof. reflexivity. Qed.

End AssemblerExamples.

(** ** More of src/struct.js: what packing accepts and what it reports *)

Section Packing.

Import Layout.

Context {N : Numbers}.

Lemma type_toFloat32Array_inv (ty : ValueType) (v : value) (packed : list num) :
  type_toFloat32Array ty v = Returns packed -> accepted ty v /\ packed = stored ty v.
Proof.
  destruct ty; cbn [type_toFloat32Array accepted stored components];
    destruct v as [| |n|o]; try discriminate.
  1: intros [= <-]; eauto.
  all: match goal with |- context [forallb ?p ?l] => destruct (forallb p l) eqn:E end;
    [|discriminate]; intros [= <-]; eauto.
Qed.

Lemma type_toFloat32Array_total (ty : ValueType) (v : value) :
  type_toFloat32Array ty v <> Diverges.
Proof.
  destruct ty; cbn [type_toFloat32Array]; destruct v as [| |n|o]; try discriminate.
  all: match goal with |- context [forallb ?p ?l] => destruct (forallb p l) end;
    discriminate.
Qed.

Lemma ta_set_total (arr src : list num) (offset : nat) : ta_set arr src offset <> Diverges.
Proof. unfold ta_set. destruct (_ <=? _); discriminate. Qed.

Lemma ta_set_length (arr src arr' : list num) (offset : nat) :
  ta_set arr src offset = Returns arr' -> length arr' = length arr.
Proof.
  unfold ta_set. destruct (Nat.leb_spec (offset + length src) (length arr)); [|discriminate].
  intros [= <-]. rewrite !length_app, length_take, length_drop. lia.
Qed.

(** One step of the inner loop, on a field whose value is there. *)
Lemma pack_fields_step (f : field) (rest : list field) (o : props) (i : nat)
    (arr : list num) (offset : nat) (r : list num * nat) :
  pack_fields (f :: rest) o i arr offset = Returns r ->
  exists arr',
    accepted (ftype f) (get_prop (fname f) o)
    /\ ta_set arr (stored (ftype f) (get_prop (fname f) o)) offset = Returns arr'
    /\ pack_fields rest o i arr' (offset + size (ftype f) / 4) = Returns r.
Proof.
  cbn [pack_fields]. intros H.
  assert (Hdef : get_prop (fname f) o <> VUndefined)
    by (intros E; rewrite E in H; discriminate).
  assert (H' : (packed <- type_toFloat32Array (ftype f) (get_prop (fname f) o) ;;
                arr' <- ta_set arr packed offset ;;
                pack_fields rest o i arr' (offset + size (ftype f) / 4)) = Returns r)
    by (destruct (get_prop (fname f) o); [congruence|exact H..]).
  clear H.
  destruct (type_toFloat32Array (ftype f) (get_prop (fname f) o)) as [packed| |] eqn:Et;
    cbn [bind] in H'; try discriminate.
  destruct (type_toFloat32Array_inv _ _ _ Et) as [Hacc ->].
  destruct (ta_set arr _ offset) as [arr'| |] eqn:Es; cbn [bind] in H'; try discriminate.
  exists arr'. auto.
Qed.

Lemma pack_fields_inv (fields : list field) (o : props) (i : nat) :
  forall (arr : list num) (offset : nat) (r : list num * nat),
    pack_fields fields o i arr offset = Returns r ->
    Forall (fun f => accepted (ftype f) (get_prop (fname f) o)) fields
    /\ length (fst r) = length arr.
Proof.
  induction fields as [|f rest IH]; intros arr offset r H.
  - injection H as <-. split; [constructor|reflexivity].
  - destruct (pack_fields_step _ _ _ _ _ _ _ H) as [arr' [Hacc [Hset Hrest]]].
    destruct (IH _ _ _ Hrest) as [Hall Hlen]. split; [constructor; assumption|].
    rewrite Hlen. exact (ta_set_length _ _ _ _ Hset).
Qed.

Lemma pack_fields_total (fields : list field) (o : props) (i : nat) :
  forall (arr : list num) (offset : nat), pack_fields fields o i arr offset <> Diverges.
Proof.
  induction fields as [|f rest IH]; intros arr offset; [discriminate|].
  cbn [pack_fields].
  assert (H : (packed <- type_toFloat32Array (ftype f) (get_prop (fname f) o) ;;
               arr' <- ta_set arr packed offset ;;
               pack_fields rest o i arr' (offset + size (ftype f) / 4)) <> Diverges).
  { pose proof (type_toFloat32Array_total (ftype f) (get_prop (fname f) o)) as Ht.
    destruct (type_toFloat32Array (ftype f) (get_prop (fname f) o)) as [packed| |];
      cbn [bind]; [|discriminate|congruence].
    pose proof (ta_set_total arr packed offset) as Hs.
    destruct (ta_set arr packed offset) as [arr'| |]; cbn [bind];
      [apply IH|discriminate|congruence]. }
  destruct (get_prop (fname f) o); [discriminate|exact H..].
Qed.

Lemma pack_vals_inv (fields : list field) (vals : list value) :
  forall (i : nat) (arr : list num) (offset : nat) (r : list num),
    pack_vals fields vals i arr offset = Returns r ->
    Forall (record_accepted fields) vals /\ length r = length arr.
Proof.
  induction vals as [|v vals IH]; intros i arr offset r H.
  - injection H as <-. split; [constructor|reflexivity].
  - cbn [pack_vals] in H. destruct v as [| |n|o]; try discriminate.
    destruct (pack_fields fields o i arr offset) as [st| |] eqn:Ef; cbn [bind] in H;
      try discriminate.
    destruct (pack_fields_inv _ _ _ _ _ _ Ef) as [Hacc Hlen].
    destruct (IH _ _ _ _ H) as [Hall Hlen'].
    split; [|congruence]. constructor; [|exact Hall]. exists o. auto.
Qed.

Lemma pack_vals_total (fields : list field) (vals : list value) :
  forall (i : nat) (arr : list num) (offset : nat),
    pack_vals fields vals i arr offset <> Diverges.
Proof.
  induction vals as [|v vals IH]; intros i arr offset; [discriminate|].
  cbn [pack_vals]. destruct v as [| |n|o]; try discriminate.
  pose proof (pack_fields_total fields o i arr offset) as Hf.
  destruct (pack_fields fields o i arr offset) as [st| |]; cbn [bind];
    [apply IH|discriminate|congruence].
Qed.

(** The inner loop over a first part of the fields that the record has,
    on the way to the next field. *)
Lemma pack_fields_app (before rest : list field) (o : props) (i : nat) :
  Forall (fun f => accepted (ftype f) (get_prop (fname f) o)) before ->
  forall (pre old post : list num),
    length old = layout_floats before ->
    pack_fields (before ++ rest) o i (pre ++ old ++ post) (length pre)
    = pack_fields rest o i (pre ++ record_floats before (VObject o) ++ post)
        (length pre + layout_floats before).
Proof.
  induction 1 as [|f fields Hf _ IH]; intros pre old post Hl.
  - destruct old; [|discriminate]. cbn [app record_floats map concat layout_floats list_sum].
    rewrite Nat.add_0_r. reflexivity.
  - cbn [app]. rewrite (pack_fields_cons _ _ _ _ _ _ (accepted_defined _ _ Hf)).
    rewrite (type_toFloat32Array_accepted _ _ Hf).
    pose proof (stored_length _ _ Hf) as Hlen.
    assert (Hl' : length old = field_floats f + layout_floats fields) by exact Hl.
    unfold field_floats in Hl'.
    set (seg := stored (ftype f) (get_prop (fname f) o)) in *.
    rewrite <- (take_drop (size (ftype f) / 4) old), <- app_assoc.
    assert (Hremain : length (drop (size (ftype f) / 4) old) = layout_floats fields)
      by (rewrite length_drop; lia).
    assert (Htake : length (take (size (ftype f) / 4) old) = length seg)
      by (rewrite length_take; lia).
    cbn [bind]. rewrite (ta_set_middle _ _ _ _ Htake). cbn [bind].
    replace (length pre + size (ftype f) / 4) with (length (pre ++ seg))
      by (rewrite length_app; lia).
    rewrite (app_assoc pre seg), (IH (pre ++ seg) _ post Hremain).
    rewrite length_app, <- !app_assoc. cbn [record_floats map concat].
    fold seg. rewrite <- !app_assoc.
    replace (length pre + length seg + layout_floats fields)
      with (length pre + layout_floats (f :: fields))
      by (rewrite layout_floats_cons; unfold field_floats; lia).
    reflexivity.
Qed.

(** The outer loop over a first part of the records that are accepted. *)
Lemma pack_vals_app (fields : list field) (before rest : list value) :
  Forall (record_accepted fields) before ->
  forall (i : nat) (pre old post : list num),
    length old = layout_floats fields * length before ->
    pack_vals fields (before ++ rest) i (pre ++ old ++ post) (length pre)
    = pack_vals fields rest (i + length before)
        (pre ++ concat (map (record_floats fields) before) ++ post)
        (length pre + layout_floats fields * length before).
Proof.
  induction 1 as [|v vals Hv _ IH]; intros i pre old post Hl.
  - destruct old; [|simpl in Hl; lia]. cbn [app length map concat].
    rewrite Nat.mul_0_r, !Nat.add_0_r. reflexivity.
  - pose proof (record_floats_length _ _ Hv) as Hrec.
    destruct Hv as [o [-> Ho]]. cbn [app pack_vals].
    rewrite <- (take_drop (layout_floats fields) old), <- app_assoc.
    assert (Htake : length (take (layout_floats fields) old) = layout_floats fields)
      by (rewrite length_take; cbn [length] in Hl; lia).
    assert (Hdrop : length (drop (layout_floats fields) old)
                    = layout_floats fields * length vals)
      by (rewrite length_drop; cbn [length] in Hl; lia).
    rewrite (pack_fields_spec fields o i Ho pre _ _ Htake). cbn [bind fst snd].
    replace (length pre + layout_floats fields)
      with (length (pre ++ record_floats fields (VObject o)))
      by (rewrite length_app; lia).
    rewrite app_assoc, (IH (S i) _ _ _ Hdrop). cbn [map concat length].
    rewrite length_app, <- !app_assoc. f_equal; lia.
Qed.

(** X1.  [toFloat32Array] on an Array of records returns exactly when
    every element is an object that holds, under every field of the
    struct (the fillers too), a value that the field's type takes: a
    number for an f32, an object with all the component keys for a
    vector or a colour.  What it returns is then the floats of the
    records one after the other, [floatSize] floats for each; on every
    other Array it throws.  A single record that is not falsy is packed as
    the Array that holds it, a falsy argument is refused. *)
Theorem toFloat32Array_returns_iff_accepted (s : Struct) (vals : list value) :
  (forall arr,
     toFloat32Array s (Many vals) = Returns arr
     <-> Forall (record_accepted (data s)) vals
         /\ arr = concat (map (record_floats (data s)) vals))
  /\ (forall arr,
        toFloat32Array s (Many vals) = Returns arr ->
        length arr = floatSize s * length vals)
  /\ ((exists arr, toFloat32Array s (Many vals) = Returns arr)
      \/ (exists message, toFloat32Array s (Many vals) = Throws message))
  /\ (forall v,
        toFloat32Array s (Single v)
        = if is_falsy v then Throws "Struct.toFloat32Array: Input values are required"
          else toFloat32Array s (Many [v])).
Proof.
  split; [|split; [|split]].
  - intros arr. split.
    + intros H. unfold toFloat32Array in H.
      destruct (pack_vals_inv _ _ _ _ _ _ H) as [Hall _]. split; [exact Hall|].
      pose proof (toFloat32Array_Many s vals Hall) as H'.
      unfold toFloat32Array in H'. congruence.
    + intros [Hall ->]. exact (toFloat32Array_Many s vals Hall).
  - intros arr H. unfold toFloat32Array in H.
    destruct (pack_vals_inv _ _ _ _ _ _ H) as [_ Hlen].
    rewrite Hlen. apply repeat_length.
  - pose proof (pack_vals_total (data s) vals 0 (repeat zero (floatSize s * length vals)) 0)
      as Ht.
    unfold toFloat32Array.
    destruct (pack_vals (data s) vals 0 (repeat zero (floatSize s * length vals)) 0)
      as [arr|message|]; [left; eauto|right; eauto|congruence].
  - intros v. unfold toFloat32Array. destruct (is_falsy v); reflexivity.
Qed.

(** The inner loop stops at the first field that the record lacks. *)
Lemma pack_fields_gap (fields_before fields_after : list field) (f : field) (o : props)
    (i : nat) (pre post : list num) :
  Forall (fun f' => accepted (ftype f') (get_prop (fname f') o)) fields_before ->
  get_prop (fname f) o = VUndefined ->
  pack_fields (fields_before ++ f :: fields_after) o i
    (pre ++ repeat zero (layout_floats (fields_before ++ f :: fields_after)) ++ post)
    (length pre)
  = Throws ("Struct.toFloat32Array: Missing field " +:+ fname f
            +:+ " at index " +:+ show_nat i).
Proof.
  intros Hfields Hgap.
  rewrite layout_floats_app, repeat_app, <- app_assoc.
  rewrite (pack_fields_app fields_before (f :: fields_after) o i Hfields pre
             (repeat zero (layout_floats fields_before)) _ (repeat_length _ _)).
  cbn [pack_fields]. rewrite Hgap. reflexivity.
Qed.

(** X2.  The error of [toFloat32Array] names the first gap: when the
    records before index [i] are all accepted and the record at [i] is an
    object that has the fields before [f] but holds nothing (or
    [undefined]) under [f], the call throws "Missing field f at index i",
    whatever comes after. *)
Theorem toFloat32Array_missing_field (s : Struct) (before after : list value) (o : props)
    (fields_before fields_after : list field) (f : field) :
  Forall (record_accepted (data s)) before ->
  data s = fields_before ++ f :: fields_after ->
  Forall (fun f' => accepted (ftype f') (get_prop (fname f') o)) fields_before ->
  get_prop (fname f) o = VUndefined ->
  toFloat32Array s (Many (before ++ VObject o :: after))
  = Throws ("Struct.toFloat32Array: Missing field " +:+ fname f
            +:+ " at index " +:+ show_nat (length before)).
Proof.
  intros Hbefore Hdata Hfields Hgap. unfold toFloat32Array.
  rewrite floatSize_floats, length_app. cbn [length].
  set (fields := data s) in *.
  replace (layout_floats fields * (length before + S (length after)))
    with (layout_floats fields * length before
          + (layout_floats fields + layout_floats fields * length after)) by lia.
  rewrite !repeat_app.
  pose proof (pack_vals_app fields before (VObject o :: after) Hbefore 0 []
                (repeat zero (layout_floats fields * length before))
                (repeat zero (layout_floats fields)
                 ++ repeat zero (layout_floats fields * length after))
                (repeat_length _ _)) as Hp.
  cbn [app length] in Hp. rewrite Hp. clear Hp. cbn [pack_vals].
  assert (Hdone : length (concat (map (record_floats fields) before))
                  = layout_floats fields * length before).
  { rewrite (records_floats_length _ _ Hbefore). lia. }
  rewrite Nat.add_0_l, <- Hdone. clearbody fields. subst fields.
  rewrite pack_fields_gap by assumption. reflexivity.
Qed.

End Packing.

(** ** What unpacking needs of the array *)

Section Unpacking.

Import Layout.

Context {N : Numbers}.

(** The inner loop reads [layout_floats] floats when they are there. *)
Lemma unpack_fields_reads (fields : list field) (arr : list num) :
  forall (val : props) (offset : nat),
    offset + layout_floats fields <= length arr ->
    exists val',
      unpack_fields fields arr val offset = Returns (val', offset + layout_floats fields).
Proof.
  induction fields as [|f rest IH]; intros val offset Hle.
  - exists val. change (layout_floats []) with 0. rewrite Nat.add_0_r. reflexivity.
  - rewrite layout_floats_cons in *. unfold field_floats in *. cbn [unpack_fields].
    destruct (Nat.ltb_spec (length arr) (offset + size (ftype f) / 4)) as [Hlt|_]; [lia|].
    destruct (IH (set_prop (fname f)
                    (type_fromFloat32Array (ftype f)
                       (ta_slice arr offset (offset + size (ftype f) / 4))) val)
                 (offset + size (ftype f) / 4)) as [val' Hval']; [lia|].
    exists val'. rewrite Hval'. f_equal. f_equal. lia.
Qed.

(** It throws when the rest of the array is shorter than one record. *)
Lemma unpack_fields_short (fields : list field) (arr : list num) :
  fields <> [] ->
  forall (val : props) (offset : nat),
    length arr < offset + layout_floats fields ->
    unpack_fields fields arr val offset
    = Throws "Struct.fromFloat32Array: Array too short for struct layout".
Proof.
  induction fields as [|f rest IH]; intros Hne val offset Hlt; [congruence|].
  rewrite layout_floats_cons in Hlt. unfold field_floats in Hlt. cbn [unpack_fields].
  destruct (Nat.ltb_spec (length arr) (offset + size (ftype f) / 4)) as [_|Hge];
    [reflexivity|].
  destruct rest as [|f' rest'].
  - change (layout_floats []) with 0 in Hlt. lia.
  - apply IH; [discriminate|lia].
Qed.

Lemma layout_floats_pos (fields : list field) : fields <> [] -> 0 < layout_floats fields.
Proof.
  destruct fields as [|f fs]; [congruence|]. intros _.
  rewrite layout_floats_cons. pose proof (field_floats_pos f). lia.
Qed.

(** The loop of [fromFloat32Array], from an offset that leaves [k] whole
    records and [r] floats more. *)
Lemma unpack_loop_spec (fields : list field) (arr : list num) (k : nat) :
  fields <> [] ->
  forall (fuel offset r : nat) (vals : list value),
    length arr = offset + k * layout_floats fields + r ->
    r < layout_floats fields ->
    k < fuel ->
    (r = 0 ->
     exists more,
       unpack_loop fuel fields arr offset vals = Returns (vals ++ more)
       /\ length more = k
       /\ Forall (fun v => exists o, v = VObject o) more)
    /\ (r <> 0 ->
        unpack_loop fuel fields arr offset vals
        = Throws "Struct.fromFloat32Array: Array too short for struct layout").
Proof.
  intros Hne. pose proof (layout_floats_pos fields Hne) as Hpos.
  induction k as [|k IH]; intros fuel offset r vals Hlen Hr Hfuel.
  - destruct fuel as [|fuel]; [lia|]. cbn [unpack_loop]. split.
    + intros ->. destruct (Nat.ltb_spec offset (length arr)) as [Hlt|_]; [lia|].
      exists []. rewrite app_nil_r. auto.
    + intros Hr0. destruct (Nat.ltb_spec offset (length arr)) as [_|Hge]; [|lia].
      rewrite (unpack_fields_short fields arr Hne) by lia. reflexivity.
  - destruct fuel as [|fuel]; [lia|]. cbn [unpack_loop].
    destruct (Nat.ltb_spec offset (length arr)) as [_|Hge]; [|nia].
    destruct (unpack_fields_reads fields arr [] offset) as [val Hval]; [nia|].
    rewrite Hval. cbn [bind fst snd].
    destruct (IH fuel (offset + layout_floats fields) r (vals ++ [VObject val]))
      as [Hzero Hrest]; [lia|exact Hr|lia|].
    split.
    + intros Hr0. destruct (Hzero Hr0) as [more [Hmore [Hk Hobj]]].
      exists (VObject val :: more). rewrite Hmore, <- app_assoc. cbn [app length].
      split; [reflexivity|]. split; [lia|]. constructor; eauto.
    + exact Hrest.
Qed.

(** X3.  For a struct with at least one field, [fromFloat32Array] returns
    exactly on the arrays whose length is a multiple of [floatSize]: it
    then returns one object per [floatSize] floats (none for the empty
    array).  On every other length it throws "Array too short for struct
    layout", after the whole records have been read. *)
Theorem fromFloat32Array_length_law (s : Struct) (arr : list num) :
  data s <> [] ->
  (length arr mod floatSize s = 0 ->
   exists vals,
     fromFloat32Array s arr = Returns vals
     /\ length vals = length arr / floatSize s
     /\ Forall (fun v => exists o, v = VObject o) vals)
  /\ (length arr mod floatSize s <> 0 ->
      fromFloat32Array s arr
      = Throws "Struct.fromFloat32Array: Array too short for struct layout").
Proof.
  intros Hne. rewrite floatSize_floats.
  pose proof (layout_floats_pos _ Hne) as Hpos.
  set (L := layout_floats (data s)) in *.
  pose proof (Nat.div_mod_eq (length arr) L) as Hdiv.
  pose proof (Nat.mod_upper_bound (length arr) L ltac:(lia)) as Hmod.
  assert (Hk : length arr / L <= length arr).
  { apply Nat.Div0.div_le_upper_bound. nia. }
  destruct (unpack_loop_spec (data s) arr (length arr / L) Hne (S (length arr)) 0
              (length arr mod L) []) as [Hzero Hrest].
  - fold L. lia.
  - exact Hmod.
  - lia.
  - split; [|exact Hrest].
    intros Hr0. destruct (Hzero Hr0) as [more [Hmore [Hlen Hobj]]].
    exists more. auto.
Qed.

(** X4.  A struct without fields reads nothing in a round of the loop,
    so the offset never moves: on a non-empty array the loop of
    [fromFloat32Array] does not end, whatever number of rounds it is
    given. *)
Theorem fromFloat32Array_without_fields_loops (s : Struct) (arr : list num) :
  data s = [] ->
  arr <> [] ->
  (forall (fuel : nat) (vals : list value),
     unpack_loop fuel (data s) arr 0 vals = Diverges)
  /\ fromFloat32Array s arr = Diverges.
Proof.
  intros Hdata Hne.
  assert (Hloop : forall fuel vals, unpack_loop fuel (data s) arr 0 vals = Diverges).
  { rewrite Hdata. induction fuel as [|fuel IH]; intros vals; [reflexivity|].
    cbn [unpack_loop unpack_fields bind snd fst].
    destruct (Nat.ltb_spec 0 (length arr)) as [_|Hle]; [apply IH|].
    destruct arr; [congruence|cbn [length] in Hle; lia]. }
  split; [exact Hloop|apply Hloop].
Qed.

End Unpacking.

(** ** The default record, the declaration and [add] *)

Section Declaration.

Import Layout.

Context {N : Numbers}.

(** [struct.object()] has one property per field when the names differ. *)
Lemma object_fold (fields : list field) :
  forall acc : props,
    List.NoDup (map fst acc ++ map fname fields) ->
    fold_left (fun obj f => set_prop (fname f) (type_object (ftype f)) obj) fields acc
    = acc ++ map (fun f => (fname f, type_object (ftype f))) fields.
Proof.
  induction fields as [|f fields IH]; intros acc Hnd; [symmetry; apply app_nil_r|].
  cbn [fold_left map].
  assert (Hfresh : ~ In (fname f) (map fst acc)).
  { intros Hin. apply List.NoDup_remove_2 in Hnd. apply Hnd, in_or_app. left. exact Hin. }
  rewrite (set_prop_fresh _ _ _ Hfresh), IH, <- app_assoc; [reflexivity|].
  rewrite map_app, <- app_assoc. exact Hnd.
Qed.

Lemma type_object_accepted (ty : ValueType) : accepted ty (type_object ty).
Proof. destruct ty; cbn; eauto. Qed.

(** X5.  When the field names of a struct differ, the default record of
    [struct.object()] has the fields as its keys, in order, and
    [toFloat32Array] takes it: the result holds, field after field, the
    float32 of 0 for every component and the float32 of 1 for the alpha of a
    colour. *)
Theorem Struct_object_packs (s : Struct) :
  List.NoDup (map fname (data s)) ->
  object s = VObject (map (fun f => (fname f, type_object (ftype f))) (data s))
  /\ toFloat32Array s (Single (object s))
     = Returns (concat (map (fun f => stored (ftype f) (type_object (ftype f))) (data s)))
  /\ (forall ty,
        stored ty (type_object ty)
        = match ty with
          | type_color => [fround zero; fround zero; fround zero; fround one]
          | _ => repeat (fround zero) (size ty / 4)
          end).
Proof.
  intros Hnd.
  assert (Hobj : object s
                 = VObject (map (fun f => (fname f, type_object (ftype f))) (data s))).
  { unfold object. rewrite (object_fold (data s) []); [reflexivity|exact Hnd]. }
  split; [exact Hobj|]. split; [|intros ty; destruct ty; reflexivity].
  rewrite Hobj. unfold toFloat32Array. cbn [is_falsy]. rewrite floatSize_floats.
  set (o := map (fun f => (fname f, type_object (ftype f))) (data s)).
  assert (Hget : forall f, In f (data s) -> get_prop (fname f) o = type_object (ftype f)).
  { intros f Hf. exact (get_prop_fields (fun f => type_object (ftype f)) (data s) f Hnd Hf). }
  assert (Hacc : Forall (fun f => accepted (ftype f) (get_prop (fname f) o)) (data s)).
  { apply List.Forall_forall. intros f Hf. rewrite (Hget f Hf). apply type_object_accepted. }
  assert (Hall : Forall (record_accepted (data s)) [VObject o])
    by (constructor; [exists o; auto|constructor]).
  pose proof (pack_vals_spec (data s) [VObject o] Hall 0 []
                (repeat zero (layout_floats (data s) * 1)) (repeat_length _ _)) as Hp.
  cbn [app length map concat] in Hp. rewrite app_nil_r in Hp. rewrite Hp. f_equal.
  cbn [record_floats]. f_equal. apply map_ext_in. intros f Hf. rewrite (Hget f Hf).
  reflexivity.
Qed.

Lemma string_app_cons (x : ascii) (a b : string) : String x a +:+ b = String x (a +:+ b).
Proof. reflexivity. Qed.

Lemma string_app_assoc (a b c : string) : (a +:+ b) +:+ c = a +:+ (b +:+ c).
Proof.
  induction a as [|x a IH]; [reflexivity|]. rewrite !string_app_cons, IH. reflexivity.
Qed.

Lemma string_length_app (a b : string) :
  String.length (a +:+ b) = String.length a + String.length b.
Proof.
  induction a as [|x a IH]; [reflexivity|].
  rewrite string_app_cons. cbn [String.length]. rewrite IH. reflexivity.
Qed.

Lemma substring_to_length (a b : string) :
  String.substring 0 (String.length a) (a +:+ b) = a.
Proof.
  induction a as [|x a IH]; [destruct b; reflexivity|].
  rewrite string_app_cons. cbn [String.length String.substring]. rewrite IH. reflexivity.
Qed.

(** [str.slice(0, -2)] on a string that ends in two characters. *)
Lemma slice_off_two (a : string) (x y : ascii) :
  let str := a +:+ String x (String y "") in
  String.substring 0 (String.length str - 2) str = a.
Proof.
  cbn zeta. rewrite string_length_app. cbn [String.length].
  replace (String.length a + 2 - 2) with (String.length a) by lia.
  apply substring_to_length.
Qed.

(** The loop of [get code()] on a struct that has fields. *)
Lemma code_fold (fields : list field) :
  forall (f : field) (acc : string),
    fold_left (fun str f => str +:+ type_code (ftype f) (fname f) +:+ "," +:+ String newline "")
      (f :: fields) acc
    = (acc +:+ String.concat ("," +:+ String newline "")
                 (map (fun f => type_code (ftype f) (fname f)) (f :: fields)))
      +:+ "," +:+ String newline "".
Proof.
  induction fields as [|g fields IH]; intros f acc.
  - cbn [fold_left map String.concat]. rewrite <- string_app_assoc. reflexivity.
  - change (fold_left ?step (f :: g :: fields) acc)
      with (fold_left step (g :: fields) (step acc f)).
    rewrite IH. cbn [map String.concat]. rewrite !string_app_assoc. reflexivity.
Qed.

(** X6.  The declaration that [get code()] builds.  For a struct with
    fields it is the header, the declarations of the fields separated by a
    comma and a line feed, and the closing line: the [slice(0, -2)] takes
    off exactly the separator after the last field.  For a struct without
    fields the slice takes off the opening brace and the line feed of the
    header instead, and the text has no opening brace. *)
Theorem Struct_code_shape (s : Struct) :
  (data s <> [] ->
   code s
   = ("struct " +:+ name s +:+ " {" +:+ String newline "")
       +:+ String.concat ("," +:+ String newline "")
             (map (fun f => type_code (ftype f) (fname f)) (data s))
       +:+ String newline "};")
  /\ (data s = [] ->
      code s = "struct " +:+ name s +:+ " " +:+ String newline "};").
Proof.
  unfold code. split.
  - destruct (data s) as [|f fields]; [congruence|]. intros _.
    rewrite code_fold.
    change ("," +:+ String newline "") with (String "," (String newline "")) at 2 4.
    rewrite slice_off_two. rewrite !string_app_assoc. reflexivity.
  - intros ->. cbn [fold_left].
    replace ("struct " +:+ name s +:+ " {" +:+ String newline "")
      with (("struct " +:+ name s +:+ " ") +:+ String "{" (String newline ""))
      by (rewrite !string_app_assoc; reflexivity).
    rewrite slice_off_two, !string_app_assoc. reflexivity.
Qed.

(** X7.  [add] puts the field last, behind the fillers of the
    constructor, and pads nothing: the byte size grows by the size of the
    type, so a struct that was a multiple of 16 bytes stays one only when
    the new field is a vec4 or a colour.  The call throws for a blank
    name and for nothing else. *)
Theorem Struct_add_does_not_pad (s : Struct) (field_name : string) (ty : ValueType) :
  (blank field_name = true ->
   add s field_name ty = Throws "Struct.add: Field name must be a non-empty string")
  /\ (blank field_name = false ->
      exists s',
        add s field_name ty = Returns s'
        /\ name s' = name s
        /\ data s' = data s ++ [{| fname := field_name; ftype := ty |}]
        /\ byteSize s' = byteSize s + size ty
        /\ (byteSize s mod 16 = 0 -> (byteSize s' mod 16 = 0 <-> size ty = 16))).
Proof.
  unfold add. split; intros ->; [reflexivity|].
  eexists. split; [reflexivity|]. cbn [name data].
  assert (Hsize : byteSize {| name := name s;
                              data := data s ++ [{| fname := field_name; ftype := ty |}] |}
                  = byteSize s + size ty).
  { rewrite !byteSize_floats. cbn [data]. rewrite layout_floats_app.
    change (layout_floats [{| fname := field_name; ftype := ty |}])
      with (size ty / 4 + 0).
    pose proof (size_four ty). lia. }
  split; [reflexivity|]. split; [reflexivity|]. split; [exact Hsize|].
  intros Hal. rewrite Hsize. destruct ty; cbn [size]; split; intros H; try lia.
Qed.

End Declaration.

(** ** Buffers and their declarations *)

Section BindingCode.

Import Layout Core StructBuffer.

Context {N : Numbers}.

Lemma new_Buffer_handle (name : string) (data : buffer_data) (dev : option Device)
    (b : Buffer) (d' : Device) :
  new_Buffer name data dev = Returns (b, d') ->
  Core.name b = name /\ struct b = None /\ isArray b = false /\ count b = None
  /\ size b = 4 * length (Core.data b).
Proof.
  unfold new_Buffer. destruct dev as [d|]; [|discriminate].
  destruct data as [vs|arr|v]; cbn [bind try_catch]; [| |discriminate];
    intros [= <- _]; cbn; auto.
Qed.

(** X8.  The declaration of a plain buffer goes by its byte size alone:
    a buffer made from two, three or four floats is declared [vec2f],
    [vec3f] or [vec4f], and a buffer of any other length, the empty one and
    the long ones too, is declared as one [f32]. *)
Theorem plain_buffer_declaration (name : string) (data : buffer_data) (arr : list num)
    (d : Device) (index : nat) :
  array_like data arr ->
  exists b d',
    new_Buffer name data (Some d) = Returns (b, d')
    /\ Core.data b = arr
    /\ size b = 4 * length arr
    /\ getBindingCode b index
       = "@group(0) @binding(" +:+ show_nat index +:+ ") var<storage, read_write> "
           +:+ name +:+ ": "
           +:+ match length arr with
               | 2 => "vec2f"
               | 3 => "vec3f"
               | 4 => "vec4f"
               | _ => "f32"
               end +:+ ";".
Proof.
  intros Hdata.
  assert (Hnew : exists d',
             new_Buffer name data (Some d)
             = Returns ({| Core.name := name; Core.data := arr; size := 4 * length arr;
                           buffer := length (gpu_buffers d);
                           struct := None; isArray := false; count := None |}, d')).
  { destruct data as [vs|a|v]; cbn [array_like] in Hdata; [subst arr..|destruct Hdata];
      eexists; reflexivity. }
  destruct Hnew as [d' Hnew]. eexists. exists d'. split; [exact Hnew|].
  split; [reflexivity|]. split; [reflexivity|].
  unfold getBindingCode. cbn [struct size isArray Core.name].
  destruct (length arr) as [|[|[|[|[|n]]]]];
    repeat (match goal with
            | |- context [?a =? ?b] => destruct (Nat.eqb_spec a b); try lia
            end);
    reflexivity.
Qed.

(** The buffers of the chunk loop carry the name, the struct and the
    array flag. *)
Lemma chunk_loop_handles (limit : nat) (this : Struct) (name : string) (vals : list value)
    (P : Buffer -> Prop) :
  (forall b, Core.name b = name -> struct b = Some this -> isArray b = true -> P b) ->
  forall (fuel i : nat) (buffers : list Buffer) (dev : option Device)
         (r : list Buffer * option Device),
    Forall P buffers ->
    chunk_loop fuel limit this name vals i buffers dev = Returns r ->
    Forall P (fst r).
Proof.
  intros HP. induction fuel as [|fuel IH]; intros i buffers dev r Hall; [discriminate|].
  cbn [chunk_loop]. destruct (i <? length vals); [|intros [= <-]; exact Hall].
  destruct (toFloat32Array this (Many (firstn limit (skipn i vals)))) as [arr| |];
    cbn [bind try_catch]; try discriminate.
  destruct (new_Buffer name (Float32 arr) dev) as [[b d']| |] eqn:Enew;
    cbn [bind try_catch fst snd]; try discriminate.
  intros H. apply IH in H; [exact H|].
  apply Forall_app. split; [exact Hall|]. constructor; [|constructor].
  destruct (new_Buffer_handle _ _ _ _ _ Enew) as [Hname _].
  apply HP; [exact Hname|reflexivity..].
Qed.

(** X9.  Whatever [createBuffer] returns is declared with the name of
    the struct: a single record gives a buffer of the struct's type, an
    Array of records a buffer (or, from 65000 records on, buffers that all
    carry the same name) of type [array<S>]. *)
Theorem struct_buffer_declaration (s : Struct) (name : string) (vals : arg)
    (dev dev' : option Device) (r : created) (index : nat) :
  createBuffer s name vals dev = Returns (r, dev') ->
  let declared (b : Buffer) (bufferType : string) :=
    getBindingCode b index
    = "@group(0) @binding(" +:+ show_nat index +:+ ") var<storage, read_write> "
        +:+ name +:+ ": " +:+ bufferType +:+ ";" in
  match r, vals with
  | OneBuffer b, Single _ => declared b (Layout.name s)
  | OneBuffer b, Many _ => declared b ("array<" +:+ Layout.name s +:+ ">")
  | BufferArray bs, Many vs =>
      65000 <= length vs
      /\ Forall (fun b => declared b ("array<" +:+ Layout.name s +:+ ">")) bs
  | BufferArray _, Single _ => False
  end.
Proof.
  unfold createBuffer, createBuffer_upto. intros H. cbv zeta.
  destruct vals as [v|vs].
  - destruct (is_falsy v); [discriminate|].
    destruct (toFloat32Array s (Many [v])) as [arr| |]; cbn [bind] in H; try discriminate.
    destruct (new_Buffer name (Float32 arr) dev) as [[b d']| |] eqn:Enew;
      cbn [bind fst snd] in H; try discriminate.
    injection H as <- _. destruct (new_Buffer_handle _ _ _ _ _ Enew) as [Hname _].
    unfold getBindingCode, with_struct. cbn [struct isArray Core.name]. rewrite Hname.
    reflexivity.
  - destruct (length vs <? 1); [discriminate|].
    destruct (Nat.ltb_spec (length vs) 65000) as [Hlt|Hge].
    + destruct (toFloat32Array s (Many vs)) as [arr| |]; cbn [bind try_catch] in H;
        try discriminate.
      destruct (new_Buffer name (Float32 arr) dev) as [[b d']| |] eqn:Enew;
        cbn [bind try_catch fst snd] in H; try discriminate.
      injection H as <- _. destruct (new_Buffer_handle _ _ _ _ _ Enew) as [Hname _].
      unfold getBindingCode, with_struct. cbn [struct isArray Core.name]. rewrite Hname.
      reflexivity.
    + destruct (chunk_loop (S (length vs)) 65000 s name vs 0 [] dev) as [st| |] eqn:Eloop;
        cbn [bind] in H; try discriminate.
      injection H as <- _. split; [exact Hge|].
      refine (chunk_loop_handles 65000 s name vs _ _ _ _ _ _ _ (List.Forall_nil _) Eloop).
      intros b Hname Hstruct Harray. unfold getBindingCode.
      rewrite Hstruct, Harray, Hname. reflexivity.
Qed.

End BindingCode.

Section LayoutMoreExamples.

Import Layout Samples.

#[local] Existing Instance IntNumbers.

(** The record [{x: 1}] for the padded one-field struct: the first
    filler is the first gap. *)
Lemma toFloat32Array_missing_field_witness :
  toFloat32Array point_struct (Many ([] ++ VObject point_declared_only :: []))
  = Throws ("Struct.toFloat32Array: Missing field " +:+ fname (filler 0)
            +:+ " at index " +:+ show_nat (length (@nil value))).
Proof.
  apply (toFloat32Array_missing_field point_struct [] [] point_declared_only
           [{| fname := "x"; ftype := type_f32 |}] [filler 1; filler 2] (filler 0)).
  - constructor.
  - reflexivity.
  - constructor; [|constructor]. cbn. eexists. reflexivity.
  - reflexivity.
Defined.

(** Six floats for a struct of four. *)
Lemma fromFloat32Array_length_law_witness :
  (length six_floats mod floatSize point_struct = 0 ->
   exists vals,
     fromFloat32Array point_struct six_floats = Returns vals
     /\ length vals = length six_floats / floatSize point_struct
     /\ Forall (fun v => exists o, v = VObject o) vals)
  /\ (length six_floats mod floatSize point_struct <> 0 ->
      fromFloat32Array point_struct six_floats
      = Throws "Struct.fromFloat32Array: Array too short for struct layout").
Proof.
  apply (fromFloat32Array_length_law point_struct six_floats). discriminate.
Defined.

Example six_floats_are_too_short :
  fromFloat32Array point_struct six_floats
  = Throws "Struct.fromFloat32Array: Array too short for struct layout".
Proof. reflexivity. Qed.

(** [new Struct('E')] and an array of one float. *)
Lemma fromFloat32Array_without_fields_loops_witness :
  (forall (fuel : nat) (vals : list value),
     unpack_loop fuel (data empty_struct) one_float 0 vals
     = Diverges)
  /\ fromFloat32Array empty_struct one_float = Diverges.
Proof.
  apply (fromFloat32Array_without_fields_loops empty_struct
           one_float).
  - reflexivity.
  - discriminate.
Defined.

(** The default record of the mouse struct, as [createMouseBuffer] packs
    it. *)
Lemma Struct_object_packs_witness :
  object mouseStruct
  = VObject (map (fun f => (fname f, type_object (ftype f))) (data mouseStruct))
  /\ toFloat32Array mouseStruct (Single (object mouseStruct))
     = Returns (concat (map (fun f => stored (ftype f) (type_object (ftype f)))
                          (data mouseStruct)))
  /\ (forall ty,
        stored ty (type_object ty)
        = match ty with
          | type_color => [fround zero; fround zero; fround zero; fround one]
          | _ => repeat (fround zero) (size ty / 4)
          end).
Proof.
  apply (Struct_object_packs mouseStruct).
  repeat constructor; cbn; intuition discriminate.
Defined.

(** Two fields of the same name and of different types: the default
    record holds the default of the later type, and the earlier type does
    not take it. *)
Example object_of_clashing_names_does_not_pack :
  toFloat32Array clashing_struct (Single (object clashing_struct))
  = Throws "type_vec2.toFloat32Array: Expected an object with x and y properties".
Proof. reflexivity. Qed.

Example code_of_mouseStruct :
  code mouseStruct
  = "struct mouseStruct {" +:+ String newline "pos: vec2<f32>," +:+ String newline "button: f32,"
      +:+ String newline "FILLER___0: f32" +:+ String newline "};".
Proof. reflexivity. Qed.

(** The struct of the unit tests: made without fields, then two [add]
    calls; eight bytes and no filler. *)
Example added_fields_are_not_padded :
  (s0 <- new_Struct "TestStruct" [] ;;
   s1 <- add s0 "x" type_f32 ;;
   s2 <- add s1 "y" type_f32 ;;
   Returns (byteSize s2, map fname (data s2)))
  = Returns (8, ["x"; "y"]).
Proof. reflexivity. Qed.

End LayoutMoreExamples.

Section BindingCodeExamples.

Import Layout Core StructBuffer Samples.

#[local] Existing Instance IntNumbers.

(** The clock buffer of [createTimeBuffer]. *)
Lemma plain_buffer_declaration_witness :
  exists b d',
    new_Buffer "time" (Float32 one_float) (Some fresh_device) = Returns (b, d')
    /\ Core.data b = one_float
    /\ size b = 4 * length one_float
    /\ getBindingCode b 1
       = "@group(0) @binding(" +:+ show_nat 1 +:+ ") var<storage, read_write> "
           +:+ "time" +:+ ": "
           +:+ match length one_float with
               | 2 => "vec2f"
               | 3 => "vec3f"
               | 4 => "vec4f"
               | _ => "f32"
               end +:+ ";".
Proof.
  apply (plain_buffer_declaration "time" (Float32 one_float) one_float fresh_device 1).
  reflexivity.
Defined.

(** The mouse buffer is declared with the type [mouseStruct]. *)
Lemma struct_buffer_declaration_witness :
  getBindingCode the_mouseBuffer 0
  = "@group(0) @binding(" +:+ show_nat 0 +:+ ") var<storage, read_write> "
      +:+ "mouse" +:+ ": " +:+ Layout.name mouseStruct +:+ ";".
Proof.
  apply (struct_buffer_declaration mouseStruct "mouse" (Single (object mouseStruct))
           (Some fresh_device) (Some device_with_mouse) (OneBuffer the_mouseBuffer) 0).
  reflexivity.
Defined.

End BindingCodeExamples.

(** ** When [createBuffer] returns *)

Section CreateBufferReturns.

Import Layout Core StructBuffer.

Context {N : Numbers}.

Lemma new_Buffer_inv (name : string) (arr : list num) (dev : option Device)
    (b : Buffer) (d' : Device) :
  new_Buffer name (Float32 arr) dev = Returns (b, d') ->
  exists d,
    dev = Some d
    /\ Core.data b = arr /\ size b = 4 * length arr
    /\ gpu_buffers d' = gpu_buffers d ++ [{| gpu_size := 4 * length arr; gpu_contents := arr |}].
Proof.
  unfold new_Buffer. destruct dev as [d|]; [|discriminate].
  cbn [bind try_catch]. intros [= <- <-]. exists d. auto.
Qed.

Lemma new_Buffer_total (name : string) (data : buffer_data) (dev : option Device) :
  new_Buffer name data dev <> Diverges.
Proof.
  unfold new_Buffer. destruct dev as [d|]; [|discriminate].
  destruct data; cbn [bind try_catch]; discriminate.
Qed.

(** What the chunk loop needs to return, and what it then allocates. *)
Lemma chunk_loop_inv (limit : nat) (this : Struct) (name : string) (vals : list value) :
  forall (fuel i : nat) (buffers : list Buffer) (dev : option Device)
         (r : list Buffer * option Device),
    chunk_loop fuel limit this name vals i buffers dev = Returns r ->
    Forall (Forall (record_accepted (Layout.data this))) (chunks fuel limit vals i)
    /\ (i < length vals -> is_Some dev)
    /\ exists more,
         fst r = buffers ++ more
         /\ bytes_of more
            = 4 * floatSize this * length (concat (chunks fuel limit vals i)).
Proof.
  induction fuel as [|fuel IH]; intros i buffers dev r; [discriminate|].
  cbn [chunk_loop chunks]. destruct (Nat.ltb_spec i (length vals)) as [Hi|Hi].
  - set (nextData := firstn limit (skipn i vals)).
    destruct (toFloat32Array this (Many nextData)) as [arr| |] eqn:Epack;
      cbn [bind try_catch]; try discriminate.
    destruct (new_Buffer name (Float32 arr) dev) as [[b d']| |] eqn:Enew;
      cbn [bind try_catch fst snd]; try discriminate.
    intros H. destruct (IH _ _ _ _ H) as [Hall [_ [more [Hr Hbytes]]]].
    unfold toFloat32Array in Epack.
    destruct (pack_vals_inv _ _ _ _ _ _ Epack) as [Hacc Hlen].
    rewrite repeat_length in Hlen.
    destruct (new_Buffer_inv _ _ _ _ _ Enew) as [d [-> [_ [Hsize _]]]].
    split; [constructor; assumption|]. split; [eauto|].
    exists (with_struct b this true (Some (length nextData)) :: more).
    rewrite Hr, <- app_assoc. split; [reflexivity|].
    unfold bytes_of in *. cbn [map with_struct size concat].
    change (list_sum (size b :: map size more)) with (size b + list_sum (map size more)).
    rewrite length_app, Hbytes, Hsize, Hlen. lia.
  - intros [= <-]. split; [constructor|]. split; [lia|].
    exists []. rewrite app_nil_r. split; [reflexivity|]. cbn. lia.
Qed.

Lemma chunk_loop_total (limit : nat) (this : Struct) (name : string) (vals : list value) :
  0 < limit ->
  forall (fuel i : nat) (buffers : list Buffer) (dev : option Device),
    length vals - i < fuel ->
    chunk_loop fuel limit this name vals i buffers dev <> Diverges.
Proof.
  intros Hlimit. induction fuel as [|fuel IH]; intros i buffers dev Hfuel; [lia|].
  cbn [chunk_loop]. destruct (Nat.ltb_spec i (length vals)) as [Hi|Hi]; [|discriminate].
  pose proof (pack_vals_total (Layout.data this) (firstn limit (skipn i vals)) 0
                (repeat zero (floatSize this * length (firstn limit (skipn i vals)))) 0) as Hp.
  unfold toFloat32Array.
  destruct (pack_vals _ _ 0 _ 0) as [arr| |]; cbn [bind try_catch]; [|discriminate|congruence].
  pose proof (new_Buffer_total name (Float32 arr) dev) as Hn.
  destruct (new_Buffer name (Float32 arr) dev) as [[b d']| |]; cbn [bind try_catch fst snd];
    [|discriminate|congruence].
  apply IH. lia.
Qed.

(** X23.  [createBuffer] on an Array returns exactly when the device is
    there, the Array is not empty and the struct accepts every record; in
    every other case it throws, and it never loops.  When it returns, the
    handles hold together one byte size of the struct for every record. *)
Theorem createBuffer_returns_iff (s : Struct) (name : string) (vals : list value)
    (dev : option Device) :
  ((exists r dev', createBuffer s name (Many vals) dev = Returns (r, dev'))
   <-> is_Some dev /\ vals <> [] /\ Forall (record_accepted (Layout.data s)) vals)
  /\ ((exists r dev', createBuffer s name (Many vals) dev = Returns (r, dev'))
      \/ exists message, createBuffer s name (Many vals) dev = Throws message)
  /\ (forall r dev',
        createBuffer s name (Many vals) dev = Returns (r, dev') ->
        bytes_of match r with OneBuffer b => [b] | BufferArray bs => bs end
        = byteSize s * length vals).
Proof.
  assert (Hlimit : 0 < 65000) by (apply Nat.ltb_lt; reflexivity).
  assert (Hinv : forall r dev',
             createBuffer s name (Many vals) dev = Returns (r, dev') ->
             (is_Some dev /\ vals <> [] /\ Forall (record_accepted (Layout.data s)) vals)
             /\ bytes_of match r with OneBuffer b => [b] | BufferArray bs => bs end
                = byteSize s * length vals).
  { intros r dev'. unfold createBuffer, createBuffer_upto.
    destruct (Nat.ltb_spec (length vals) 1) as [|Hlen]; [discriminate|].
    assert (Hne : vals <> []) by (intros ->; cbn in Hlen; lia).
    destruct (Nat.ltb_spec (length vals) 65000) as [Hlt|Hge].
    - destruct (toFloat32Array s (Many vals)) as [arr| |] eqn:Epack; cbn [bind try_catch];
        try discriminate.
      destruct (new_Buffer name (Float32 arr) dev) as [[b d']| |] eqn:Enew;
        cbn [bind try_catch fst snd]; try discriminate.
      intros [= <- _]. unfold toFloat32Array in Epack.
      destruct (pack_vals_inv _ _ _ _ _ _ Epack) as [Hacc Hl]. rewrite repeat_length in Hl.
      destruct (new_Buffer_inv _ _ _ _ _ Enew) as [d [-> [_ [Hsize _]]]].
      split; [eauto|]. unfold bytes_of. cbn [map with_struct size].
      change (list_sum [size b]) with (size b + 0).
      rewrite Hsize, Hl, byteSize_floatSize. lia.
    - destruct (chunk_loop (S (length vals)) 65000 s name vals 0 [] dev) as [st| |] eqn:Eloop;
        cbn [bind]; try discriminate.
      intros [= <- _].
      destruct (chunk_loop_inv _ _ _ _ _ _ _ _ _ Eloop) as [Hall [Hdev [more [Hr Hbytes]]]].
      pose proof (chunks_concat 65000 vals Hlimit (S (length vals)) 0 ltac:(lia)) as Hcat.
      change (drop 0 vals) with vals in Hcat. rewrite Hcat in Hbytes. cbn [app] in Hr.
      split.
      + split; [apply Hdev; lia|]. split; [exact Hne|].
        rewrite <- Hcat. apply Forall_concat. exact Hall.
      + rewrite Hr, Hbytes, byteSize_floatSize. lia. }
  split; [split|split].
  - intros [r [dev' H]]. exact (proj1 (Hinv _ _ H)).
  - intros [[d ->] [Hne Hacc]].
    destruct (Nat.lt_ge_cases (length vals) 65000) as [Hlt|Hge].
    + destruct (createBuffer_upto_spec 65000 s name vals d Hlimit Hne Hacc)
        as [Hone _].
      destruct (Hone Hlt) as [b [d' [H _]]]. eauto.
    + destruct (createBuffer_upto_spec 65000 s name vals d Hlimit Hne Hacc)
        as [_ Hmany].
      destruct (Hmany Hge) as [bs [d' [chs [H _]]]]. eauto.
  - assert (Htotal : createBuffer s name (Many vals) dev <> Diverges).
    { unfold createBuffer, createBuffer_upto.
      destruct (length vals <? 1); [discriminate|].
      destruct (length vals <? 65000).
      - pose proof (pack_vals_total (Layout.data s) vals 0
                      (repeat zero (floatSize s * length vals)) 0) as Hp.
        unfold toFloat32Array.
        destruct (pack_vals _ _ 0 _ 0) as [arr| |]; cbn [bind try_catch];
          [|discriminate|congruence].
        pose proof (new_Buffer_total name (Float32 arr) dev) as Hn.
        destruct (new_Buffer name (Float32 arr) dev) as [[b d']| |];
          cbn [bind try_catch fst snd]; [discriminate|discriminate|congruence].
      - pose proof (chunk_loop_total 65000 s name vals Hlimit (S (length vals)) 0 [] dev
                      ltac:(lia)) as Hc.
        destruct (chunk_loop _ _ _ _ _ _ _ _) as [st| |]; cbn [bind];
          [discriminate|discriminate|congruence]. }
    destruct (createBuffer s name (Many vals) dev) as [[r dev']|message|];
      [left; eauto|right; eauto|congruence].
  - intros r dev' H. exact (proj2 (Hinv _ _ H)).
Qed.

End CreateBufferReturns.

(** ** The round trip of an Array of records *)

Section ArrayRoundTrip.

Import Layout.

Context {N : Numbers}.

(** The loop of [fromFloat32Array] over the floats of a list of
    records. *)
Lemma unpack_loop_records (fields : list field) :
  fields <> [] ->
  List.NoDup (map fname fields) ->
  forall (records : list props),
    Forall (fun R => Forall (fun f => accepted (ftype f) (get_prop (fname f) R)) fields)
      records ->
    forall (fuel : nat) (pre : list num) (vals : list value),
      length records < fuel ->
      unpack_loop fuel fields
        (pre ++ concat (map (fun R => record_floats fields (VObject R)) records))
        (length pre) vals
      = Returns (vals
                 ++ map (fun R =>
                           VObject (map (fun f => (fname f,
                                                   type_fromFloat32Array (ftype f)
                                                     (stored (ftype f) (get_prop (fname f) R))))
                                      fields))
                      records).
Proof.
  intros Hne Hnd. pose proof (layout_floats_pos fields Hne) as Hpos.
  induction 1 as [|R records HR _ IH]; intros fuel pre vals Hfuel.
  - destruct fuel as [|fuel]; [cbn in Hfuel; lia|]. cbn [unpack_loop map concat].
    rewrite !app_nil_r, Nat.ltb_irrefl. reflexivity.
  - destruct fuel as [|fuel]; [lia|]. cbn [unpack_loop map concat].
    assert (Hrec : length (record_floats fields (VObject R)) = layout_floats fields)
      by (apply record_floats_length; exists R; auto).
    destruct (Nat.ltb_spec (length pre)
                (length (pre ++ record_floats fields (VObject R)
                         ++ concat (map (fun R => record_floats fields (VObject R)) records))))
      as [_|Hge]; [|rewrite !length_app in Hge; lia].
    rewrite (unpack_fields_spec R fields HR [] pre _ Hnd). cbn [bind fst snd app].
    replace (length pre + layout_floats fields)
      with (length (pre ++ record_floats fields (VObject R)))
      by (rewrite length_app; lia).
    rewrite app_assoc, IH by (cbn [length] in Hfuel; lia).
    rewrite <- app_assoc. reflexivity.
Qed.

(** X24.  The round trip holds for a whole Array.  For a struct with at
    least one field and distinct field names, and records that hold under
    every field a value of the field's type whose numbers a float32 holds
    exactly, [fromFloat32Array] gives back for the packed Array as many
    records as went in, in the same order, each with the fields as its keys
    and the values of its record. *)
Theorem Struct_roundtrip_of_arrays (s : Struct) (records : list props) :
  data s <> [] ->
  List.NoDup (map fname (data s)) ->
  Forall (fun R => forall f, In f (data s) ->
                     float32_valued (ftype f) (get_prop (fname f) R)) records ->
  exists (packed : list num) (unpacked : list props),
    toFloat32Array s (Many (map VObject records)) = Returns packed
    /\ length packed = floatSize s * length records
    /\ fromFloat32Array s packed = Returns (map VObject unpacked)
    /\ Forall2 (fun R U =>
                  map fst U = map fname (data s)
                  /\ forall f, In f (data s) ->
                       reproduces (ftype f) (get_prop (fname f) R) (get_prop (fname f) U))
         records unpacked.
Proof.
  intros Hne Hnd Hval.
  assert (Hacc : Forall (fun R => Forall (fun f => accepted (ftype f) (get_prop (fname f) R))
                                    (data s)) records).
  { eapply Forall_impl; [exact Hval|]. intros R HR. apply List.Forall_forall.
    intros f Hf. apply float32_valued_accepted, HR, Hf. }
  assert (Hrec : Forall (record_accepted (data s)) (map VObject records)).
  { apply Forall_map. eapply Forall_impl; [exact Hacc|]. intros R HR. exists R. auto. }
  set (U := fun R : props =>
              map (fun f => (fname f, type_fromFloat32Array (ftype f)
                                        (stored (ftype f) (get_prop (fname f) R)))) (data s)).
  exists (concat (map (record_floats (data s)) (map VObject records))), (map U records).
  split; [exact (toFloat32Array_Many s _ Hrec)|]. split; [|split].
  - rewrite (records_floats_length _ _ Hrec), length_map, floatSize_floats.
    apply Nat.mul_comm.
  - unfold fromFloat32Array. rewrite map_map.
    pose proof (unpack_loop_records (data s) Hne Hnd records Hacc) as Hloop.
    specialize (Hloop (S (length (concat (map (fun R => record_floats (data s) (VObject R))
                                            records)))) [] []).
    cbn [app length] in Hloop. rewrite Hloop; [rewrite map_map; reflexivity|].
    assert (Hlen : length (concat (map (fun R => record_floats (data s) (VObject R)) records))
                   = length records * layout_floats (data s)).
    { rewrite <- (map_map VObject (record_floats (data s))).
      rewrite (records_floats_length _ _ Hrec), length_map. reflexivity. }
    pose proof (layout_floats_pos _ Hne). rewrite Hlen. nia.
  - clear Hacc Hrec. induction Hval as [|R records HR _ IH]; [constructor|].
    cbn [map]. constructor; [|exact IH]. split.
    + unfold U. rewrite map_map. reflexivity.
    + intros f Hf. unfold U.
      rewrite (get_prop_fields (fun f => type_fromFloat32Array (ftype f)
                                           (stored (ftype f) (get_prop (fname f) R)))
                 (data s) f Hnd Hf).
      apply type_roundtrip, HR, Hf.
Qed.

End ArrayRoundTrip.

Section ArrayRoundTripExamples.

Import Layout Samples.

#[local] Existing Instance IntNumbers.

(** Two records of the padded one-field struct. *)
Lemma Struct_roundtrip_of_arrays_witness :
  exists (packed : list num) (unpacked : list props),
    toFloat32Array point_struct (Many (map VObject [point_with_fillers; point_with_fillers]))
    = Returns packed
    /\ length packed = floatSize point_struct * length [point_with_fillers; point_with_fillers]
    /\ fromFloat32Array point_struct packed = Returns (map VObject unpacked)
    /\ Forall2 (fun R U =>
                  map fst U = map fname (data point_struct)
                  /\ forall f, In f (data point_struct) ->
                       reproduces (ftype f) (get_prop (fname f) R) (get_prop (fname f) U))
         [point_with_fillers; point_with_fillers] unpacked.
Proof.
  apply (Struct_roundtrip_of_arrays point_struct [point_with_fillers; point_with_fillers]).
  - discriminate.
  - repeat constructor; cbn; intuition discriminate.
  - repeat constructor;
      intros f [<-|[<-|[<-|[<-|[]]]]]; cbn; eexists; split; reflexivity.
Defined.

End ArrayRoundTripExamples.

(** ** More of ComputePass: the shader text of a pass *)

Section ShaderText.

Import Layout Core Regex Passes.

Context {N : Numbers}.

Lemma t_app (a b : string) : t (a +:+ b) = t a ++ t b.
Proof.
  induction a as [|x a IH]; [reflexivity|].
  rewrite string_app_cons. unfold t in *. cbn [list_ascii_of_string app]. rewrite IH.
  reflexivity.
Qed.

(** The loop that collects the declarations numbers them from [k] on. *)
Lemma bindingsCode_lines (hs : list handle) :
  forall k : nat,
    t (bindingsCode hs k)
    = concat (imap (fun i h => t (handle_getBindingCode h (k + i)) ++ [newline]) hs).
Proof.
  induction hs as [|h hs IH]; intros k; [reflexivity|].
  cbn [bindingsCode imap concat]. rewrite !t_app, IH, Nat.add_0_r, <- app_assoc.
  f_equal. f_equal. f_equal. apply imap_ext. intros i x _. cbn. f_equal. f_equal. f_equal. lia.
Qed.

(** The loop that prepends the struct declarations leaves the one of the
    last binding first. *)
Lemma prepend_structs_rev (hs : list handle) :
  forall code : text,
    prepend_structs hs code
    = concat (rev (map (fun s => t (Layout.code s +:+ String newline ""))
                     (omap handle_struct hs)))
      ++ code.
Proof.
  induction hs as [|h hs IH]; intros code; [reflexivity|].
  cbn [prepend_structs]. rewrite IH.
  change (omap handle_struct (h :: hs))
    with (match handle_struct h with
          | Some s => s :: omap handle_struct hs
          | None => omap handle_struct hs
          end).
  destruct (handle_struct h) as [s|]; [|reflexivity].
  cbn [map rev]. rewrite concat_app. cbn [concat]. rewrite app_nil_r, <- app_assoc.
  reflexivity.
Qed.

(** The constructor on a list that holds no Array once finalized. *)
Lemma single_pass (g : Globals) (code : text) (loc : nat) (d : dispatch_arg)
    (entry_point : string) (heap : list (list entry)) (explicit final : list entry) :
  heap !! loc = Some explicit ->
  finalize g code explicit = Returns final ->
  chunk_entries final = 0 ->
  new_ComputePass g code loc d entry_point heap
  = (p <- build_pass g code final d entry_point ;;
     Returns (OnePass p, <[loc := final]> heap)).
Proof.
  intros Hloc Hfin Hsingle. unfold new_ComputePass. rewrite Hloc.
  rewrite <- (finalize_chunk_entries _ _ _ _ Hfin), Hsingle.
  rewrite new_ComputePass_fuel_step, Hloc, Hfin. cbn [bind].
  rewrite (find_chunks_None final 0 Hsingle). reflexivity.
Qed.

(** X10.  On a binding list that, once finalized, holds no Array, the
    constructor returns one pass and leaves the finalized list in the
    caller's Array.  The pass binds the entries of the list in their order,
    slot [i] to entry [i].  Its shader text is, from the top: the
    declaration of the struct of every binding that has one, the struct of
    the last binding first and one declaration per binding (a struct that
    two buffers share is declared twice); then the declaration of every
    binding, numbered from 0 in the order of the list; then the text that
    the caller gave.  A number as dispatch size becomes an Array of one
    element. *)
Theorem single_pass_shader_text (g : Globals) (code : text) (loc : nat) (d : dispatch_arg)
    (entry_point : string) (heap : list (list entry)) (explicit final : list entry) :
  is_Some (device g) ->
  heap !! loc = Some explicit ->
  finalize g code explicit = Returns final ->
  chunk_entries final = 0 ->
  exists p,
    new_ComputePass g code loc d entry_point heap
    = Returns (OnePass p, <[loc := final]> heap)
    /\ bindGroup p = handles final
    /\ length (bindGroup p) = length final
    /\ entryPoint p = entry_point
    /\ dispatchSize p = match d with
                        | Scalar n => [n]
                        | Vector ns => ns
                        end
    /\ Passes.code p
       = concat (rev (map (fun s => t (Layout.code s +:+ String newline ""))
                        (omap handle_struct (handles final))))
         ++ concat (imap (fun i h => t (handle_getBindingCode h i) ++ [newline])
                      (handles final))
         ++ code.
Proof.
  intros [dev Hdev] Hloc Hfin Hsingle.
  rewrite (single_pass g code loc d entry_point heap explicit final Hloc Hfin Hsingle).
  unfold build_pass. rewrite Hdev. cbn [bind]. eexists. split; [reflexivity|].
  cbn [bindGroup entryPoint dispatchSize Passes.code].
  split; [reflexivity|]. split; [|split; [reflexivity|split; [reflexivity|]]].
  - clear -Hsingle. induction final as [|e final IH]; [reflexivity|].
    destruct e as [h|hs]; [|discriminate]. cbn [handles length]. f_equal. apply IH.
    exact Hsingle.
  - rewrite prepend_structs_rev, bindingsCode_lines. reflexivity.
Qed.

(** X25.  The two static constructors.  [ComputePass.texture] asks for
    one invocation per pixel of the canvas (the two module variables as they
    are, [undefined] while the canvas size is not set) and
    [ComputePass.compute] for one per element of the Array it is given, both
    with the entry point [main].
    This holds for a binding list without an Array.  With an Array of chunk
    buffers in the list the size that the caller asks for is dropped: every
    pass of the fan-out dispatches the [count] of its own chunk. *)
Theorem static_constructors_dispatch {A : Type} (g : Globals) (code : text) (loc : nat)
    (arr : list A) (heap : list (list entry)) (explicit final : list entry) :
  is_Some (device g) ->
  heap !! loc = Some explicit ->
  finalize g code explicit = Returns final ->
  (chunk_entries final = 0 ->
   exists p q,
     ComputePass_texture g code loc heap = Returns (OnePass p, <[loc := final]> heap)
     /\ dispatchSize p = [canvas_width g; canvas_height g]
     /\ entryPoint p = "main"
     /\ ComputePass_compute g code loc arr heap = Returns (OnePass q, <[loc := final]> heap)
     /\ dispatchSize q = [Some (length arr)]
     /\ entryPoint q = "main"
     /\ bindGroup p = handles final /\ bindGroup q = handles final)
  /\ (forall pre chunk post,
        final = pre ++ Chunks chunk :: post ->
        chunk_entries pre = 0 -> chunk_entries post = 0 ->
        test noise_call code = false \/ noiseBuffer g = None ->
        exists ps qs heap1 heap2,
          ComputePass_texture g code loc heap = Returns (PassArray (map OnePass ps), heap1)
          /\ ComputePass_compute g code loc arr heap
             = Returns (PassArray (map OnePass qs), heap2)
          /\ Forall2 (fun p h => dispatchSize p = [handle_count h]) ps chunk
          /\ Forall2 (fun q h => dispatchSize q = [handle_count h]) qs chunk).
Proof.
  intros Hdev Hloc Hfin. split.
  - intros Hsingle. unfold ComputePass_texture, ComputePass_compute.
    rewrite !(single_pass g code loc _ "main" heap explicit final Hloc Hfin Hsingle).
    destruct Hdev as [dev Hdev]. unfold build_pass. rewrite Hdev. cbn [bind].
    eexists _, _. repeat split.
  - intros pre chunk post -> Hpre Hpost Hquiet.
    unfold ComputePass_texture, ComputePass_compute.
    destruct (fan_out_without_noise g code loc (Vector [canvas_width g; canvas_height g])
                "main" heap explicit pre post chunk Hdev Hloc Hfin Hpre Hpost Hquiet)
      as [ps [heap1 [Hps [_ Hpall]]]].
    destruct (fan_out_without_noise g code loc (Vector [Some (length arr)])
                "main" heap explicit pre post chunk Hdev Hloc Hfin Hpre Hpost Hquiet)
      as [qs [heap2 [Hqs [_ Hqall]]]].
    exists ps, qs, heap1, heap2. split; [exact Hps|]. split; [exact Hqs|].
    split; (eapply Forall2_impl; [eassumption|]); intros p h [_ H]; exact H.
Qed.

End ShaderText.

(** ** More of the resolver: names, and a second look at the list *)

Section ResolverNames.

Import Layout Core Regex Passes.

Context {N : Numbers}.

(** What one row of the table pushes has a name that the list did not
    have. *)
Lemma inject_auto_fresh (g : Globals) (code : text) (bs bs' : list entry) (w : well_known) :
  inject_auto g code bs w = Returns bs' ->
  bs' = bs
  \/ exists h name,
       bs' = bs ++ [One h] /\ handle_name h = name /\ named name bs = false
       /\ auto_handle g w = Some h /\ test (auto_regex w) code = true.
Proof.
  unfold inject_auto. destruct (test (auto_regex w) code) eqn:Ht; [|intros [= <-]; auto].
  destruct (auto_name g w) as [name|] eqn:Hn; [|discriminate].
  destruct (auto_handle g w) as [h|] eqn:Hh; [|discriminate].
  destruct (named name bs) eqn:Hnamed; intros [= <-]; [auto|].
  right. exists h, name. rewrite (auto_handle_name _ _ _ _ Hn Hh). auto.
Qed.

(** The names of what the table pushes differ from each other and from
    every name that the list had. *)
Lemma inject_all_fresh (g : Globals) (code : text) (table : list well_known) :
  forall (bs bs' : list entry),
    inject_all g code bs table = Returns bs' ->
    exists pushed,
      bs' = bs ++ pushed
      /\ Forall (fun e => exists h, e = One h /\ named (handle_name h) bs = false) pushed
      /\ List.NoDup (map entry_name pushed).
Proof.
  induction table as [|w table IH]; intros bs bs' H.
  - injection H as <-. exists []. rewrite app_nil_r. repeat constructor.
  - cbn [inject_all] in H.
    destruct (inject_auto g code bs w) as [bs1| |] eqn:Hw; cbn [bind] in H; try discriminate.
    destruct (IH _ _ H) as [pushed [-> [Hfresh Hnd]]].
    destruct (inject_auto_fresh _ _ _ _ _ Hw) as [->|[h [name [-> [Hname [Hnamed _]]]]]].
    + exists pushed. auto.
    + exists (One h :: pushed). rewrite <- app_assoc. split; [reflexivity|]. split.
      * constructor; [exists h; rewrite Hname; auto|].
        eapply Forall_impl; [exact Hfresh|]. intros e [h' [-> Hn']]. exists h'.
        split; [reflexivity|]. rewrite named_app in Hn'.
        apply orb_false_iff in Hn' as [Hn' _]. exact Hn'.
      * cbn [map entry_name]. constructor; [|exact Hnd].
        intros Hin. apply in_map_iff in Hin as [e [He Hin]].
        rewrite List.Forall_forall in Hfresh. destruct (Hfresh e Hin) as [h' [-> Hn']].
        cbn [entry_name] in He. injection He as He. rewrite He, Hname in Hn'.
        rewrite named_app in Hn'. apply orb_false_iff in Hn' as [_ Hn'].
        cbn [named existsb entry_name] in Hn'. rewrite Hname in Hn'.
        rewrite bool_decide_eq_true_2 in Hn' by reflexivity. discriminate.
Qed.

(** X11.  The four rows of the table never declare a name twice: what
    they push are single handles whose names differ from each other and
    from the name of every entry that the caller listed.  So a view that
    the caller lists under the name of a well-known texture keeps the view
    of the table out, whatever its access mode; and only the noise buffer,
    which is pushed without a look at the list, can bring a name a second
    time. *)
Theorem auto_bindings_keep_names_apart (g : Globals) (code : text)
    (explicit final : list entry) :
  finalize g code explicit = Returns final ->
  exists pushed,
    final = inject_noise g code (explicit ++ pushed)
    /\ Forall (fun e => exists h, e = One h /\ named (handle_name h) explicit = false) pushed
    /\ List.NoDup (map entry_name pushed)
    /\ (forall w name,
          auto_name g w = Some name -> named name explicit = true ->
          named name pushed = false).
Proof.
  unfold finalize. intros H.
  destruct (inject_all g code explicit Auto_Bindings) as [bs| |] eqn:Hall; cbn [bind] in H;
    try discriminate.
  injection H as <-. destruct (inject_all_fresh _ _ _ _ _ Hall) as [pushed [-> [Hfresh Hnd]]].
  exists pushed. split; [reflexivity|]. split; [exact Hfresh|]. split; [exact Hnd|].
  intros w name _ Hnamed. unfold named.
  destruct (existsb _ pushed) eqn:E; [|reflexivity].
  apply existsb_exists in E as [e [Hin He]]. apply bool_decide_eq_true_1 in He.
  rewrite List.Forall_forall in Hfresh. destruct (Hfresh e Hin) as [h [-> Hn]].
  cbn [entry_name] in He. injection He as He. rewrite He in Hn. congruence.
Qed.

(** Nothing is pushed on a list that names every resource that the text
    mentions. *)
Lemma inject_all_settled (g : Globals) (code : text) (bs : list entry)
    (table : list well_known) :
  (forall w, In w table -> test (auto_regex w) code = true ->
     exists name, auto_name g w = Some name /\ named name bs = true) ->
  inject_all g code bs table = Returns bs.
Proof.
  induction table as [|w table IH]; intros Hall; [reflexivity|]. cbn [inject_all].
  assert (Hw : inject_auto g code bs w = Returns bs).
  { unfold inject_auto. destruct (test (auto_regex w) code) eqn:Ht; [|reflexivity].
    destruct (Hall w (or_introl eq_refl) Ht) as [name [Hn Hnamed]].
    destruct (auto_name_handle _ _ _ Hn) as [h Hh]. rewrite Hn, Hh, Hnamed. reflexivity. }
  rewrite Hw. cbn [bind]. apply IH. intros w' Hin. apply Hall. right. exact Hin.
Qed.

(** X12.  A second construction with the same text on the list that the
    first one finalized finds every well-known resource there and pushes
    none of them again.  When the text calls no noise function, or no noise
    buffer exists, the list stays as it is; otherwise every further
    construction puts the noise buffer once more at its end. *)
Theorem second_construction_adds_only_noise (g : Globals) (code : text)
    (explicit final : list entry) :
  finalize g code explicit = Returns final ->
  finalize g code final = Returns (inject_noise g code final)
  /\ (test noise_call code = false \/ noiseBuffer g = None ->
      finalize g code final = Returns final)
  /\ (forall nb,
        test noise_call code = true -> noiseBuffer g = Some nb ->
        forall n : nat,
          Nat.iter n (fun r => bs <- r ;; finalize g code bs) (Returns final)
          = Returns (final ++ repeat (One (BufferHandle nb)) n)).
Proof.
  intros Hfin.
  assert (Hsettled : forall more,
             finalize g code (final ++ more) = Returns (inject_noise g code (final ++ more))).
  { intros more. unfold finalize. rewrite inject_all_settled; [reflexivity|].
    intros w _ Ht. destruct (finalize_named _ _ _ _ w Hfin Ht) as [name [Hn Hnamed]].
    exists name. split; [exact Hn|]. rewrite named_app, Hnamed. reflexivity. }
  pose proof (Hsettled []) as Hagain. rewrite app_nil_r in Hagain.
  split; [exact Hagain|]. split.
  - intros Hquiet. rewrite Hagain. unfold inject_noise.
    destruct Hquiet as [->| ->]; [reflexivity|]. destruct (test noise_call code); reflexivity.
  - intros nb Hcall Hnb n. induction n as [|n IH]; [rewrite app_nil_r; reflexivity|].
    rewrite Nat.iter_succ, IH. cbn [bind]. rewrite Hsettled. unfold inject_noise.
    rewrite Hcall, Hnb, <- app_assoc. f_equal. f_equal.
    rewrite <- repeat_cons. reflexivity.
Qed.

End ResolverNames.

Section PassesMoreExamples.

Import Layout Core Regex Passes Samples.

#[local] Existing Instance IntNumbers.

(** A shader that reads the pointer and the clock, with one buffer of the
    caller: three bindings, and the struct of the mouse buffer on top. *)
Lemma single_pass_shader_text_witness :
  exists p,
    new_ComputePass session pointer_clock_shader 0 (Scalar (Some 64)) "main" [[One settings]]
    = Returns (OnePass p,
               <[0 := [One settings; One (BufferHandle the_mouseBuffer);
                       One (BufferHandle the_timeBuffer)]]> [[One settings]])
    /\ bindGroup p
       = handles [One settings; One (BufferHandle the_mouseBuffer);
                  One (BufferHandle the_timeBuffer)]
    /\ length (bindGroup p)
       = length [One settings; One (BufferHandle the_mouseBuffer);
                 One (BufferHandle the_timeBuffer)]
    /\ entryPoint p = "main"
    /\ dispatchSize p = [Some 64]
    /\ Passes.code p
       = concat (rev (map (fun s => t (Layout.code s +:+ String newline ""))
                        (omap handle_struct
                           (handles [One settings; One (BufferHandle the_mouseBuffer);
                                     One (BufferHandle the_timeBuffer)]))))
         ++ concat (imap (fun i h => t (handle_getBindingCode h i) ++ [newline])
                      (handles [One settings; One (BufferHandle the_mouseBuffer);
                                One (BufferHandle the_timeBuffer)]))
         ++ pointer_clock_shader.
Proof.
  apply (single_pass_shader_text session pointer_clock_shader 0 (Scalar (Some 64)) "main"
           [[One settings]] [One settings]).
  - eexists. reflexivity.
  - reflexivity.
  - reflexivity.
  - reflexivity.
Defined.

Example pointer_clock_pass_text :
  match new_ComputePass session pointer_clock_shader 0 (Scalar (Some 64)) "main"
          [[One settings]] with
  | Returns (OnePass p, _) => string_of_list_ascii (Passes.code p)
  | _ => ""
  end
  = "struct mouseStruct {" +:+ line_feed
      +:+ "pos: vec2<f32>," +:+ line_feed
      +:+ "button: f32," +:+ line_feed
      +:+ "FILLER___0: f32" +:+ line_feed
      +:+ "};" +:+ line_feed
      +:+ "@group(0) @binding(0) var<storage, read_write> settings: f32;" +:+ line_feed
      +:+ "@group(0) @binding(1) var<storage, read_write> mouse: mouseStruct;" +:+ line_feed
      +:+ "@group(0) @binding(2) var<storage, read_write> time: f32;" +:+ line_feed
      +:+ "let r = sin(time * 2.0) + mouse.pos.x;".
Proof. reflexivity. Qed.

(** The match pass lists a read view of the output texture: the table,
    which would push a write view, pushes nothing. *)
Lemma auto_bindings_keep_names_apart_witness :
  exists pushed,
    match_bindings = inject_noise session match_shader (match_bindings ++ pushed)
    /\ Forall (fun e => exists h, e = One h /\ named (handle_name h) match_bindings = false)
         pushed
    /\ List.NoDup (map entry_name pushed)
    /\ (forall w name,
          auto_name session w = Some name -> named name match_bindings = true ->
          named name pushed = false).
Proof.
  apply (auto_bindings_keep_names_apart session match_shader match_bindings match_bindings).
  reflexivity.
Defined.

(** Three constructions with a noise shader on one list. *)
Lemma second_construction_adds_only_noise_witness :
  finalize session_with_noise noise_shader [One (BufferHandle the_noiseBuffer)]
  = Returns (inject_noise session_with_noise noise_shader [One (BufferHandle the_noiseBuffer)])
  /\ (test noise_call noise_shader = false \/ noiseBuffer session_with_noise = None ->
      finalize session_with_noise noise_shader [One (BufferHandle the_noiseBuffer)]
      = Returns [One (BufferHandle the_noiseBuffer)])
  /\ (forall nb,
        test noise_call noise_shader = true -> noiseBuffer session_with_noise = Some nb ->
        forall n : nat,
          Nat.iter n (fun r => bs <- r ;; finalize session_with_noise noise_shader bs)
            (Returns [One (BufferHandle the_noiseBuffer)])
          = Returns ([One (BufferHandle the_noiseBuffer)] ++ repeat (One (BufferHandle nb)) n)).
Proof.
  apply (second_construction_adds_only_noise session_with_noise noise_shader []
           [One (BufferHandle the_noiseBuffer)]).
  reflexivity.
Defined.

(** A clock shader through both static constructors, and the shader
    that moves particles on the three chunks. *)
Lemma static_constructors_dispatch_witness :
  (chunk_entries [One (BufferHandle the_timeBuffer)] = 0 ->
   exists p q,
     ComputePass_texture session clock_shader 0 [[]]
     = Returns (OnePass p, <[0 := [One (BufferHandle the_timeBuffer)]]> [[]])
     /\ dispatchSize p = [canvas_width session; canvas_height session]
     /\ entryPoint p = "main"
     /\ ComputePass_compute session clock_shader 0 [settings; bounds] [[]]
        = Returns (OnePass q, <[0 := [One (BufferHandle the_timeBuffer)]]> [[]])
     /\ dispatchSize q = [Some (length [settings; bounds])]
     /\ entryPoint q = "main"
     /\ bindGroup p = handles [One (BufferHandle the_timeBuffer)]
     /\ bindGroup q = handles [One (BufferHandle the_timeBuffer)])
  /\ (forall pre chunk post,
        [One (BufferHandle the_timeBuffer)] = pre ++ Chunks chunk :: post ->
        chunk_entries pre = 0 -> chunk_entries post = 0 ->
        test noise_call clock_shader = false \/ noiseBuffer session = None ->
        exists ps qs heap1 heap2,
          ComputePass_texture session clock_shader 0 [[]]
          = Returns (PassArray (map OnePass ps), heap1)
          /\ ComputePass_compute session clock_shader 0 [settings; bounds] [[]]
             = Returns (PassArray (map OnePass qs), heap2)
          /\ Forall2 (fun p h => dispatchSize p = [handle_count h]) ps chunk
          /\ Forall2 (fun q h => dispatchSize q = [handle_count h]) qs chunk).
Proof.
  apply (static_constructors_dispatch session clock_shader 0 [settings; bounds] [[]] []
           [One (BufferHandle the_timeBuffer)]).
  - eexists. reflexivity.
  - reflexivity.
  - reflexivity.
Defined.

Example compute_on_chunks_ignores_the_length :
  match ComputePass_compute session move_shader 0 [settings] [split_bindings] with
  | Returns (r, _) => map dispatchSize (passes_of r)
  | _ => []
  end = [[Some 65000]; [Some 65000]; [Some 20000]].
Proof. reflexivity. Qed.

End PassesMoreExamples.

(** ** More of the scanner: what it keeps *)

Section Trim.

Lemma trim_start_fixed (s : text) :
  match s with c :: _ => is_space c = false | [] => True end -> trim_start s = s.
Proof. destruct s as [|c r]; [reflexivity|]. cbn [trim_start]. intros ->. reflexivity. Qed.

Lemma trim_start_head (s : text) :
  match trim_start s with c :: _ => is_space c = false | [] => True end.
Proof.
  induction s as [|c r IH]; [exact I|]. cbn [trim_start].
  destruct (is_space c) eqn:E; [exact IH|exact E].
Qed.

Lemma trim_start_suffix (s : text) : suffix (trim_start s) s.
Proof.
  induction s as [|c r IH]; [reflexivity|]. cbn [trim_start].
  destruct (is_space c); [apply suffix_cons_r, IH|reflexivity].
Qed.

Lemma trim_start_snoc (l : text) (c : ascii) :
  is_space c = false -> trim_start (l ++ [c]) = trim_start l ++ [c].
Proof.
  intros Hc. induction l as [|x l IH]; cbn [app trim_start]; [rewrite Hc; reflexivity|].
  destruct (is_space x); [exact IH|reflexivity].
Qed.

Lemma trim_start_snoc_space (l : text) (c : ascii) :
  is_space c = true ->
  trim_start (l ++ [c]) = trim_start l ++ [c]
  \/ (trim_start l = [] /\ trim_start (l ++ [c]) = []).
Proof.
  intros Hc. induction l as [|x l IH]; cbn [app trim_start]; [rewrite Hc; auto|].
  destruct (is_space x); [exact IH|auto].
Qed.

Lemma trim_end_snoc_space (l : text) (c : ascii) :
  is_space c = true -> trim_end (l ++ [c]) = trim_end l.
Proof.
  intros Hc. unfold trim_end. rewrite rev_app_distr. cbn [rev app trim_start].
  rewrite Hc. reflexivity.
Qed.

(** A text that begins and ends with something else than white space is
    its own trimming. *)
Lemma trim_fixed (s : text) :
  trim_start s = s -> trim_start (rev s) = rev s -> trim s = s.
Proof.
  intros H1 H2. unfold trim, trim_end. rewrite H1, H2. apply rev_involutive.
Qed.

Lemma trim_end_head (c : ascii) (r : text) :
  is_space c = false -> exists r', trim_end (c :: r) = c :: r'.
Proof.
  intros Hc. unfold trim_end. cbn [rev]. rewrite (trim_start_snoc _ _ Hc), rev_app_distr.
  eexists. reflexivity.
Qed.

Lemma trim_idempotent (s : text) : trim (trim s) = trim s.
Proof.
  apply trim_fixed.
  - unfold trim. pose proof (trim_start_head s) as Hh.
    destruct (trim_start s) as [|c r]; [reflexivity|].
    destruct (trim_end_head c r Hh) as [r' ->]. cbn [trim_start]. rewrite Hh. reflexivity.
  - unfold trim, trim_end. rewrite rev_involutive. apply trim_start_fixed, trim_start_head.
Qed.

Lemma trim_In (c : ascii) (s : text) : In c (trim s) -> In c s.
Proof.
  unfold trim, trim_end. intros H. apply in_rev in H.
  apply (suffix_In _ _ _ (trim_start_suffix _)) in H. apply in_rev in H.
  exact (suffix_In _ _ _ (trim_start_suffix _) H).
Qed.

Lemma trim_snoc_space (l : text) (c : ascii) :
  is_space c = true -> trim (l ++ [c]) = trim l.
Proof.
  intros Hc. unfold trim.
  destruct (trim_start_snoc_space l c Hc) as [->|[E ->]].
  - apply trim_end_snoc_space, Hc.
  - rewrite E. reflexivity.
Qed.

End Trim.

Section ScannerShape.

Import Regex Scanner.

Lemma suffix_same_length (a b : text) : suffix a b -> length b <= length a -> a = b.
Proof.
  intros [k ->]. rewrite length_app. destruct k as [|x k]; [reflexivity|].
  cbn [length]. lia.
Qed.

(** Where [skipWhitespaceAndComments] stops, a further round skips
    nothing. *)
Lemma skipWhitespaceAndComments_fuel_stable (fuel : nat) :
  forall s s',
    skipWhitespaceAndComments_fuel fuel s = Returns s' ->
    snd (skipComment (skipWhitespace s')) = s'.
Proof.
  induction fuel as [|fuel IH]; intros s s'; cbn [skipWhitespaceAndComments_fuel];
    [discriminate|].
  assert (Hround : suffix (snd (skipComment (skipWhitespace s))) s)
    by (etransitivity; [apply skipComment_suffix|apply skipWhitespace_suffix]).
  destruct (Nat.ltb_spec (length (snd (skipComment (skipWhitespace s)))) (length s))
    as [_|Hge]; [apply IH|].
  intros [= <-]. rewrite (suffix_same_length _ _ Hround Hge) at 1 2.
  exact (suffix_same_length _ _ Hround Hge).
Qed.

Lemma skipWhitespaceAndComments_again (s s' : text) :
  skipWhitespaceAndComments s = Returns s' -> skipWhitespaceAndComments s' = Returns s'.
Proof.
  intros H. apply skipWhitespaceAndComments_fuel_stable in H.
  unfold skipWhitespaceAndComments. cbn [skipWhitespaceAndComments_fuel].
  rewrite H, Nat.ltb_irrefl. reflexivity.
Qed.

(** When the brace loop ends with the count at zero, the cursor is right
    behind a closing brace. *)
Lemma brace_loop_closes (fuel : nat) :
  forall (braceCount : nat) (s s' : text),
    brace_loop fuel braceCount s = Returns (0, s') ->
    (braceCount = 0 /\ s' = s) \/ exists pre, s = pre ++ close_brace :: s'.
Proof.
  induction fuel as [|fuel IH]; intros braceCount s s'; cbn [brace_loop]; [discriminate|].
  destruct s as [|c0 s0]; [intros [= -> <-]; auto|].
  destruct braceCount as [|k]; [intros [= <-]; auto|].
  destruct (skipWhitespaceAndComments (c0 :: s0)) as [s1| |] eqn:Eskip; cbn [bind];
    try discriminate.
  destruct (skipWhitespaceAndComments_suffix _ _ Eskip) as [skipped Hs]. rewrite Hs.
  intros H. right.
  destruct s1 as [|c r].
  { apply IH in H as [[? _]|[pre Hpre]]; [discriminate|]. destruct pre; discriminate. }
  destruct (Ascii.eqb c open_brace).
  { apply IH in H as [[? _]|[pre ->]]; [discriminate|].
    exists (skipped ++ c :: pre). rewrite <- app_assoc. reflexivity. }
  destruct (Ascii.eqb_spec c close_brace) as [->|_].
  { apply IH in H as [[_ ->]|[pre ->]].
    - exists skipped. reflexivity.
    - exists (skipped ++ close_brace :: pre). rewrite <- app_assoc. reflexivity. }
  destruct (Ascii.eqb c quote).
  - apply IH in H as [[? _]|[pre Hpre]]; [discriminate|].
    assert (Hq : suffix (pre ++ close_brace :: s') r).
    { rewrite <- Hpre. pose proof (to_closing_quote_suffix r) as Hsuf.
      destruct (to_closing_quote r) as [|c' r']; [apply suffix_nil|].
      destruct (Ascii.eqb c' quote); [|exact Hsuf].
      etransitivity; [apply suffix_cons_r; reflexivity|exact Hsuf]. }
    destruct Hq as [k2 ->]. exists (skipped ++ c :: k2 ++ pre).
    rewrite <- !app_assoc. cbn [app]. rewrite <- app_assoc. reflexivity.
  - apply IH in H as [[? _]|[pre ->]]; [discriminate|].
    exists (skipped ++ c :: pre). rewrite <- app_assoc. reflexivity.
Qed.

Lemma findMatchingBrace_closes (s rest : text) :
  findMatchingBrace s = Returns (Some rest) ->
  exists inner, s = open_brace :: inner ++ close_brace :: rest.
Proof.
  unfold findMatchingBrace. destruct s as [|c r]; [discriminate|].
  destruct (Ascii.eqb_spec c open_brace) as [->|_]; [|discriminate].
  destruct (brace_loop (S (length r)) 1 r) as [[count s']| |] eqn:E; cbn [bind fst snd];
    try discriminate.
  destruct count as [|count]; [|discriminate]. intros [= <-].
  apply brace_loop_closes in E as [[? _]|[pre ->]]; [discriminate|].
  exists pre. reflexivity.
Qed.

(** A function that [parseFunction] finds at a cursor where nothing is
    to be skipped is the text from the cursor to the closing brace, as it
    stands. *)
Lemma parseFunction_text (start fnCode rest : text) :
  skipWhitespaceAndComments start = Returns start ->
  parseFunction start = Returns (Some (fnCode, rest)) ->
  start = fnCode ++ rest
  /\ exists inner, fnCode = t "fn" ++ inner ++ [close_brace].
Proof.
  intros Hstable. unfold parseFunction, matchKeyword. rewrite Hstable. cbn [bind].
  destruct (strip_prefix (t "fn") start) as [s1|] eqn:Ekw; [|discriminate].
  destruct (is_word_after s1); [discriminate|].
  apply strip_prefix_Some in Ekw.
  destruct (skipWhitespaceAndComments s1) as [s2| |] eqn:E2; cbn [bind];
    try discriminate.
  pose proof (skipWhitespaceAndComments_suffix _ _ E2) as Hs2.
  pose proof (readIdentifier_suffix s2) as Hs3.
  destruct (readIdentifier s2) as [name s3]. cbn [snd] in Hs3.
  destruct (is_empty name); [discriminate|].
  destruct (skipWhitespaceAndComments s3) as [s4| |] eqn:E4; cbn [bind];
    try discriminate.
  pose proof (skipWhitespaceAndComments_suffix _ _ E4) as Hs4.
  destruct s4 as [|c r4]; [discriminate|].
  destruct (Ascii.eqb c open_paren); cbn [negb]; [|discriminate].
  pose proof (to_group_end_suffix open_paren close_paren r4 1) as Hs5.
  set (s5 := to_group_end open_paren close_paren 1 r4) in *.
  destruct (skipWhitespaceAndComments s5) as [s6| |] eqn:E6; cbn [bind];
    try discriminate.
  pose proof (skipWhitespaceAndComments_suffix _ _ E6) as Hs6.
  match goal with
  | |- context [bind ?m _] =>
      match m with
      | context [to_return_type_end] =>
          destruct m as [s7| |] eqn:E7; cbn [bind]; try discriminate
      end
  end.
  pose proof (return_type_suffix _ _ E7) as Hs7.
  destruct (skipWhitespaceAndComments s7) as [s8| |] eqn:E8; cbn [bind];
    try discriminate.
  pose proof (skipWhitespaceAndComments_suffix _ _ E8) as Hs8.
  destruct (findMatchingBrace s8) as [[rest'|]| |] eqn:Eb; cbn [bind]; try discriminate.
  intros [= <- <-].
  destruct (findMatchingBrace_closes _ _ Eb) as [inner Hinner].
  assert (Hchain : suffix s8 s1).
  { etransitivity; [exact Hs8|]. etransitivity; [exact Hs7|].
    etransitivity; [exact Hs6|]. etransitivity; [exact Hs5|].
    etransitivity; [apply suffix_cons_r; reflexivity|].
    etransitivity; [exact Hs4|]. etransitivity; [exact Hs3|exact Hs2]. }
  destruct Hchain as [header Hheader].
  set (piece := t "fn" ++ (header ++ open_brace :: inner) ++ [close_brace]).
  assert (Hstart : start = piece ++ rest').
  { unfold piece. rewrite Ekw, Hheader, Hinner, <- !app_assoc. reflexivity. }
  assert (Hslice : slice start rest' = piece).
  { unfold slice. rewrite Hstart, length_app.
    replace (length piece + length rest' - length rest') with (length piece) by lia.
    apply take_app_length. }
  rewrite Hslice.
  assert (Htrim : trim piece = piece).
  { apply trim_fixed; [reflexivity|]. unfold piece. rewrite !rev_app_distr. reflexivity. }
  rewrite Htrim. split; [exact Hstart|]. eexists. reflexivity.
Qed.

(** What a line gives once trimmed. *)
Lemma read_line_no_newline (s : text) : ~ In newline (trim (fst (read_line s))).
Proof.
  assert (Hshape : exists l0, ~ In newline l0
                              /\ (fst (read_line s) = l0 \/ fst (read_line s) = l0 ++ [newline])).
  { induction s as [|c s IH]; [exists []; cbn; auto|]. cbn [read_line].
    destruct (Ascii.eqb_spec c newline) as [->|Hc]; [exists []; cbn; auto|].
    destruct (read_line s) as [line rest]. cbn [fst] in *.
    destruct IH as [l0 [Hno [->| ->]]]; exists (c :: l0);
      (split; [intros [E|Hin]; [congruence|exact (Hno Hin)]|auto]). }
  destruct Hshape as [l0 [Hno [->| ->]]].
  - intros Hin. exact (Hno (trim_In _ _ Hin)).
  - rewrite trim_snoc_space by reflexivity. intros Hin. exact (Hno (trim_In _ _ Hin)).
Qed.

Lemma loose_line_kept (s : text) :
  is_empty (trim (fst (read_line s))) = false -> loose_line (trim (fst (read_line s))).
Proof.
  intros Hne. split; [|split].
  - intros E. rewrite E in Hne. discriminate.
  - apply trim_idempotent.
  - apply read_line_no_newline.
Qed.

(** The loop of [parse] adds to the two lists and keeps what they hold;
    what it adds are functions of the text and loose lines. *)
Lemma parse_loop_keeps (code : text) (fuel : nat) :
  forall (s : text) (functions body : list text) (r : list text * list text),
    suffix s code ->
    parse_loop fuel s functions body = Returns r ->
    exists more_functions more_lines,
      fst r = functions ++ more_functions
      /\ snd r = body ++ more_lines
      /\ Forall (function_text code) more_functions
      /\ Forall loose_line more_lines.
Proof.
  induction fuel as [|fuel IH]; intros s functions body r Hs; cbn [parse_loop];
    [discriminate|].
  assert (Hdone : Returns (functions, body) = Returns r ->
                  exists more_functions more_lines,
                    fst r = functions ++ more_functions
                    /\ snd r = body ++ more_lines
                    /\ Forall (function_text code) more_functions
                    /\ Forall loose_line more_lines).
  { intros [= <-]. exists [], []. rewrite !app_nil_r. auto. }
  destruct s as [|c0 s0]; [exact Hdone|].
  destruct (skipWhitespaceAndComments (c0 :: s0)) as [s1| |] eqn:E1; cbn [bind];
    try discriminate.
  pose proof (skipWhitespaceAndComments_suffix _ _ E1) as Hs1.
  pose proof (skipWhitespaceAndComments_again _ _ E1) as Hstable.
  destruct s1 as [|c1 r1]; [exact Hdone|]. clear Hdone.
  assert (Hs1' : suffix (c1 :: r1) code) by (etransitivity; [exact Hs1|exact Hs]).
  destruct (parseFunction (c1 :: r1)) as [fnCode| |] eqn:Ef; cbn [bind];
    try discriminate.
  assert (Hloose : forall from,
             suffix from code ->
             (let (line, rest) := read_line from in
              parse_loop fuel rest functions
                (if is_empty (trim line) then body else body ++ [trim line])) = Returns r ->
             exists more_functions more_lines,
               fst r = functions ++ more_functions
               /\ snd r = body ++ more_lines
               /\ Forall (function_text code) more_functions
               /\ Forall loose_line more_lines).
  { intros from Hfrom. pose proof (read_line_suffix from) as Hrest.
    pose proof (loose_line_kept from) as Hline.
    destruct (read_line from) as [line rest]. cbn [fst snd] in *.
    intros H. apply IH in H; [|etransitivity; [exact Hrest|exact Hfrom]].
    destruct H as [mf [ml [Hf [Hb [HF HB]]]]].
    destruct (is_empty (trim line)).
    - exists mf, ml. auto.
    - exists mf, (trim line :: ml). rewrite Hb, <- app_assoc.
      split; [exact Hf|]. split; [reflexivity|]. split; [exact HF|].
      constructor; [apply Hline; reflexivity|exact HB]. }
  destruct fnCode as [[fnCode rest]|]; [|apply Hloose, Hs1'].
  destruct (parseFunction_text _ _ _ Hstable Ef) as [Hpiece Htext].
  assert (Hrest : suffix rest code).
  { etransitivity; [|exact Hs1']. rewrite Hpiece. apply suffix_app_r. reflexivity. }
  destruct (is_empty fnCode); [apply Hloose, Hrest|].
  intros H. apply IH in H; [|exact Hrest].
  destruct H as [mf [ml [Hf [Hb [HF HB]]]]].
  exists (fnCode :: mf), ml. rewrite Hf, <- app_assoc.
  split; [reflexivity|]. split; [exact Hb|]. split; [|exact HB].
  constructor; [|exact HF]. split; [exact Htext|].
  destruct Hs1' as [before Hbefore]. exists before, rest. rewrite Hbefore, Hpiece.
  reflexivity.
Qed.

(** [split('\n')] undoes [join('\n')] on lines without a line feed. *)
Lemma split_lines_from_line (l : text) :
  ~ In newline l ->
  forall cur rest,
    split_lines_from cur (l ++ newline :: rest)
    = (rev cur ++ l) :: split_lines_from [] rest.
Proof.
  induction l as [|c l IH]; intros Hno cur rest.
  - cbn [app split_lines_from]. rewrite Ascii.eqb_refl, app_nil_r. reflexivity.
  - cbn [app split_lines_from].
    destruct (Ascii.eqb_spec c newline) as [->|_]; [exfalso; apply Hno; left; reflexivity|].
    rewrite IH by (intros Hin; apply Hno; right; exact Hin).
    cbn [rev]. rewrite <- app_assoc. reflexivity.
Qed.

Lemma split_lines_from_last (l : text) :
  ~ In newline l ->
  forall cur, split_lines_from cur l = [rev cur ++ l].
Proof.
  induction l as [|c l IH]; intros Hno cur.
  - cbn [split_lines_from]. rewrite app_nil_r. reflexivity.
  - cbn [split_lines_from].
    destruct (Ascii.eqb_spec c newline) as [->|_]; [exfalso; apply Hno; left; reflexivity|].
    rewrite IH by (intros Hin; apply Hno; right; exact Hin).
    cbn [rev]. rewrite <- app_assoc. reflexivity.
Qed.

Lemma split_lines_join (lines : list text) :
  lines <> [] ->
  Forall (fun l => ~ In newline l) lines ->
  split_lines (join [newline] lines) = lines.
Proof.
  unfold split_lines. induction lines as [|l lines IH]; intros Hne Hall; [congruence|].
  inversion Hall as [|? ? Hl Hall']; subst.
  destruct lines as [|l' lines'].
  - cbn [join]. rewrite (split_lines_from_last l Hl). reflexivity.
  - change (join [newline] (l :: l' :: lines'))
      with (l ++ newline :: join [newline] (l' :: lines')).
    rewrite (split_lines_from_line l Hl), IH by (discriminate || assumption). reflexivity.
Qed.

(** The two lists of a scan. *)
Lemma scan_lists (code : text) (r : parsed) :
  WGSLParser_parse code = Returns r ->
  Forall (function_text code) (functions r)
  /\ exists lines, body r = join [newline] lines /\ Forall loose_line lines.
Proof.
  unfold WGSLParser_parse. intros Hr.
  destruct (parse_loop (S (length code)) code [] []) as [p| |] eqn:Ep; cbn [bind] in Hr;
    try discriminate.
  injection Hr as <-. cbn [functions body].
  destruct (parse_loop_keeps code _ _ _ _ _ (reflexivity code) Ep)
    as [mf [ml [Hf [Hb [HF HB]]]]].
  cbn [app] in Hb. rewrite Hf, Hb. split; [exact HF|]. exists ml. auto.
Qed.

(** X13.  A text without any closing brace has no function for the
    scan: the scan returns, and everything that is not white space or
    comment goes to the body. *)
Theorem scan_without_closing_brace (code : text) :
  ~ In close_brace code ->
  exists r, WGSLParser_parse code = Returns r /\ functions r = [].
Proof.
  intros Ho. destruct (WGSLParser_parse_returns code) as [r Hr]. exists r.
  split; [exact Hr|]. unfold WGSLParser_parse in Hr.
  destruct (parse_loop (S (length code)) code [] []) as [p| |] eqn:Ep; cbn [bind] in Hr;
    try discriminate.
  injection Hr as <-. cbn [functions].
  exact (parse_loop_open_ended _ _ _ _ _ Ho Ep).
Qed.

(** X14.  Every function that the scan returns is a piece of the text
    as it stands, comments and all: it starts with the keyword [fn], ends
    with a closing brace and occurs in the text. *)
Theorem scan_functions_are_verbatim (code : text) (r : parsed) :
  WGSLParser_parse code = Returns r ->
  Forall (function_text code) (functions r).
Proof. intros Hr. destruct (scan_lists code r Hr) as [Hfunctions _]. exact Hfunctions. Qed.

(** X15.  The body that the scan returns is made of the loose lines of
    the text: each of them is not empty, has no white space at either end
    and holds no line feed, and the body is these lines with a line feed
    between them.  So splitting the body at the line feeds gives the lines
    back, and no blank line comes out of the scan. *)
Theorem scan_body_is_trimmed_lines (code : text) (r : parsed) :
  WGSLParser_parse code = Returns r ->
  exists lines,
    body r = join [newline] lines
    /\ Forall loose_line lines
    /\ (lines <> [] -> split_lines (body r) = lines)
    /\ (lines = [] -> body r = []).
Proof.
  intros Hr. destruct (scan_lists code r Hr) as [_ [lines [Hb HB]]].
  exists lines. split; [exact Hb|]. split; [exact HB|]. rewrite Hb. split.
  - intros Hne. apply split_lines_join; [exact Hne|].
    eapply Forall_impl; [exact HB|]. intros l [_ [_ Hno]]. exact Hno.
  - intros ->. reflexivity.
Qed.

End ScannerShape.

Section ScannerShapeExamples.

Import Regex Scanner Samples.

(** The function whose brace is never closed. *)
Lemma scan_without_closing_brace_witness :
  exists r, WGSLParser_parse unclosed_function = Returns r /\ functions r = [].
Proof.
  apply (scan_without_closing_brace unclosed_function).
  vm_compute. intuition discriminate.
Defined.

(** A text with a closing brace in a comment only: the brace counts for
    the hypothesis, and the scan finds no function either. *)
Example closing_brace_in_a_comment :
  WGSLParser_parse (t "fn f() { a; // }")
  = Returns {| functions := []; body := t "fn f() { a; // }" |}.
Proof. vm_compute. reflexivity. Qed.

Lemma scan_functions_are_verbatim_witness :
  Forall (function_text two_functions) (functions two_functions_scan).
Proof.
  apply (scan_functions_are_verbatim two_functions two_functions_scan).
  vm_compute. reflexivity.
Defined.

Lemma scan_body_is_trimmed_lines_witness :
  exists lines,
    body two_functions_scan = join [newline] lines
    /\ Forall loose_line lines
    /\ (lines <> [] -> split_lines (body two_functions_scan) = lines)
    /\ (lines = [] -> body two_functions_scan = []).
Proof.
  apply (scan_body_is_trimmed_lines two_functions two_functions_scan).
  vm_compute. reflexivity.
Defined.

(** Comments between functions are dropped, comments inside a function
    are kept, and the indentation of a loose line is removed. *)
Example scan_keeps_inner_comments :
  WGSLParser_parse
    (t ("// helper" +:+ line_feed
        +:+ "fn a() { /* inner } */ return; }" +:+ line_feed
        +:+ "    let p = a();   " +:+ line_feed +:+ line_feed))
  = Returns {| functions := [t "fn a() { /* inner } */ return; }"];
               body := t "let p = a();" |}.
Proof. vm_compute. reflexivity. Qed.

End ScannerShapeExamples.

(** ** More of the assembler: the synthesized entry point *)

Section Wrapping.

Import Layout Core Regex Scanner Passes Assembler.

Lemma join_lines_concat (f : text -> text) (lines : list text) :
  lines <> [] ->
  join [newline] (map f lines) ++ [newline] = concat (map (fun l => f l ++ [newline]) lines).
Proof.
  induction lines as [|l lines IH]; intros Hne; [congruence|].
  destruct lines as [|l' lines']; [cbn; rewrite app_nil_r; reflexivity|].
  specialize (IH ltac:(discriminate)). cbn [map concat] in *.
  change (join [newline] (f l :: f l' :: map f lines'))
    with (f l ++ [newline] ++ join [newline] (f l' :: map f lines')).
  rewrite <- IH, <- !app_assoc. reflexivity.
Qed.

(** The text that [wrap] puts around a scan. *)
Lemma wrap_lines (p : parsed) (lines : list text) :
  body p = join [newline] lines ->
  Forall loose_line lines ->
  wrap p
  = match functions p with
    | [] => []
    | _ => join [newline; newline] (functions p) ++ [newline; newline]
    end
    ++ t "@compute @workgroup_size(1)" ++ [newline]
    ++ t "fn main(@builtin(global_invocation_id) id: vec3<u32>) {" ++ [newline]
    ++ concat (map (fun l => t "  " ++ l ++ [newline]) lines)
    ++ t "}".
Proof.
  intros Hbody Hlines. unfold wrap.
  destruct lines as [|l lines].
  - rewrite Hbody. cbn [join is_empty map concat]. rewrite <- !app_assoc. reflexivity.
  - assert (Hne : is_empty (body p) = false).
    { rewrite Hbody. inversion Hlines as [|? ? [Hl _] _]; subst.
      destruct l; [congruence|]. destruct lines; reflexivity. }
    assert (Hmid : join [newline]
                     (map (fun line => if is_empty (trim line) then line else t "  " ++ line)
                        (split_lines (body p))) ++ [newline]
                   = concat (map (fun l => t "  " ++ l ++ [newline]) (l :: lines))).
    { assert (Hsplit : split_lines (body p) = l :: lines).
      { rewrite Hbody. apply split_lines_join; [discriminate|].
        eapply Forall_impl; [exact Hlines|]. intros a [_ [_ Hno]]. exact Hno. }
      assert (Hmap : map (fun line => if is_empty (trim line) then line else t "  " ++ line)
                       (l :: lines)
                     = map (fun line => t "  " ++ line) (l :: lines)).
      { apply map_ext_in. intros a Ha. rewrite List.Forall_forall in Hlines.
        destruct (Hlines a Ha) as [Hnonempty [Htrim _]]. rewrite Htrim.
        destruct a; [congruence|reflexivity]. }
      rewrite Hsplit, Hmap, join_lines_concat by discriminate. reflexivity. }
    rewrite Hne, <- Hmid, <- !app_assoc. reflexivity.
Qed.

Lemma wrap_defines_main (p : parsed) : occurs (t "fn main(") (wrap p).
Proof.
  unfold wrap.
  set (head := match functions p with
               | [] => []
               | _ => join [newline; newline] (functions p) ++ [newline; newline]
               end ++ t "@compute @workgroup_size(1)" ++ [newline]).
  destruct (is_empty (body p)).
  - exists head, (t "@builtin(global_invocation_id) id: vec3<u32>) {" ++ [newline] ++ t "}").
    rewrite <- !app_assoc. reflexivity.
  - exists head, (t "@builtin(global_invocation_id) id: vec3<u32>) {" ++ [newline]
                  ++ join [newline]
                       (map (fun line => if is_empty (trim line) then line else t "  " ++ line)
                          (split_lines (body p)))
                  ++ [newline] ++ t "}").
    rewrite <- !app_assoc. reflexivity.
Qed.

End Wrapping.

Section AssemblerMore.

Import Layout Core Regex Scanner Passes Assembler.

Context {N : Numbers}.

Variables (wgslNoise wgslNoise2 : text) (random_offsets : list value).

(** X16.  With the canvas size set, so that the substitution returns, a
    template that defines no [main] comes back wrapped: the
    functions that the scan found, as they stand and with a blank line
    between them, then the two lines that open the synthesized entry point,
    then every loose line of the text, trimmed and indented by two spaces,
    then the closing brace.  The loose lines are never empty, so no blank
    line is left in the body. *)
Theorem wgsl_wraps_loose_lines (g g1 : Globals) (strings values : list text)
    (sized code : text) :
  substitute g (String_raw strings values) = Returns sized ->
  with_noise_library wgslNoise wgslNoise2 random_offsets g sized = Returns (code, g1) ->
  test (definition_of (t "main")) (trim code) = false ->
  exists (r : parsed) (lines : list text),
    WGSLParser_parse (trim code) = Returns r
    /\ body r = join [newline] lines
    /\ Forall loose_line lines
    /\ Forall (function_text (trim code)) (functions r)
    /\ wgsl wgslNoise wgslNoise2 random_offsets g strings values
       = Returns (match functions r with
                  | [] => []
                  | _ => join [newline; newline] (functions r) ++ [newline; newline]
                  end
                  ++ t "@compute @workgroup_size(1)" ++ [newline]
                  ++ t "fn main(@builtin(global_invocation_id) id: vec3<u32>) {" ++ [newline]
                  ++ concat (map (fun l => t "  " ++ l ++ [newline]) lines)
                  ++ t "}",
                  g1).
Proof.
  intros Hsized Hlib Hmain.
  destruct (WGSLParser_parse_returns (trim code)) as [r Hr].
  destruct (scan_lists (trim code) r Hr) as [Hfunctions [lines [Hbody Hlines]]].
  exists r, lines. split; [exact Hr|]. split; [exact Hbody|]. split; [exact Hlines|].
  split; [exact Hfunctions|].
  unfold wgsl. rewrite Hsized. cbn [bind]. rewrite Hlib. cbn [bind fst snd]. rewrite Hmain.
  unfold extractFunctionsAndBody. rewrite Hr. cbn [try_catch bind].
  rewrite (wrap_lines r lines Hbody Hlines). reflexivity.
Qed.

(** X17.  Whatever [wgsl] returns defines an entry point: the text
    matches [/fn\s+main\s*\(/], be it the caller's own [main] or the
    synthesized one. *)
Theorem wgsl_output_defines_main (g g1 : Globals) (strings values : list text) (out : text) :
  wgsl wgslNoise wgslNoise2 random_offsets g strings values = Returns (out, g1) ->
  test (definition_of (t "main")) out = true.
Proof.
  unfold wgsl.
  destruct (substitute g (String_raw strings values)) as [sized| |];
    cbn [bind]; try discriminate.
  destruct (with_noise_library wgslNoise wgslNoise2 random_offsets g sized)
    as [[code g']| |];
    cbn [bind fst snd]; try discriminate.
  destruct (test (definition_of (t "main")) (trim code)) eqn:Hmain.
  - intros [= <- _]. exact Hmain.
  - destruct (extractFunctionsAndBody (trim code)) as [p| |]; cbn [bind]; try discriminate.
    intros [= <- _]. apply test_definition_of_main, wrap_defines_main.
Qed.

(** The steps of [wgsl] behind the noise library always return. *)
Lemma wgsl_tail_returns (lib : text) (g1 : Globals) :
  exists out : text,
    (if test (definition_of (t "main")) (trim lib) then Returns (trim lib, g1)
     else p <- extractFunctionsAndBody (trim lib) ;; Returns (wrap p, g1))
    = Returns (out, g1).
Proof.
  destruct (test (definition_of (t "main")) (trim lib)).
  - eexists. reflexivity.
  - destruct (WGSLParser_parse_returns (trim lib)) as [p Hp].
    unfold extractFunctionsAndBody. rewrite Hp. cbn [try_catch bind]. eexists. reflexivity.
Qed.

(** X18.  [wgsl] needs the canvas size.  While [width] or [height] is
    not set, that is until [initCanvas] has got so far, it throws a
    TypeError on every template, at the substitution and before anything
    else is done.  Once [initCanvas] has set the device and the canvas size
    it returns on every template; the module state is then as before, or,
    for a text that wants the noise library while no noise buffer exists,
    as before with the new noise buffer of 4 bytes per random offset. *)
Theorem wgsl_needs_canvas_size (g : Globals) (strings values : list text) :
  (canvas_width g = None \/ canvas_height g = None ->
   wgsl wgslNoise wgslNoise2 random_offsets g strings values
   = Throws "TypeError: Cannot read properties of undefined (reading 'toFixed')")
  /\ (is_Some (device g) -> is_Some (canvas_width g) -> is_Some (canvas_height g) ->
      exists code out g1,
        substitute g (String_raw strings values) = Returns code
        /\ wgsl wgslNoise wgslNoise2 random_offsets g strings values = Returns (out, g1)
        /\ ((wants_noise code = false \/ is_Some (noiseBuffer g)) /\ g1 = g
            \/ exists d b,
                 wants_noise code = true /\ noiseBuffer g = None /\ device g = Some d
                 /\ noiseBuffer g1 = Some b
                 /\ Core.name b = "noiseOffset"
                 /\ Core.data b = Float32Array_of random_offsets
                 /\ size b = 4 * length random_offsets
                 /\ buffer b = length (gpu_buffers d)
                 /\ canvas_width g1 = canvas_width g /\ canvas_height g1 = canvas_height g
                 /\ mouseBuffer g1 = mouseBuffer g /\ timeBuffer g1 = timeBuffer g
                 /\ renderTxtr g1 = renderTxtr g /\ feedbackTxtr g1 = feedbackTxtr g)).
Proof.
  split.
  - intros Hunset. unfold wgsl. rewrite (substitute_unset g _ Hunset). reflexivity.
  - intros [d Hd] [w Hw] [h Hh]. unfold wgsl.
    rewrite (substitute_set g _ w h Hw Hh). cbn [bind].
    set (code := replace_whole_word (t "height") (toFixed2 h)
                   (replace_whole_word (t "width") (toFixed2 w)
                      (String_raw strings values))).
    exists code. unfold with_noise_library.
    destruct (wants_noise code) eqn:Hwants.
    + unfold getNoiseCode. destruct (noiseBuffer g) as [nb|] eqn:Hnb.
      * cbn [bind fst snd].
        match goal with
        | |- context [trim ?lib] => destruct (wgsl_tail_returns lib g) as [out Hout]
        end.
        exists out, g. split; [reflexivity|]. split; [exact Hout|]. left.
        split; [right; eauto|reflexivity].
      * rewrite Hd. cbn [new_Buffer try_catch bind fst snd].
        match goal with
        | |- context [Returns (trim ?lib, ?g1)] =>
            destruct (wgsl_tail_returns lib g1) as [out Hout]
        end.
        eexists out, _. split; [reflexivity|]. split; [exact Hout|]. right.
        exists d. eexists. do 6 (split; [reflexivity|]).
        split; [cbn [size]; unfold Float32Array_of; rewrite length_map; reflexivity|].
        repeat split; reflexivity.
    + cbn [bind fst snd]. destruct (wgsl_tail_returns code g) as [out Hout].
      exists out, g. split; [reflexivity|]. split; [exact Hout|]. left.
      split; [left; reflexivity|reflexivity].
Qed.

(** X19.  [getNoiseCode] makes the noise buffer once.  A call leaves a
    noise buffer in the module state, and a second call returns the same
    text and changes nothing: the buffer, its random offsets and the device
    stay as they are. *)
Theorem getNoiseCode_makes_buffer_once (g g1 : Globals) (lib : text) :
  getNoiseCode wgslNoise wgslNoise2 random_offsets g = Returns (lib, g1) ->
  is_Some (noiseBuffer g1)
  /\ (is_Some (noiseBuffer g) -> g1 = g)
  /\ getNoiseCode wgslNoise wgslNoise2 random_offsets g1 = Returns (lib, g1)
  /\ lib = newline :: t "    " ++ wgslNoise ++ newline :: t "    " ++ wgslNoise2
             ++ newline :: t "    ".
Proof.
  unfold getNoiseCode. destruct (noiseBuffer g) as [nb|] eqn:Hnb.
  - cbn [bind]. intros [= <- <-]. rewrite Hnb. cbn [bind].
    split; [eauto|]. split; [reflexivity|]. split; reflexivity.
  - destruct (new_Buffer "noiseOffset" (JsArray random_offsets) (device g)) as [[b d]| |];
      cbn [bind fst snd]; try discriminate.
    intros [= <- <-]. cbn [noiseBuffer with_noiseBuffer bind].
    split; [eauto|]. split; [intros [? ?]; discriminate|]. split; reflexivity.
Qed.

End AssemblerMore.

(** ** The substitution of the canvas size *)

Section Substitution.

Import Layout Core Regex Scanner Passes Assembler.

Context {N : Numbers}.

Lemma replace_from_unchanged (w replacement : text) :
  forall (s : text) (prev : option ascii),
    search (whole_word w) prev s = false ->
    replace_from w replacement 0 prev s = s.
Proof.
  induction s as [|c s IH]; intros prev H; [reflexivity|].
  cbn [search] in H. apply orb_false_iff in H as [Hm Hs].
  cbn [replace_from]. rewrite Hm, (IH _ Hs). reflexivity.
Qed.

(** X20.  The replacement of a whole word leaves a text alone in which
    the word does not stand on its own: [widthScale], [my_width] and
    [width2] are not touched.  With the canvas size set, a text that holds
    neither [width] nor [height] as a word of its own passes the
    substitution of [wgsl] unchanged. *)
Theorem substitute_needs_bare_words (g : Globals) (code : text) :
  is_Some (canvas_width g) -> is_Some (canvas_height g) ->
  ~ occurs_as_word (t "width") code ->
  ~ occurs_as_word (t "height") code ->
  substitute g code = Returns code
  /\ (forall (w replacement s : text),
        w <> [] -> forallb is_word w = true -> ~ occurs_as_word w s ->
        replace_whole_word w replacement s = s).
Proof.
  assert (Hgen : forall (w replacement s : text),
             w <> [] -> forallb is_word w = true -> ~ occurs_as_word w s ->
             replace_whole_word w replacement s = s).
  { intros w replacement s Hne Hw Hno. apply replace_from_unchanged.
    destruct (search (whole_word w) None s) eqn:E; [|reflexivity].
    exfalso. apply Hno. apply (test_whole_word w s Hne Hw). exact E. }
  intros [w Hw] [h Hh] Hwidth Hheight. split; [|exact Hgen].
  rewrite (substitute_set g code w h Hw Hh).
  rewrite (Hgen (t "width")) by (discriminate || reflexivity || assumption).
  rewrite Hgen by (discriminate || reflexivity || assumption). reflexivity.
Qed.

End Substitution.

(** ** The substitution leaves no placeholder behind *)

Section ReplaceFinds.

Import Layout Core Regex Scanner Passes Assembler.

(** [w] is the word that is replaced by [rep], and [v] a word that is
    looked for in the result.  The replacement starts and ends with a word
    character and shares no character with [v]. *)
Variables (w rep v : text).

Hypothesis Hw_ne : w <> [].
Hypothesis Hw : forallb is_word w = true.
Hypothesis Hv_ne : v <> [].
Hypothesis Hv : forallb is_word v = true.
Hypothesis Hrep_first : is_word_after rep = true.
Hypothesis Hrep_last : is_word_before (last_of None rep) = true.
Hypothesis Hfresh : forall c, In c v -> ~ In c rep.

Lemma replace_from_skips (x y : text) :
  forall (prev : option ascii),
    replace_from w rep (length x) prev (x ++ y) = replace_from w rep 0 (last_of prev x) y.
Proof.
  induction x as [|c x IH]; intros prev; [reflexivity|].
  cbn [length app replace_from last_of]. apply IH.
Qed.

(** No match of [v] starts within the replacement. *)
Lemma search_through_replacement (r : text) (out : text) :
  (forall c, In c r -> In c rep) ->
  forall prev,
    search (whole_word v) prev (r ++ out) = search (whole_word v) (last_of prev r) out.
Proof.
  induction r as [|c r IH]; intros Hin prev; [reflexivity|].
  cbn [app search last_of]. destruct v as [|v0 v'] eqn:Ev; [congruence|].
  rewrite whole_word_needs_first.
  - cbn [orb]. apply IH. intros c' Hc'. apply Hin. right. exact Hc'.
  - destruct (Ascii.eqb_spec v0 c) as [->|]; [|reflexivity].
    exfalso. apply (Hfresh c); [left; reflexivity|apply Hin; left; reflexivity].
Qed.

(** Characters that the replacement does not hold have been copied. *)
Lemma replace_from_copied (u : text) :
  (forall c, In c u -> ~ In c rep) ->
  forall (s : text) (prev : option ascii) (post_o : text),
    replace_from w rep 0 prev s = u ++ post_o ->
    exists post_s,
      s = u ++ post_s /\ post_o = replace_from w rep 0 (last_of prev u) post_s.
Proof.
  induction u as [|x u IH]; intros Hu s prev post_o H.
  - exists s. split; [reflexivity|]. symmetry. exact H.
  - destruct s as [|c rest]; [discriminate|]. cbn [replace_from] in H.
    destruct (matches (whole_word w) prev (c :: rest) accept).
    + exfalso. destruct rep as [|r0 rep']; [discriminate|]. cbn [app] in H.
      injection H as <- _. apply (Hu r0); left; reflexivity.
    + cbn [app] in H. injection H as -> H.
      destruct (IH (fun c Hc => Hu c (or_intror Hc)) rest (Some x) post_o H)
        as [post_s [-> ->]].
      exists post_s. split; reflexivity.
Qed.

Lemma replace_from_head (s : text) (prev : option ascii) :
  is_word_after (replace_from w rep 0 prev s) = false -> is_word_after s = false.
Proof.
  destruct s as [|c rest]; [reflexivity|]. cbn [replace_from].
  destruct (matches (whole_word w) prev (c :: rest) accept); [|exact (fun H => H)].
  destruct rep as [|r0 rep']; [discriminate|]. cbn [app is_word_after] in *. congruence.
Qed.

(** Where [v] stands as a whole word in the result it stood as a whole
    word in the input, at a place that the replacement has passed by. *)
Lemma replace_from_finds (n : nat) :
  forall (s : text) (prev prev_o : option ascii),
    length s <= n ->
    is_word_before prev = is_word_before prev_o ->
    search (whole_word v) prev_o (replace_from w rep 0 prev s) = true ->
    exists pre post,
      s = pre ++ post
      /\ matches (whole_word v) (last_of prev pre) post accept = true
      /\ matches (whole_word w) (last_of prev pre) post accept = false.
Proof.
  induction n as [|n IH]; intros s prev prev_o Hlen Hprev H;
    (destruct s as [|c rest];
     [exfalso; cbn [replace_from search] in H; rewrite orb_false_r in H;
      apply (matches_whole_word v _ _ Hv_ne Hv) in H as [rest' [E _]];
      symmetry in E; apply app_eq_nil in E as [E _]; congruence|]).
  { cbn [length] in Hlen. lia. }
  cbn [length] in Hlen. cbn [replace_from] in H.
  destruct (matches (whole_word w) prev (c :: rest) accept) eqn:Em.
  - apply (matches_whole_word w _ _ Hw_ne Hw) in Em as [rest' [E [Hb Ha]]].
    destruct w as [|w0 w'] eqn:Ew; [congruence|]. cbn [app] in E. injection E as -> ->.
    cbn [length] in H. replace (S (length w') - 1) with (length w') in H by lia.
    rewrite <- Ew in H, IH |- *.
    rewrite replace_from_skips in H.
    rewrite (search_through_replacement rep _ (fun c H => H)) in H.
    destruct (IH rest' (last_of (Some w0) w') (last_of prev_o rep)) as [pre [post [-> [Hm Hn]]]].
    + rewrite length_app in Hlen. lia.
    + change (last_of (Some w0) w') with (last_of prev (w0 :: w')).
      rewrite (last_of_word prev (w0 :: w')) by (congruence || exact Hw).
      destruct rep as [|r0 rep']; [discriminate|]. symmetry. exact Hrep_last.
    + exact H.
    + exists ((w0 :: w') ++ pre), post. rewrite last_of_app.
      split; [rewrite <- app_assoc; reflexivity|]. split; assumption.
  - cbn [search] in H. apply orb_true_iff in H as [Hm|Hs].
    + apply (matches_whole_word v _ _ Hv_ne Hv) in Hm as [post_o [E [Hb Ha]]].
      assert (Hout : replace_from w rep 0 prev (c :: rest) = v ++ post_o).
      { cbn [replace_from]. rewrite Em. exact E. }
      destruct (replace_from_copied v Hfresh _ _ _ Hout) as [post_s [Es Eo]].
      exists [], (c :: rest). split; [reflexivity|]. split; [|exact Em].
      apply (matches_whole_word v _ _ Hv_ne Hv). exists post_s.
      split; [exact Es|]. split; [cbn [last_of]; congruence|].
      subst post_o. exact (replace_from_head _ _ Ha).
    + destruct (IH rest (Some c) (Some c)) as [pre [post [-> [Hm Hn]]]];
        [lia|reflexivity|exact Hs|].
      exists (c :: pre), post. split; [reflexivity|]. split; assumption.
Qed.

End ReplaceFinds.

Section SubstitutionComplete.

Import Layout Core Regex Scanner Passes Assembler.

Context {N : Numbers}.

(** The replacement brings in no whole word that the text did not hold. *)
Lemma replace_adds_no_word (w rep v s : text) :
  w <> [] -> forallb is_word w = true ->
  v <> [] -> forallb is_word v = true ->
  is_word_after rep = true -> is_word_before (last_of None rep) = true ->
  (forall c, In c v -> ~ In c rep) ->
  occurs_as_word v (replace_whole_word w rep s) -> occurs_as_word v s.
Proof.
  intros Hw_ne Hw Hv_ne Hv Hfirst Hlast Hfresh H.
  apply (test_whole_word v _ Hv_ne Hv) in H. apply (test_whole_word v _ Hv_ne Hv).
  destruct (replace_from_finds w rep v Hw_ne Hw Hv_ne Hv Hfirst Hlast Hfresh
              (length s) s None None (le_n _) eq_refl H) as [pre [post [E [Hm _]]]].
  apply search_spec. eauto.
Qed.

(** The replaced word is gone. *)
Lemma replace_removes_word (w rep s : text) :
  w <> [] -> forallb is_word w = true ->
  is_word_after rep = true -> is_word_before (last_of None rep) = true ->
  (forall c, In c w -> ~ In c rep) ->
  ~ occurs_as_word w (replace_whole_word w rep s).
Proof.
  intros Hw_ne Hw Hfirst Hlast Hfresh H.
  apply (test_whole_word w _ Hw_ne Hw) in H.
  destruct (replace_from_finds w rep w Hw_ne Hw Hw_ne Hw Hfirst Hlast Hfresh
              (length s) s None None (le_n _) eq_refl H) as [pre [post [E [Hm Hn]]]].
  congruence.
Qed.

Lemma to_little_uint_nonnil (n : nat) :
  forall acc, acc <> Decimal.Nil -> Nat.to_little_uint n acc <> Decimal.Nil.
Proof.
  induction n as [|n IH]; intros acc Hacc; [exact Hacc|].
  cbn [Nat.to_little_uint]. apply IH. destruct acc; cbn; congruence.
Qed.

Lemma revapp_nonnil (d : Decimal.uint) :
  forall d', d' <> Decimal.Nil -> Decimal.revapp d d' <> Decimal.Nil.
Proof.
  induction d; intros d' Hd'; cbn [Decimal.revapp]; [exact Hd'| | | | | | | | | |];
    apply IHd; discriminate.
Qed.

Lemma to_uint_nonnil (n : nat) : Nat.to_uint n <> Decimal.Nil.
Proof.
  unfold Nat.to_uint, Decimal.rev.
  pose proof (to_little_uint_nonnil n Decimal.zero ltac:(discriminate)) as H.
  destruct (Nat.to_little_uint n Decimal.zero); [congruence| | | | | | | | | |];
    cbn [Decimal.revapp]; apply revapp_nonnil; discriminate.
Qed.

(** The characters of a decimal numeral are digits. *)
Lemma string_of_uint_digits (d : Decimal.uint) (tail : text) :
  Forall (fun c => (N_of_ascii c <=? 57)%N = true) tail ->
  Forall (fun c => (N_of_ascii c <=? 57)%N = true)
    (t (NilEmpty.string_of_uint d) ++ tail).
Proof.
  intros Htail. induction d; cbn [NilEmpty.string_of_uint]; [exact Htail| | | | | | | | | |];
    (apply List.Forall_cons; [reflexivity|exact IHd]).
Qed.

(** [toFixed2] gives digits and a point, with a digit at either end. *)
Lemma toFixed2_shape (n : nat) :
  is_word_after (toFixed2 n) = true
  /\ is_word_before (last_of None (toFixed2 n)) = true
  /\ Forall (fun c => (N_of_ascii c <=? 57)%N = true) (toFixed2 n).
Proof.
  unfold toFixed2, show_nat. split; [|split].
  - pose proof (to_uint_nonnil n) as H.
    destruct (Nat.to_uint n); [congruence| | | | | | | | | |]; reflexivity.
  - rewrite last_of_app. reflexivity.
  - apply string_of_uint_digits. repeat constructor.
Qed.

Lemma letters_not_in_toFixed2 (w : text) (n : nat) :
  forallb (fun c => (97 <=? N_of_ascii c)%N) w = true ->
  forall c, In c w -> ~ In c (toFixed2 n).
Proof.
  intros Hw c Hc Hin. rewrite forallb_forall in Hw. specialize (Hw c Hc).
  destruct (toFixed2_shape n) as [_ [_ Hd]]. rewrite List.Forall_forall in Hd.
  specialize (Hd c Hin). apply N.leb_le in Hw, Hd. lia.
Qed.

Lemma replace_whole_word_fixed (w rep s : text) :
  w <> [] -> forallb is_word w = true -> ~ occurs_as_word w s ->
  replace_whole_word w rep s = s.
Proof.
  intros Hne Hw Hno. apply replace_from_unchanged.
  destruct (search (whole_word w) None s) eqn:E; [|reflexivity].
  exfalso. apply Hno. apply (test_whole_word w s Hne Hw). exact E.
Qed.

(** X26.  After the substitution of [wgsl], for a canvas size in whole
    numbers, neither placeholder is left: the text holds no [width] and no
    [height] as a word of its own, whatever the template was.  The numbers
    that come in bring no identifier with them, so a second substitution
    changes nothing. *)
Theorem substitute_leaves_no_placeholder (g : Globals) (code sized : text) :
  substitute g code = Returns sized ->
  ~ occurs_as_word (t "width") sized
  /\ ~ occurs_as_word (t "height") sized
  /\ substitute g sized = Returns sized.
Proof.
  intros Hsub. destruct (substitute_inv g code sized Hsub) as [w [h [Hw [Hh ->]]]].
  set (sized := replace_whole_word (t "height") (toFixed2 h)
                  (replace_whole_word (t "width") (toFixed2 w) code)).
  assert (Hwidth : ~ occurs_as_word (t "width") sized).
  { unfold sized. intros H.
    destruct (toFixed2_shape h) as [Hf [Hl _]].
    apply (replace_adds_no_word (t "height") _ (t "width")) in H;
      [|discriminate|reflexivity|discriminate|reflexivity|exact Hf|exact Hl
       |apply letters_not_in_toFixed2; reflexivity].
    destruct (toFixed2_shape w) as [Hf' [Hl' _]].
    revert H. apply replace_removes_word;
      [discriminate|reflexivity|exact Hf'|exact Hl'
      |apply letters_not_in_toFixed2; reflexivity]. }
  assert (Hheight : ~ occurs_as_word (t "height") sized).
  { unfold sized. destruct (toFixed2_shape h) as [Hf [Hl _]].
    apply replace_removes_word;
      [discriminate|reflexivity|exact Hf|exact Hl
      |apply letters_not_in_toFixed2; reflexivity]. }
  split; [exact Hwidth|]. split; [exact Hheight|].
  rewrite (substitute_set g sized w h Hw Hh).
  rewrite (replace_whole_word_fixed (t "width")) by (discriminate || reflexivity || assumption).
  rewrite replace_whole_word_fixed by (discriminate || reflexivity || assumption).
  reflexivity.
Qed.

End SubstitutionComplete.

(** ** The builder of [wgsl.compute()] *)

Section BuilderFacts.

Import Regex Scanner Assembler Builder.

Lemma read_line_first (l tail : text) :
  ~ In newline l -> read_line (l ++ newline :: tail) = (l ++ [newline], tail).
Proof.
  induction l as [|c l IH]; intros Hno.
  - cbn [app read_line]. rewrite Ascii.eqb_refl. reflexivity.
  - cbn [app read_line].
    destruct (Ascii.eqb_spec c newline) as [->|_]; [exfalso; apply Hno; left; reflexivity|].
    rewrite IH by (intros Hin; apply Hno; right; exact Hin). reflexivity.
Qed.

(** A first line that is no comment and does not start with [f] goes to
    the body in one round of the loop of [parse]. *)
Lemma parse_loop_first_line (fuel : nat) (c : ascii) (l tail : text)
    (found lines : list text) :
  is_space c = false -> Ascii.eqb c slash = false -> Ascii.eqb "f" c = false ->
  trim_start (rev (c :: l)) = rev (c :: l) ->
  ~ In newline (c :: l) ->
  parse_loop (S fuel) ((c :: l) ++ newline :: tail) found lines
  = parse_loop fuel tail found (lines ++ [c :: l]).
Proof.
  intros Hspace Hslash Hf Hend Hno.
  assert (Hstable : skipWhitespaceAndComments ((c :: l) ++ newline :: tail)
                    = Returns ((c :: l) ++ newline :: tail)).
  { unfold skipWhitespaceAndComments. cbn [app length skipWhitespaceAndComments_fuel].
    cbn [skipWhitespace]. rewrite Hspace. unfold skipComment.
    destruct (l ++ newline :: tail) as [|c2 r] eqn:E; [destruct l; discriminate|].
    rewrite Hslash. cbn [andb snd length]. rewrite Nat.ltb_irrefl. reflexivity. }
  cbn [parse_loop]. cbn [app] in *. rewrite Hstable. cbn [bind].
  unfold parseFunction, matchKeyword. rewrite Hstable. cbn [bind strip_prefix t
    list_ascii_of_string]. rewrite Hf. cbn [bind].
  change (c :: l ++ newline :: tail) with ((c :: l) ++ newline :: tail).
  rewrite (read_line_first _ _ Hno), trim_snoc_space by reflexivity.
  rewrite trim_fixed; [reflexivity| |exact Hend].
  cbn [trim_start]. rewrite Hspace. reflexivity.
Qed.

(** X21.  What the builder collects with [binding] does not stay in
    front of the entry point.  When the assembled text defines no [main],
    the whole of it is scanned, and the declaration of the first binding,
    which is no function, becomes the first line inside the synthesized
    [main], indented like a statement. *)
Theorem builder_binding_lands_in_main (this : WGSLBuilder) (group index type name : text)
    (others strings values : list text) :
  let declaration := t "@group(" ++ group ++ t ") @binding(" ++ index ++ t ") var " ++ name
                       ++ t ": " ++ type ++ t ";" in
  bindings this = declaration :: others ->
  ~ In newline (group ++ index ++ name ++ type) ->
  test (definition_of (t "main")) (assemble this strings values) = false ->
  exists found more : list text,
    main this strings values
    = Returns (match found with
               | [] => []
               | _ => join [newline; newline] found ++ [newline; newline]
               end
               ++ t "@compute @workgroup_size(1)" ++ [newline]
               ++ t "fn main(@builtin(global_invocation_id) id: vec3<u32>) {" ++ [newline]
               ++ (t "  " ++ declaration ++ [newline])
               ++ concat (map (fun l => t "  " ++ l ++ [newline]) more)
               ++ t "}").
Proof.
  intros declaration Hfirst Hno Hmain.
  assert (Hline : ~ In newline declaration).
  { unfold declaration. intros Hin. apply Hno.
    repeat (apply in_app_or in Hin as [Hin|Hin];
            [try (cbn in Hin; intuition discriminate);
             repeat (apply in_or_app; (left; exact Hin) || right); exact Hin|]).
    cbn in Hin. intuition discriminate. }
  assert (Hcode : exists tail, assemble this strings values = declaration ++ newline :: tail).
  { unfold assemble, section. rewrite Hfirst. destruct others as [|d2 others'].
    - cbn [join]. eexists. rewrite <- !app_assoc. reflexivity.
    - change (join [newline] (declaration :: d2 :: others'))
        with (declaration ++ newline :: join [newline] (d2 :: others')).
      eexists. rewrite <- !app_assoc. reflexivity. }
  destruct Hcode as [tail Hcode].
  destruct (WGSLParser_parse_returns (assemble this strings values)) as [r Hr].
  unfold main. rewrite Hmain. unfold extractFunctionsAndBody. rewrite Hr.
  cbn [try_catch bind]. unfold WGSLParser_parse in Hr.
  destruct (parse_loop (S (length (assemble this strings values)))
              (assemble this strings values) [] []) as [p| |] eqn:Ep; cbn [bind] in Hr;
    try discriminate.
  injection Hr as <-. rewrite Hcode in Ep at 2.
  assert (Hshape : declaration = "@"%char :: tl declaration) by reflexivity.
  rewrite Hshape in Ep, Hline.
  rewrite parse_loop_first_line in Ep;
    [|reflexivity|reflexivity|reflexivity| |exact Hline].
  2: { rewrite <- Hshape. unfold declaration. rewrite !rev_app_distr. reflexivity. }
  rewrite <- Hshape in Ep, Hline. cbn [app] in Ep.
  assert (Htail : suffix tail (assemble this strings values)).
  { rewrite Hcode. apply suffix_app_r, suffix_cons_r. reflexivity. }
  destruct (parse_loop_keeps _ _ _ _ _ _ Htail Ep) as [mf [ml [Hf [Hb [_ HB]]]]].
  cbn [app] in Hf. exists mf, ml.
  assert (Hdecl : loose_line declaration).
  { split; [rewrite Hshape; discriminate|]. split; [|exact Hline].
    apply trim_fixed; [reflexivity|].
    unfold declaration. rewrite !rev_app_distr. reflexivity. }
  rewrite (wrap_lines _ (declaration :: ml)).
  - cbn [Scanner.functions map concat]. rewrite Hf, <- !app_assoc. reflexivity.
  - cbn [Scanner.body]. rewrite Hb. reflexivity.
  - constructor; [exact Hdecl|exact HB].
Qed.

(** X22.  The tag of [builder.main] returns on every builder and every
    template, and what it returns defines an entry point: the assembled
    text when it holds a [main], the wrapped scan of it otherwise.  Nothing
    of what [wgsl] does before the scan is done here: no substitution of
    the canvas size, no noise library, no trimming. *)
Theorem builder_main_defines_main (this : WGSLBuilder) (strings values : list text) :
  exists out,
    main this strings values = Returns out
    /\ test (definition_of (t "main")) out = true
    /\ (test (definition_of (t "main")) (assemble this strings values) = true ->
        out = assemble this strings values).
Proof.
  unfold main. destruct (test (definition_of (t "main")) (assemble this strings values)) eqn:E.
  - eexists. split; [reflexivity|]. split; [exact E|reflexivity].
  - destruct (WGSLParser_parse_returns (assemble this strings values)) as [p Hp].
    unfold extractFunctionsAndBody. rewrite Hp. cbn [try_catch bind].
    eexists. split; [reflexivity|]. split; [|discriminate].
    apply test_definition_of_main, wrap_defines_main.
Qed.

End BuilderFacts.

Section AssemblerMoreExamples.

Import Layout Core Regex Scanner Passes Assembler Samples.

#[local] Existing Instance IntNumbers.

(** One loose statement. *)
Lemma wgsl_wraps_loose_lines_witness :
  exists (r : parsed) (lines : list text),
    WGSLParser_parse (trim (String_raw loose_statement [])) = Returns r
    /\ body r = join [newline] lines
    /\ Forall loose_line lines
    /\ Forall (function_text (trim (String_raw loose_statement []))) (functions r)
    /\ wgsl noise1_source noise2_source offsets session loose_statement []
       = Returns (match functions r with
                  | [] => []
                  | _ => join [newline; newline] (functions r) ++ [newline; newline]
                  end
                  ++ t "@compute @workgroup_size(1)" ++ [newline]
                  ++ t "fn main(@builtin(global_invocation_id) id: vec3<u32>) {" ++ [newline]
                  ++ concat (map (fun l => t "  " ++ l ++ [newline]) lines)
                  ++ t "}",
                  session).
Proof.
  apply (wgsl_wraps_loose_lines noise1_source noise2_source offsets session session
           loose_statement [] (String_raw loose_statement []) (String_raw loose_statement [])).
  - reflexivity.
  - reflexivity.
  - reflexivity.
Defined.

(** Functions, comments and indented lines in one template. *)
Example wgsl_wraps_functions_and_lines :
  wgsl noise1_source noise2_source offsets session
    [t (line_feed +:+ "  // a helper" +:+ line_feed
        +:+ "  fn twice(x: f32) -> f32 { return 2.0 * x; }" +:+ line_feed +:+ line_feed
        +:+ "  let a = twice(width);" +:+ line_feed
        +:+ "      let b = a;" +:+ line_feed)] []
  = Returns (t ("fn twice(x: f32) -> f32 { return 2.0 * x; }" +:+ line_feed +:+ line_feed
                +:+ "@compute @workgroup_size(1)" +:+ line_feed
                +:+ "fn main(@builtin(global_invocation_id) id: vec3<u32>) {" +:+ line_feed
                +:+ "  let a = twice(512.00);" +:+ line_feed
                +:+ "  let b = a;" +:+ line_feed
                +:+ "}"),
             session).
Proof. reflexivity. Qed.

Lemma wgsl_output_defines_main_witness :
  test (definition_of (t "main")) (t "fn main() {}") = true.
Proof.
  apply (wgsl_output_defines_main noise1_source noise2_source offsets session session
           padded_main [] (t "fn main() {}")).
  reflexivity.
Defined.

(** Before [initCanvas] every template ends in the TypeError, and in the
    sample session every template comes back. *)
Lemma wgsl_needs_canvas_size_witness :
  wgsl noise1_source noise2_source offsets before_initCanvas loose_statement []
  = Throws "TypeError: Cannot read properties of undefined (reading 'toFixed')"
  /\ exists code out g1,
       substitute session (String_raw [noise_shader] []) = Returns code
       /\ wgsl noise1_source noise2_source offsets session [noise_shader] []
          = Returns (out, g1)
       /\ ((wants_noise code = false \/ is_Some (noiseBuffer session)) /\ g1 = session
           \/ exists d b,
                wants_noise code = true /\ noiseBuffer session = None
                /\ device session = Some d
                /\ noiseBuffer g1 = Some b
                /\ Core.name b = "noiseOffset"
                /\ Core.data b = Float32Array_of offsets
                /\ size b = 4 * length offsets
                /\ buffer b = length (gpu_buffers d)
                /\ canvas_width g1 = canvas_width session
                /\ canvas_height g1 = canvas_height session
                /\ mouseBuffer g1 = mouseBuffer session
                /\ timeBuffer g1 = timeBuffer session
                /\ renderTxtr g1 = renderTxtr session
                /\ feedbackTxtr g1 = feedbackTxtr session).
Proof.
  split.
  - apply (wgsl_needs_canvas_size noise1_source noise2_source offsets before_initCanvas
             loose_statement []).
    left. reflexivity.
  - apply (wgsl_needs_canvas_size noise1_source noise2_source offsets session
             [noise_shader] []); eexists; reflexivity.
Defined.

(** A complete program before [initCanvas]. *)
Example wgsl_before_initCanvas :
  wgsl noise1_source noise2_source offsets before_initCanvas padded_main []
  = Throws "TypeError: Cannot read properties of undefined (reading 'toFixed')".
Proof. reflexivity. Qed.

Lemma getNoiseCode_makes_buffer_once_witness :
  is_Some (noiseBuffer session_with_noise)
  /\ (is_Some (noiseBuffer session_with_noise) -> session_with_noise = session_with_noise)
  /\ getNoiseCode noise1_source noise2_source offsets session_with_noise
     = Returns (newline :: t "    " ++ noise1_source ++ newline :: t "    " ++ noise2_source
                  ++ newline :: t "    ",
                session_with_noise)
  /\ newline :: t "    " ++ noise1_source ++ newline :: t "    " ++ noise2_source
       ++ newline :: t "    "
     = newline :: t "    " ++ noise1_source ++ newline :: t "    " ++ noise2_source
         ++ newline :: t "    ".
Proof.
  apply (getNoiseCode_makes_buffer_once noise1_source noise2_source offsets
           session_with_noise session_with_noise).
  reflexivity.
Defined.

(** The first noise shader of a session creates the buffer of the three
    offsets behind the three buffers that the device has. *)
Example first_noise_shader_creates_the_buffer :
  match getNoiseCode noise1_source noise2_source offsets session with
  | Returns (_, g1) =>
      (fun b => (Core.name b, size b, buffer b)) <$> noiseBuffer g1
  | _ => None
  end = Some ("noiseOffset", 12, 3).
Proof. reflexivity. Qed.

Lemma substitute_needs_bare_words_witness :
  substitute session scaled_width = Returns scaled_width
  /\ (forall (w replacement s : text),
        w <> [] -> forallb is_word w = true -> ~ occurs_as_word w s ->
        replace_whole_word w replacement s = s).
Proof.
  apply (substitute_needs_bare_words session scaled_width).
  - eexists. reflexivity.
  - eexists. reflexivity.
  - intros H. apply test_whole_word in H; [|discriminate|reflexivity].
    vm_compute in H. discriminate.
  - intros H. apply test_whole_word in H; [|discriminate|reflexivity].
    vm_compute in H. discriminate.
Defined.

(** A member that is called [width] is replaced like the bare word. *)
Example member_named_width_is_replaced :
  substitute session (t "let w = params.width;") = Returns (t "let w = params.512.00;").
Proof. reflexivity. Qed.

(** The size of the sample session in a template. *)
Lemma substitute_leaves_no_placeholder_witness :
  ~ occurs_as_word (t "width") (t "vec2f(512.00, 512.00) / 512.00")
  /\ ~ occurs_as_word (t "height") (t "vec2f(512.00, 512.00) / 512.00")
  /\ substitute session (t "vec2f(512.00, 512.00) / 512.00")
     = Returns (t "vec2f(512.00, 512.00) / 512.00").
Proof.
  apply (substitute_leaves_no_placeholder session (t "vec2f(width, height) / width")).
  reflexivity.
Defined.

End AssemblerMoreExamples.

Section BuilderExamples.

Import Regex Scanner Assembler Builder Samples.

Lemma builder_binding_lands_in_main_witness :
  exists found more : list text,
    main one_binding assignment []
    = Returns (match found with
               | [] => []
               | _ => join [newline; newline] found ++ [newline; newline]
               end
               ++ t "@compute @workgroup_size(1)" ++ [newline]
               ++ t "fn main(@builtin(global_invocation_id) id: vec3<u32>) {" ++ [newline]
               ++ (t "  "
                   ++ (t "@group(" ++ t "0" ++ t ") @binding(" ++ t "0" ++ t ") var " ++ t "x"
                       ++ t ": " ++ t "f32" ++ t ";")
                   ++ [newline])
               ++ concat (map (fun l => t "  " ++ l ++ [newline]) more)
               ++ t "}").
Proof.
  apply (builder_binding_lands_in_main one_binding (t "0") (t "0") (t "f32") (t "x") []
           assignment []).
  - reflexivity.
  - vm_compute. intuition discriminate.
  - vm_compute. reflexivity.
Defined.

Example builder_output :
  main one_binding assignment []
  = Returns (t ("@compute @workgroup_size(1)" +:+ line_feed
                +:+ "fn main(@builtin(global_invocation_id) id: vec3<u32>) {" +:+ line_feed
                +:+ "  @group(0) @binding(0) var x: f32;" +:+ line_feed
                +:+ "  x = 1.0;" +:+ line_feed
                +:+ "}")).
Proof. vm_compute. reflexivity. Qed.

(** A function of the builder is found by the scan and stays in front. *)
Example builder_function_stays_in_front :
  main (fn compute (t "twice") (t "x: f32") (t "f32") (t "return 2.0 * x;")) assignment []
  = Returns (t ("fn twice(x: f32) -> f32 {" +:+ line_feed
                +:+ "return 2.0 * x;" +:+ line_feed
                +:+ "}" +:+ line_feed +:+ line_feed
                +:+ "@compute @workgroup_size(1)" +:+ line_feed
                +:+ "fn main(@builtin(global_invocation_id) id: vec3<u32>) {" +:+ line_feed
                +:+ "  x = 1.0;" +:+ line_feed
                +:+ "}")).
Proof. vm_compute. reflexivity. Qed.

End BuilderExamples.
